(** * gdb: the statement-building, batch-execution and result-materialization
      core of [database/gdb/gdb_base.go], as a shallow embedding.

    Go strings are [string]s (byte sequences), [interface{}] values are the
    inductive [iface], Go maps are [gmap]s together with an iteration-order
    oracle (the language leaves the order of a [range] over a map open), and
    every method that talks to the driver runs in a small state monad over a
    [World]: the driver's own state, the log of the calls that reached a
    link, the diagnostics sink and the byte store that driver buffers and
    copies live in. *)

From stdpp Require Import gmap strings list fin_maps.
From Stdlib Require Import ZArith Lia.

Local Open Scope string_scope.
Local Open Scope Z_scope.
Local Open Scope list_scope.

(** ** Strings *)

(** [strings.Join(elems, sep)]. *)
Fixpoint join (elems : list string) (sep : string) : string :=
  match elems with
  | [] => ""
  | x :: xs =>
      match xs with
      | [] => x
      | _ :: _ => x +:+ sep +:+ join xs sep
      end
  end.

(** The double quote character, as a one-character string. *)
Definition dq : string := String (Ascii.ascii_of_nat 34) EmptyString.

(** [len(s)] of a Go string, in bytes. *)
Definition len (s : string) : nat := String.length s.

(** ** Values *)

(** Addresses of byte blocks; a [[]byte] slice is the address of its block. *)
Definition loc := nat.

(** [interface{}]: the dynamically typed values that travel as statement
    arguments and as decoded column values. [INil] is the nil interface. *)
Inductive iface :=
| INil
| IInt (n : Z)
| IString (s : string)
| IBool (b : bool)
| IBytes (l : loc).

Global Instance iface_eq_dec : EqDecision iface.
Proof. solve_decision. Defined.

(** [type Map = map[string]interface{}] and [type List = []Map]. *)
Abbreviation Map := (gmap string iface).
Abbreviation List := (list (gmap string iface)).

(** [*gvar.Var]: a pointer to a box around one [interface{}]; [None] is the
    nil pointer, [gvar.New(x)] is [Some (mkVar x)]. *)
Record Var := mkVar { Val : iface }.

Global Instance Var_eq_dec : EqDecision Var.
Proof. solve_decision. Defined.

Abbreviation Value := (option Var).

Definition gvar_New (x : iface) : Value := Some (mkVar x).

(** [type Record = map[string]Value] and [type Result = []Record]. *)
Abbreviation Record_ := (gmap string (option Var)).
Abbreviation Result := (list (gmap string (option Var))).

(** [m[k]] on a Go map: the zero value when the key is absent. *)
Definition map_index (m : Map) (k : string) : iface := default INil (m !! k).

(** ** Errors *)

(** Go [error] values. [ErrNoRows] is the sentinel [sql.ErrNoRows],
    [ErrNew msg] is [errors.New(msg)], [ErrDriver] is whatever a link, the
    connection router or a cursor reports, and [ErrFormatted] is a driver
    error annotated by [formatError]. *)
Inductive error :=
| ErrNoRows
| ErrNew (msg : string)
| ErrDriver (code : nat)
| ErrFormatted (cause : error) (query : string) (args : list iface).

Global Instance error_eq_dec : EqDecision error.
Proof. solve_decision. Defined.

(** Modelled from the spec: [formatError] is defined outside
    [gdb_base.go]. The
    dispatcher "wraps [a driver error] into a uniform error carrying the
    original SQL text and arguments", leaves "no rows" detectable as a
    distinct condition, and has nothing to wrap when there is no error. *)
Definition formatError (err : option error) (query : string) (args : list iface)
  : option error :=
  match err with
  | None => None
  | Some ErrNoRows => Some ErrNoRows
  | Some e => Some (ErrFormatted e query args)
  end.
Arguments formatError : simpl never.

(** ** Exec results *)

(** [int64] arithmetic wraps around. *)
Definition wrap64 (z : Z) : Z := (z + 2 ^ 63) mod 2 ^ 64 - 2 ^ 63.

(** The driver's native [sql.Result]: both methods return [(int64, error)]. *)
Record driverResult := mkDriverResult {
  dr_RowsAffected : Z * option error;
  dr_LastInsertId : Z * option error;
}.

(** [batchSqlResult]: the aggregate of a batched write, with the two fields
    that [doBatchInsert] sets. *)
Record batchSqlResult := mkBatchSqlResult {
  lastResult : option driverResult;
  rowsAffected : Z;
}.

(** The non-nil values of the interface [sql.Result] that occur here: a
    driver's native result, or the aggregate of a batch. *)
Inductive sqlResult :=
| ResNative (r : driverResult)
| ResBatch (b : batchSqlResult).

(** [r.RowsAffected()]. *)
Definition RowsAffected (r : sqlResult) : Z * option error :=
  match r with
  | ResNative d => dr_RowsAffected d
  | ResBatch b => (rowsAffected b, None)
  end.

(** ** Insert options *)

(** The write modes, numbered as the comment of [doInsert] numbers them. *)
Definition gINSERT_OPTION_DEFAULT : Z := 0.
Definition gINSERT_OPTION_REPLACE : Z := 1.
Definition gINSERT_OPTION_SAVE : Z := 2.
Definition gINSERT_OPTION_IGNORE : Z := 3.

(** Modelled from the spec: [getInsertOperationByOption] is defined outside
    [gdb_base.go]. It gives the verb of the statement, "<VERB> INTO": as the
    comments of [Insert], [InsertIgnore], [Replace] and [Save] have it,
    "INSERT INTO" for plain inserts and for saves, "INSERT IGNORE INTO" and
    "REPLACE INTO" for the two other modes. *)
Definition getInsertOperationByOption (opt : Z) : string :=
  if opt =? gINSERT_OPTION_REPLACE then "REPLACE"
  else if opt =? gINSERT_OPTION_IGNORE then "INSERT IGNORE"
  else "INSERT".

(** ** Input shapes *)

(** What a caller may pass as [data interface{}] / [list interface{}]: the
    four named types the type switch of [doBatchInsert] knows, and the
    shapes that reflection tells apart ([DataOther] is a value of any other
    kind, with the name of that kind). *)
Inductive Data :=
| DataResult (r : Result)
| DataRecord (r : gmap string (option Var))
| DataList (l : List)
| DataMap (m : Map)
| DataSlice (elems : list Data)
| DataArray (elems : list Data)
| DataStruct (fields : list (string * iface))
| DataGoMap (entries : list (iface * iface))
| DataPtr (d : Data)
| DataOther (kind : string) (v : iface).

(** [reflect.Kind], as far as the code distinguishes kinds. *)
Inductive Kind := KSlice | KArray | KMap | KStruct | KPtr | KOther (name : string).

Global Instance Kind_eq_dec : EqDecision Kind.
Proof. solve_decision. Defined.

(** [reflect.ValueOf(d).Kind()]. *)
Definition kindOf (d : Data) : Kind :=
  match d with
  | DataResult _ | DataList _ | DataSlice _ => KSlice
  | DataArray _ => KArray
  | DataRecord _ | DataMap _ | DataGoMap _ => KMap
  | DataStruct _ => KStruct
  | DataPtr _ => KPtr
  | DataOther k _ => KOther k
  end.

(** [rv.Elem()] of a pointer. *)
Definition elemOf (d : Data) : Data :=
  match d with
  | DataPtr d' => d'
  | _ => d
  end.

(** The elements [rv.Index(i).Interface()] of a slice or an array. *)
Definition elemsOf (d : Data) : list Data :=
  match d with
  | DataResult r => DataRecord <$> r
  | DataList l => DataMap <$> l
  | DataSlice l | DataArray l => l
  | _ => []
  end.

(** [fmt.Sprint(kind)]. *)
Definition Kind_String (k : Kind) : string :=
  match k with
  | KSlice => "slice"
  | KArray => "array"
  | KMap => "map"
  | KStruct => "struct"
  | KPtr => "ptr"
  | KOther name => name
  end.

(** ** Regular expressions

    Modelled from the spec: the package [gregex] and the regular-expression
    engine under it are defined outside [gdb_base.go]. [GetCount] uses them on
    two fixed patterns, "regex replaces the field list with
    COUNT(field_list)". The engine searches for the leftmost match and, among
    the matches that start there, takes the one a backtracking search finds
    first, with greedy repetition; a replacement rewrites every match, one
    after the other, and copies the text between them. *)

(** The patterns that occur: alternatives of literal strings (a letter
    matched without regard to case is the alternative of its forms), a
    greedy [c+] over a class of bytes, sequence, and a numbered capture
    group. *)
Inductive regex :=
| RLit (alts : list string)
| RPlus (class : Ascii.ascii -> bool)
| RSeq (r1 r2 : regex)
| RGroup (n : nat) (r : regex).

(** [strings.HasPrefix(s, p)], and [s] without its first [n] bytes. *)
Fixpoint hasPrefix (p s : string) : bool :=
  match p, s with
  | EmptyString, _ => true
  | String a p', String b s' => if Ascii.eqb a b then hasPrefix p' s' else false
  | String _ _, EmptyString => false
  end.

Fixpoint dropBytes (n : nat) (s : string) : string :=
  match n, s with
  | O, _ => s
  | S n', String _ s' => dropBytes n' s'
  | S _, EmptyString => EmptyString
  end.

Fixpoint takeBytes (n : nat) (s : string) : string :=
  match n, s with
  | O, _ => EmptyString
  | S n', String a s' => String a (takeBytes n' s')
  | S _, EmptyString => EmptyString
  end.

(** The number of leading bytes of [s] that are in [class]. *)
Fixpoint spanBytes (class : Ascii.ascii -> bool) (s : string) : nat :=
  match s with
  | String a s' => if class a then S (spanBytes class s') else O
  | EmptyString => O
  end.

Section Matcher.

Context {A : Type}.

(** The first alternative that is a prefix of [s] and lets the rest match. *)
Fixpoint tryAlts (alts : list string) (s : string) (k : string -> option A)
  : option A :=
  match alts with
  | [] => None
  | p :: alts' =>
      match (if hasPrefix p s then k (dropBytes (len p) s) else None) with
      | Some x => Some x
      | None => tryAlts alts' s k
      end
  end.

(** Greedy repetition: the longest run first, then shorter ones, down to
    one byte. *)
Fixpoint tryRuns (n : nat) (s : string) (k : string -> option A) : option A :=
  match n with
  | O => None
  | S n' =>
      match k (dropBytes n s) with
      | Some x => Some x
      | None => tryRuns n' s k
      end
  end.

(** A match of [r] at the start of [s], followed by whatever [k] accepts for
    the rest; [caps] are the groups captured so far. *)
Fixpoint rmatch (r : regex) (s : string) (caps : gmap nat string)
    (k : string -> gmap nat string -> option A) : option A :=
  match r with
  | RLit alts => tryAlts alts s (fun s' => k s' caps)
  | RPlus class => tryRuns (spanBytes class s) s (fun s' => k s' caps)
  | RSeq r1 r2 => rmatch r1 s caps (fun s' caps' => rmatch r2 s' caps' k)
  | RGroup n r' =>
      rmatch r' s caps
        (fun s' caps' => k s' (<[n := takeBytes (len s - len s') s]> caps'))
  end.

End Matcher.

(** The leftmost match of [r] in [s]: the text before it, its groups, and
    the text after it. *)
Fixpoint rsearch (r : regex) (s : string)
  : option (string * gmap nat string * string) :=
  match rmatch r s ∅ (fun s' caps => Some (caps, s')) with
  | Some (caps, s') => Some (EmptyString, caps, s')
  | None =>
      match s with
      | EmptyString => None
      | String a s' =>
          match rsearch r s' with
          | Some (pre, caps, post) => Some (String a pre, caps, post)
          | None => None
          end
      end
  end.

(** A replacement template: literal text and references [$n] to groups. *)
Inductive titem :=
| TText (s : string)
| TGroup (n : nat).

Definition expand (tpl : list titem) (caps : gmap nat string) : string :=
  foldr (fun it acc =>
           match it with
           | TText s => s +:+ acc
           | TGroup n => default EmptyString (caps !! n) +:+ acc
           end) EmptyString tpl.

(** Every match replaced, from left to right: at a byte that lies in no
    earlier match a match is tried; if there is one, the expanded template
    is written and the bytes of the match are skipped ([skip] counts those
    still to skip), and if there is none the byte is copied. A match of the
    empty string writes the template in front of the byte it is tried at. *)
Fixpoint replaceGo (r : regex) (tpl : list titem) (skip : nat) (s : string)
    {struct s} : string :=
  match skip with
  | S skip' =>
      match s with
      | String _ s' => replaceGo r tpl skip' s'
      | EmptyString => EmptyString
      end
  | O =>
      match rmatch r s ∅ (fun s' caps => Some (caps, s')) with
      | Some (caps, rest) =>
          expand tpl caps +:+
          match s with
          | String a s' =>
              match (len s - len rest)%nat with
              | S skip' => replaceGo r tpl skip' s'
              | O => String a (replaceGo r tpl 0 s')
              end
          | EmptyString => EmptyString
          end
      | None =>
          match s with
          | String a s' => String a (replaceGo r tpl 0 s')
          | EmptyString => EmptyString
          end
      end
  end.

(** Modelled from the spec: [gregex.IsMatchString], which is defined outside
    [gdb_base.go]: whether the pattern matches somewhere in the text. *)
Definition isMatch (r : regex) (s : string) : bool :=
  match rsearch r s with
  | Some _ => true
  | None => false
  end.

(** Modelled from the spec: [gregex.ReplaceString], which is defined outside
    [gdb_base.go]: the text with every match of the pattern replaced by the
    expanded template. *)
Definition replaceAll (r : regex) (tpl : list titem) (s : string) : string :=
  replaceGo r tpl 0 s.

(** A letter under [(?i)]: its two ASCII forms; for [S] also the long s
    (U+017F, two bytes in UTF-8), which folds to it. *)
Definition ci (upper lower : string) : regex := RLit [upper; lower].

Definition ci_S : regex :=
  RLit ["S"; "s";
        String (Ascii.ascii_of_nat 197) (String (Ascii.ascii_of_nat 191) EmptyString)].

(** [\s]: tab, line feed, form feed, carriage return, space. *)
Definition isSpace (a : Ascii.ascii) : bool :=
  let n := Ascii.nat_of_ascii a in
  (n =? 9)%nat || (n =? 10)%nat || (n =? 12)%nat || (n =? 13)%nat || (n =? 32)%nat.

(** [.]: any byte but the line feed. *)
Definition isDot (a : Ascii.ascii) : bool :=
  negb (Ascii.nat_of_ascii a =? 10)%nat.

Definition rseq (rs : list regex) : regex :=
  foldr RSeq (RLit [EmptyString]) rs.

Definition re_SELECT : regex :=
  rseq [ci_S; ci "E" "e"; ci "L" "l"; ci "E" "e"; ci "C" "c"; ci "T" "t"].

Definition re_COUNT : regex :=
  rseq [ci "C" "c"; ci "O" "o"; ci "U" "u"; ci "N" "n"; ci "T" "t"].

Definition re_FROM : regex :=
  rseq [ci "F" "f"; ci "R" "r"; ci "O" "o"; ci "M" "m"].

(** [(?i)SELECT\s+COUNT\(.+\)\s+FROM] *)
Definition countPattern : regex :=
  rseq [re_SELECT; RPlus isSpace; re_COUNT; RLit ["("]; RPlus isDot; RLit [")"];
        RPlus isSpace; re_FROM].

(** [(?i)(SELECT)\s+(.+)\s+(FROM)] *)
Definition fieldsPattern : regex :=
  rseq [RGroup 1 re_SELECT; RPlus isSpace; RGroup 2 (RPlus isDot); RPlus isSpace;
        RGroup 3 re_FROM].

(** [$1 COUNT($2) $3] *)
Definition countTemplate : list titem :=
  [TGroup 1; TText " COUNT("; TGroup 2; TText ") "; TGroup 3].

(** The first statement of [GetCount]: the query that goes on to
    [GetValue]. *)
Definition countQuery (query : string) : string :=
  if negb (isMatch countPattern query)
  then replaceAll fieldsPattern countTemplate query
  else query.

(** ** The environment of a [dbBase] *)

(** A [dbLink] handle. *)
Definition dbLink := nat.

(** What [link.Exec] answers: a result without error, or an error (with
    whatever result value came along). *)
Inductive ExecReply :=
| ExecOk (r : driverResult)
| ExecFail (r : option driverResult) (e : error).

Definition reply_result (rp : ExecReply) : option driverResult :=
  match rp with
  | ExecOk r => Some r
  | ExecFail r _ => r
  end.

Definition reply_error (rp : ExecReply) : option error :=
  match rp with
  | ExecOk _ => None
  | ExecFail _ e => Some e
  end.

(** One outcome of [rows.Scan] for a row of the cursor: the raw column
    values ([None] for SQL NULL), or a scan error. *)
Inductive ScanOutcome :=
| RowData (cells : list (option (list Byte.byte)))
| RowFail (e : error).

(** [*sql.Rows], before its first [Next]. [cur_columns] is what
    [rows.ColumnTypes()] answers (name and database type name per column),
    [cur_buf i] is the driver's buffer for column [i], which every [Scan]
    reuses, and [cur_rows] are the rows to come. *)
Record Cursor := mkCursor {
  cur_columns : list (string * string) + error;
  cur_buf : nat -> loc;
  cur_rows : list ScanOutcome;
}.

Inductive QueryReply :=
| QueryOk (rows : option Cursor)
| QueryFail (e : error).

(** Everything a [dbBase] reaches through [bs.db] and through its links but
    does not define in [gdb_base.go]: the connection router, the links, the
    dialect's quote characters and the conversion helpers. [convertValue v
    b ty] sees the slice [v], its bytes [b] and the column's type name;
    [Var_Int] is the method [Int] of a [gvar.Var] pointer, [None] when that
    call panics;
    [rangeOrder n s] is the order in which the [n]-th [range] statement of
    a run visits a map with key set [s]. *)
Record Env := mkEnv {
  St : Type;
  Master : St -> (dbLink + error) * St;
  Slave : St -> (dbLink + error) * St;
  link_Exec : dbLink -> string -> list iface -> St -> ExecReply * St;
  link_Query : dbLink -> string -> list iface -> St -> QueryReply * St;
  formatQuery : string -> list iface -> string * list iface;
  handleSqlBeforeExec : string -> string;
  getDebug : bool;
  bindArgsToQuery : string -> list iface -> string;
  getChars : string * string;
  getPrefix : string;
  doHandleTableName : string -> string -> string -> string -> string;
  doQuoteWord : string -> string -> string -> string;
  varToMapDeep : Data -> Map;
  Record_Map : gmap string (option Var) -> Map;
  gconv_String : Data -> string;
  formatWhere : Data -> list iface -> string * list iface;
  convertValue : loc -> list Byte.byte -> string -> iface;
  Record_Struct : gmap string (option Var) -> Data -> option error;
  Var_Int : option Var -> option Z;
  gDEFAULT_BATCH_NUM : Z;
  rangeOrder : nat -> gset string -> list string;
}.

(** A [range] over a map visits every key exactly once. *)
Definition valid_rangeOrder (E : Env) : Prop :=
  forall n (s : gset string),
    NoDup (rangeOrder E n s) /\ list_to_set (rangeOrder E n s) = s.

(** ** The world and the monad of driver-facing code *)

(** One call that reached a link through [link.Exec], with its answer. *)
Record ExecCall := mkExecCall {
  ec_link : dbLink;
  ec_query : string;
  ec_args : list iface;
  ec_reply : ExecReply;
}.

(** One call that reached a link through [link.Query]. *)
Record QueryCall := mkQueryCall {
  qc_link : dbLink;
  qc_query : string;
  qc_args : list iface;
}.

(** The [Sql] object handed to [printSql] in debug mode (the two timestamps
    are left out). *)
Record Sql := mkSql {
  Sql_Sql : string;
  Sql_Args : list iface;
  Sql_Format : string;
  Sql_Error : option error;
}.

Section Base.

Context (E : Env).

Record World := mkWorld {
  w_driver : St E;
  w_execs : list ExecCall;
  w_queries : list QueryCall;
  w_diag : list Sql;
  w_ranges : nat;
  w_heap : gmap loc (list Byte.byte);
}.

(** A run ends with a value and a world, or in a Go panic. *)
Inductive res (A : Type) :=
| Ret (a : A) (w : World)
| Panic (msg : string).
Arguments Ret {A} a w.
Arguments Panic {A} msg.

Definition M (A : Type) : Type := World -> res A.

Global Instance M_ret : MRet M := fun A a w => Ret a w.
Global Instance M_bind : MBind M := fun A B f c w =>
  match c w with
  | Ret a w' => f a w'
  | Panic msg => Panic msg
  end.

Definition panic {A} (msg : string) : M A := fun _ => Panic msg.

(** [bs.db.Master()] and [bs.db.Slave()]. *)
Definition db_Master : M (dbLink + error) := fun w =>
  let '(r, s) := Master E (w_driver w) in
  Ret r (mkWorld s (w_execs w) (w_queries w) (w_diag w) (w_ranges w) (w_heap w)).

Definition db_Slave : M (dbLink + error) := fun w =>
  let '(r, s) := Slave E (w_driver w) in
  Ret r (mkWorld s (w_execs w) (w_queries w) (w_diag w) (w_ranges w) (w_heap w)).

(** [link.Exec(query, args...)]: the driver answers and the call is logged. *)
Definition link_exec (link : dbLink) (query : string) (args : list iface)
  : M ExecReply := fun w =>
  let '(rp, s) := link_Exec E link query args (w_driver w) in
  Ret rp (mkWorld s (w_execs w ++ [mkExecCall link query args rp])
            (w_queries w) (w_diag w) (w_ranges w) (w_heap w)).

(** [link.Query(query, args...)]. *)
Definition link_query (link : dbLink) (query : string) (args : list iface)
  : M QueryReply := fun w =>
  let '(rp, s) := link_Query E link query args (w_driver w) in
  Ret rp (mkWorld s (w_execs w) (w_queries w ++ [mkQueryCall link query args])
            (w_diag w) (w_ranges w) (w_heap w)).

(** [bs.printSql(s)]: the diagnostics sink receives [s]. *)
Definition printSql (s : Sql) : M unit := fun w =>
  Ret tt (mkWorld (w_driver w) (w_execs w) (w_queries w) (w_diag w ++ [s])
            (w_ranges w) (w_heap w)).

(** The keys of a map in the order in which this [range] statement visits
    them. *)
Definition range_keys {V} (m : gmap string V) : M (list string) := fun w =>
  Ret (rangeOrder E (w_ranges w) (dom m))
      (mkWorld (w_driver w) (w_execs w) (w_queries w) (w_diag w)
         (S (w_ranges w)) (w_heap w)).

(** [handleTableName] and [quoteWord]. *)
Definition handleTableName (table : string) : string :=
  doHandleTableName E table (getPrefix E) (getChars E).1 (getChars E).2.

Definition quoteWord (s : string) : string :=
  doQuoteWord E s (getChars E).1 (getChars E).2.

(** ** [doExec] *)

Definition doExec (link : dbLink) (query : string) (args : list iface)
  : M (option driverResult * option error) :=
  let '(query, args) := formatQuery E query args in
  let query := handleSqlBeforeExec E query in
  rp ← (if getDebug E then
          rp ← link_exec link query args;
          _ ← printSql (mkSql query args (bindArgsToQuery E query args)
                          (reply_error rp));
          mret rp
        else link_exec link query args);
  mret (reply_result rp, formatError (reply_error rp) query args).

(** ** [doBatchInsert] *)

(** The statement of one chunk:
    [fmt.Sprintf("%s INTO %s(%s) VALUES%s %s", ...)]. *)
Definition batchStatement (operation table keysStr : string)
    (values : list string) (updateStr : string) : string :=
  operation +:+ " INTO " +:+ table +:+ "(" +:+ keysStr +:+ ") VALUES"
    +:+ join values "," +:+ " " +:+ updateStr.

(** One entry of the duplicate-key clause:
    [fmt.Sprintf("%s%s%s=VALUES(%s%s%s)", charL, k, charR, charL, k, charR)]. *)
Definition updateEntry (charL charR k : string) : string :=
  charL +:+ k +:+ charR +:+ "=VALUES(" +:+ charL +:+ k +:+ charR +:+ ")".

(** The loop that builds [updateStr] from a list of keys. *)
Definition updateLoop (charL charR : string) (keys : list string) : string :=
  fold_left (fun updateStr k =>
               (if (0 <? Z.of_nat (len updateStr)) then updateStr +:+ "," else updateStr)
                 +:+ updateEntry charL charR k) keys "".

(** The first part of [doBatchInsert]: bring the argument [list] into the
    shape of a [List], or say that its type is not supported. [v.List()] of
    a [Result] is [v.Map()] of each of its records. *)
Definition toListMap (data : Data) : List + error :=
  match data with
  | DataResult v => inl (Record_Map E <$> v)
  | DataRecord v => inl [Record_Map E v]
  | DataList v => inl v
  | DataMap v => inl [v]
  | _ =>
      let rv := if decide (kindOf data = KPtr) then elemOf data else data in
      let kind := kindOf rv in
      match kind with
      | KSlice | KArray => inl (varToMapDeep E <$> elemsOf rv)
      | KMap | KStruct => inl [varToMapDeep E data]
      | _ => inr (ErrNew ("unsupported list type:" +:+ Kind_String kind))
      end
  end.

(** The chunk size in force: [batch[0]] when given and positive. *)
Definition batchNumOf (batch : list Z) : Z :=
  match batch with
  | b :: _ => if 0 <? b then b else gDEFAULT_BATCH_NUM E
  | [] => gDEFAULT_BATCH_NUM E
  end.

(** The loop over the rows, from index [i] on; [rows] are the rows
    [listMap[i:]] that are still to be visited. *)
Fixpoint batchLoop (link : dbLink) (operation table keysStr valueHolderStr
    updateStr : string) (keys : list string) (batchNum : Z) (listMapLen : nat)
    (i : nat) (rows : List) (params : list iface) (values : list string)
    (batchResult : batchSqlResult) : M (option sqlResult * option error) :=
  match rows with
  | [] => mret (Some (ResBatch batchResult), None)
  | row :: rest =>
      let params := (params ++ (map_index row <$> keys))%list in
      let values := (values ++ [valueHolderStr])%list in
      if (Z.of_nat (length values) =? batchNum)
         || ((Z.of_nat i =? Z.of_nat listMapLen - 1) && (0 <? Z.of_nat (length values)))
      then
        '(r, err) ← doExec link
           (batchStatement operation table keysStr values updateStr) params;
        match err with
        | Some e => mret (ResNative <$> r, Some e)
        | None =>
            match r with
            | None => panic "invalid memory address or nil pointer dereference"
            | Some r' =>
                match dr_RowsAffected r' with
                | (_, Some e) => mret (ResNative <$> r, Some e)
                | (n, None) =>
                    batchLoop link operation table keysStr valueHolderStr
                      updateStr keys batchNum listMapLen (S i) rest [] []
                      (mkBatchSqlResult (Some r')
                         (wrap64 (rowsAffected batchResult + n)))
                end
            end
        end
      else
        batchLoop link operation table keysStr valueHolderStr updateStr keys
          batchNum listMapLen (S i) rest params values batchResult
  end.

Definition doBatchInsert (link : option dbLink) (table : string) (data : Data)
    (opt : Z) (batch : list Z) : M (option sqlResult * option error) :=
  let table := handleTableName table in
  match toListMap data with
  | inr e => mret (None, Some e)
  | inl listMap =>
      if (Z.of_nat (length listMap) <? 1) then
        mret (None, Some (ErrNew "data list cannot be empty"))
      else
        lk ← match link with
             | Some l => mret (inl l)
             | None => db_Master
             end;
        match lk with
        | inr e => mret (None, Some e)
        | inl link =>
            keys ← range_keys (default ∅ (head listMap));
            let holders := (fun _ => "?") <$> keys in
            let batchResult := mkBatchSqlResult None 0 in
            let '(charL, charR) := getChars E in
            let keysStr := charL +:+ join keys (charR +:+ "," +:+ charL) +:+ charR in
            let valueHolderStr := "(" +:+ join holders "," +:+ ")" in
            let operation := getInsertOperationByOption opt in
            let updateStr :=
              if opt =? gINSERT_OPTION_SAVE
              then "ON DUPLICATE KEY UPDATE " +:+ updateLoop charL charR keys
              else "" in
            let batchNum := batchNumOf batch in
            batchLoop link operation table keysStr valueHolderStr updateStr
              keys batchNum (length listMap) 0 listMap [] [] batchResult
        end
  end.

(** ** [doInsert] *)

(** The statement of a single-row insert:
    [fmt.Sprintf("%s INTO %s(%s) VALUES(%s) %s", ...)]. *)
Definition insertStatement (operation table : string) (fields values : list string)
    (updateStr : string) : string :=
  operation +:+ " INTO " +:+ table +:+ "(" +:+ join fields "," +:+ ") VALUES("
    +:+ join values "," +:+ ") " +:+ updateStr.

(** The kind of [data], looking through one pointer. *)
Definition kindThroughPtr (data : Data) : Kind :=
  if decide (kindOf data = KPtr) then kindOf (elemOf data) else kindOf data.

Definition doInsert (link : option dbLink) (table : string) (data : Data)
    (opt : Z) (batch : list Z) : M (option sqlResult * option error) :=
  let table := handleTableName table in
  let kind := kindThroughPtr data in
  match kind with
  | KSlice | KArray => doBatchInsert link table data opt batch
  | KMap | KStruct =>
      let dataMap := varToMapDeep E data in
      if (Z.of_nat (size dataMap) =? 0) then
        mret (None, Some (ErrNew "data cannot be empty"))
      else
        let '(charL, charR) := getChars E in
        keys ← range_keys dataMap;
        let fields := (fun k => charL +:+ k +:+ charR) <$> keys in
        let values := (fun _ => "?") <$> keys in
        let params := map_index dataMap <$> keys in
        let operation := getInsertOperationByOption opt in
        updateStr ← (if opt =? gINSERT_OPTION_SAVE then
                       keys' ← range_keys dataMap;
                       mret ("ON DUPLICATE KEY UPDATE " +:+ updateLoop charL charR keys')
                     else mret "");
        lk ← match link with
             | Some l => mret (inl l)
             | None => db_Master
             end;
        match lk with
        | inr e => mret (None, Some e)
        | inl link =>
            '(r, err) ← doExec link
               (insertStatement operation table fields values updateStr) params;
            mret (ResNative <$> r, err)
        end
  | _ => mret (None, Some (ErrNew ("unsupported data type:" +:+ Kind_String kind)))
  end.

(** ** [Update] and [doUpdate] *)

(** [fmt.Sprintf("UPDATE %s SET %s%s", table, updates, condition)]. *)
Definition updateStatement (table updates condition : string) : string :=
  "UPDATE " +:+ table +:+ " SET " +:+ updates +:+ condition.

Definition doUpdate (link : option dbLink) (table : string) (data : Data)
    (condition : string) (args : list iface)
  : M (option sqlResult * option error) :=
  let table := handleTableName table in
  let kind := kindThroughPtr data in
  '(updates, params) ←
     match kind with
     | KMap | KStruct =>
         let dataMap := varToMapDeep E data in
         keys ← range_keys dataMap;
         let fields := (fun k => quoteWord k +:+ "=?") <$> keys in
         let params := map_index dataMap <$> keys in
         mret (join fields ",", params)
     | _ => mret (gconv_String E data, [])
     end;
  if (Z.of_nat (len updates) =? 0) then
    mret (None, Some (ErrNew "data cannot be empty"))
  else
    let args := if (0 <? Z.of_nat (length params)) then params ++ args else args in
    lk ← match link with
         | Some l => mret (inl l)
         | None => db_Master
         end;
    match lk with
    | inr e => mret (None, Some e)
    | inl link =>
        '(r, err) ← doExec link (updateStatement table updates condition) args;
        mret (ResNative <$> r, err)
    end.

Definition Update (table : string) (data : Data) (condition : Data)
    (args : list iface) : M (option sqlResult * option error) :=
  let '(newWhere, newArgs) := formatWhere E condition args in
  let newWhere := if negb (String.eqb newWhere "") then " WHERE " +:+ newWhere
                  else newWhere in
  doUpdate None table data newWhere newArgs.

(** ** [doQuery] *)

Definition query_rows (rp : QueryReply) : option Cursor :=
  match rp with
  | QueryOk rows => rows
  | QueryFail _ => None
  end.

Definition query_error (rp : QueryReply) : option error :=
  match rp with
  | QueryOk _ => None
  | QueryFail e => Some e
  end.

Definition doQuery (link : dbLink) (query : string) (args : list iface)
  : M (option Cursor * option error) :=
  let '(query, args) := formatQuery E query args in
  let query := handleSqlBeforeExec E query in
  rp ← (if getDebug E then
          rp ← link_query link query args;
          _ ← printSql (mkSql query args (bindArgsToQuery E query args)
                          (query_error rp));
          mret rp
        else link_query link query args);
  match query_error rp with
  | None => mret (query_rows rp, None)
  | Some e => mret (None, formatError (Some e) query args)
  end.

(** ** [rowsToResult] *)

(** What [rows.Scan] does with the cells of the row the cursor is at: every
    cell that is not NULL is written into the driver's buffer of its column,
    and the destination becomes a slice of that buffer; a NULL cell leaves a
    nil slice. [i] is the index of the first of [cells]. *)
Fixpoint scanCells (buf : nat -> loc) (i : nat)
    (cells : list (option (list Byte.byte))) (h : gmap loc (list Byte.byte))
  : list (option loc) * gmap loc (list Byte.byte) :=
  match cells with
  | [] => ([], h)
  | cell :: cells' =>
      match cell with
      | Some b =>
          let '(ds, h') := scanCells buf (S i) cells' (<[buf i := b]> h) in
          (Some (buf i) :: ds, h')
      | None =>
          let '(ds, h') := scanCells buf (S i) cells' h in
          (None :: ds, h')
      end
  end.

(** [rows.Scan(scanArgs...)] with [n] destinations of type [*sql.RawBytes]:
    the new contents of [values], or an error; a row whose number of columns
    is not [n] is an error of [Scan], too. *)
Definition rows_Scan (buf : nat -> loc) (row : ScanOutcome) (n : nat)
  : M (list (option loc) + error) := fun w =>
  match row with
  | RowFail e => Ret (inr e) w
  | RowData cells =>
      if decide (length cells = n) then
        let '(ds, h) := scanCells buf 0 cells (w_heap w) in
        Ret (inl ds) (mkWorld (w_driver w) (w_execs w) (w_queries w) (w_diag w)
                        (w_ranges w) h)
      else Ret (inr (ErrDriver 0)) w
  end.

(** [v := make([]byte, len(value)); copy(v, value)]: a block that is not in
    use receives the bytes of [value]. *)
Definition copyBytes (value : loc) : M (loc * list Byte.byte) := fun w =>
  let b := default [] (w_heap w !! value) in
  let v := fresh (dom (w_heap w)) in
  Ret (v, b) (mkWorld (w_driver w) (w_execs w) (w_queries w) (w_diag w)
                (w_ranges w) (<[v := b]> (w_heap w))).

(** The loop over [values] that fills one row object; [i] is the index of
    the first of [values]. *)
Fixpoint fillRow (columnNames columnTypes : list string) (i : nat)
    (values : list (option loc)) (row : gmap string (option Var))
  : M (gmap string (option Var)) :=
  match values with
  | [] => mret row
  | value :: values' =>
      match value with
      | None =>
          fillRow columnNames columnTypes (S i) values'
            (<[columnNames !!! i := gvar_New INil]> row)
      | Some src =>
          '(v, b) ← copyBytes src;
          fillRow columnNames columnTypes (S i) values'
            (<[columnNames !!! i := gvar_New (convertValue E v b (columnTypes !!! i))]> row)
      end
  end.

(** The loop of [rowsToResult]: the cursor is at [cur], [rest] are the rows
    that [rows.Next()] will still reach. *)
Fixpoint scanLoop (buf : nat -> loc) (columnNames columnTypes : list string)
    (cur : ScanOutcome) (rest : list ScanOutcome) (records : Result)
  : M (Result * option error) :=
  vs ← rows_Scan buf cur (length columnNames);
  match vs with
  | inr e => mret (records, Some e)
  | inl values =>
      row ← fillRow columnNames columnTypes 0 values ∅;
      let records := records ++ [row] in
      match rest with
      | [] => mret (records, None)
      | next :: rest' => scanLoop buf columnNames columnTypes next rest' records
      end
  end.

Definition rowsToResult (rows : Cursor) : M (Result * option error) :=
  match cur_rows rows with
  | [] => mret ([], None)
  | first :: rest =>
      match cur_columns rows with
      | inr e => mret ([], Some e)
      | inl columns =>
          let columnTypes := snd <$> columns in
          let columnNames := fst <$> columns in
          scanLoop (cur_buf rows) columnNames columnTypes first rest []
      end
  end.

(** ** The query entry points *)

(** The deferred [rows.Close()] has no part in what is returned and is left
    out. *)
Definition doGetAll (link : option dbLink) (query : string) (args : list iface)
  : M (Result * option error) :=
  lk ← match link with
       | Some l => mret (inl l)
       | None => db_Slave
       end;
  match lk with
  | inr e => mret ([], Some e)
  | inl link =>
      '(rows, err) ← doQuery link query args;
      match err, rows with
      | Some e, _ => mret ([], Some e)
      | None, None => mret ([], None)
      | None, Some rows => rowsToResult rows
      end
  end.

Definition GetAll (query : string) (args : list iface) : M (Result * option error) :=
  doGetAll None query args.

(** A [Record] is a map, and [GetOne] may return the nil map: [None]. *)
Definition GetOne (query : string) (args : list iface)
  : M (option (gmap string (option Var)) * option error) :=
  '(list, err) ← GetAll query args;
  match err with
  | Some e => mret (None, Some e)
  | None =>
      match list with
      | one :: _ => mret (Some one, None)
      | [] => mret (None, None)
      end
  end.

(** [len(one)] of a record that may be nil. *)
Definition Record_len (one : option (gmap string (option Var))) : nat :=
  match one with
  | Some r => size r
  | None => O
  end.

Definition GetStruct (pointer : Data) (query : string) (args : list iface)
  : M (option error) :=
  '(one, err) ← GetOne query args;
  match err with
  | Some e => mret (Some e)
  | None =>
      if (Z.of_nat (Record_len one) =? 0) then mret (Some ErrNoRows)
      else mret (Record_Struct E (default ∅ one) pointer)
  end.

Definition GetValue (query : string) (args : list iface)
  : M (option Var * option error) :=
  '(one, err) ← GetOne query args;
  match err with
  | Some e => mret (None, Some e)
  | None =>
      keys ← range_keys (default ∅ one);
      match keys with
      | k :: _ => mret (default None (default ∅ one !! k), None)
      | [] => mret (None, None)
      end
  end.

Definition GetCount (query : string) (args : list iface)
  : M (Z * option error) :=
  let query := countQuery query in
  '(value, err) ← GetValue query args;
  match err with
  | Some e => mret (0, Some e)
  | None =>
      match Var_Int E value with
      | Some n => mret (n, None)
      | None => panic "invalid memory address or nil pointer dereference"
      end
  end.

End Base.

Arguments Ret {E A} a w.
Arguments Panic {E A} msg.
Arguments w_driver {E} w.
Arguments w_execs {E} w.
Arguments w_queries {E} w.
Arguments w_diag {E} w.
Arguments w_ranges {E} w.
Arguments w_heap {E} w.

(** ** The other entry points *)

Section Entry.

Context (E : Env).

(** [Query] and [Exec]: the raw statement on the read link and on the write
    link. *)
Definition Query (query : string) (args : list iface)
  : M E (option Cursor * option error) :=
  lk ← db_Slave E;
  match lk with
  | inr e => mret (None, Some e)
  | inl link => doQuery E link query args
  end.

Definition Exec (query : string) (args : list iface)
  : M E (option driverResult * option error) :=
  lk ← db_Master E;
  match lk with
  | inr e => mret (None, Some e)
  | inl link => doExec E link query args
  end.

(** The four single-call entry points of the insert family. *)
Definition Insert (table : string) (data : Data) (batch : list Z)
  : M E (option sqlResult * option error) :=
  doInsert E None table data gINSERT_OPTION_DEFAULT batch.

Definition InsertIgnore (table : string) (data : Data) (batch : list Z)
  : M E (option sqlResult * option error) :=
  doInsert E None table data gINSERT_OPTION_IGNORE batch.

Definition Replace (table : string) (data : Data) (batch : list Z)
  : M E (option sqlResult * option error) :=
  doInsert E None table data gINSERT_OPTION_REPLACE batch.

Definition Save (table : string) (data : Data) (batch : list Z)
  : M E (option sqlResult * option error) :=
  doInsert E None table data gINSERT_OPTION_SAVE batch.

(** The four batch entry points. *)
Definition BatchInsert (table : string) (list_ : Data) (batch : list Z)
  : M E (option sqlResult * option error) :=
  doBatchInsert E None table list_ gINSERT_OPTION_DEFAULT batch.

Definition BatchInsertIgnore (table : string) (list_ : Data) (batch : list Z)
  : M E (option sqlResult * option error) :=
  doBatchInsert E None table list_ gINSERT_OPTION_IGNORE batch.

Definition BatchReplace (table : string) (list_ : Data) (batch : list Z)
  : M E (option sqlResult * option error) :=
  doBatchInsert E None table list_ gINSERT_OPTION_REPLACE batch.

Definition BatchSave (table : string) (list_ : Data) (batch : list Z)
  : M E (option sqlResult * option error) :=
  doBatchInsert E None table list_ gINSERT_OPTION_SAVE batch.

(** ** [Delete] and [doDelete] *)

(** [fmt.Sprintf("DELETE FROM %s%s", table, condition)]. *)
Definition deleteStatement (table condition : string) : string :=
  "DELETE FROM " +:+ table +:+ condition.

Definition doDelete (link : option dbLink) (table : string) (condition : string)
    (args : list iface) : M E (option sqlResult * option error) :=
  lk ← match link with
       | Some l => mret (inl l)
       | None => db_Master E
       end;
  match lk with
  | inr e => mret (None, Some e)
  | inl link =>
      let table := handleTableName E table in
      '(r, err) ← doExec E link (deleteStatement table condition) args;
      mret (ResNative <$> r, err)
  end.

Definition Delete (table : string) (condition : Data) (args : list iface)
  : M E (option sqlResult * option error) :=
  let '(newWhere, newArgs) := formatWhere E condition args in
  let newWhere := if negb (String.eqb newWhere "") then " WHERE " +:+ newWhere
                  else newWhere in
  doDelete None table newWhere newArgs.

(** ** [GetStructs] and [GetScan] *)

Section Scan.

(** [all.Structs(pointer)], the conversion of a record set into a slice of
    structs, which is defined outside [gdb_base.go]. *)
Context (Result_Structs : Result -> Data -> option error).

Definition GetStructs (pointer : Data) (query : string) (args : list iface)
  : M E (option error) :=
  '(all, err) ← GetAll E query args;
  match err with
  | Some e => mret (Some e)
  | None =>
      if (Z.of_nat (length all) =? 0) then mret (Some ErrNoRows)
      else mret (Result_Structs all pointer)
  end.

(** [reflect.TypeOf(pointer)] is the nil type for the nil interface, the
    one value whose kind is [reflect.Invalid], and calling [Kind] on the nil
    type panics. *)
Definition isNilInterface (d : Data) : bool :=
  bool_decide (kindOf d = KOther "invalid").

Definition GetScan (pointer : Data) (query : string) (args : list iface)
  : M E (option error) :=
  if isNilInterface pointer then
    panic E "invalid memory address or nil pointer dereference"
  else
    let k := kindOf pointer in
    if negb (bool_decide (k = KPtr)) then
      mret (Some (ErrNew ("params should be type of pointer, but got: "
                            +:+ Kind_String k)))
    else
      let k := kindOf (elemOf pointer) in
      match k with
      | KArray | KSlice => GetStructs pointer query args
      | KStruct => GetStruct E pointer query args
      | _ => mret (Some (ErrNew ("element type should be type of struct/slice, unsupported: "
                                   +:+ Kind_String k)))
      end.

End Scan.

End Entry.

(** ** A stub environment

    A driver that counts the calls it has answered and answers the [n]-th
    [Exec] with [exec n]; one connection for writes (link 1) and one for
    reads (link 2); double quotes as quote characters; no prefix; helpers
    that leave statements and names as they are. *)
Module Stub.

Definition env (exec : nat -> ExecReply) (query : QueryReply)
    (order : nat -> gset string -> list string) (debug : bool) : Env :=
  {| St := nat;
     Master := fun s => (inl 1%nat, s);
     Slave := fun s => (inl 2%nat, s);
     link_Exec := fun _ _ _ s => (exec s, S s);
     link_Query := fun _ _ _ s => (query, s);
     formatQuery := fun q a => (q, a);
     handleSqlBeforeExec := fun q => q;
     getDebug := debug;
     bindArgsToQuery := fun q _ => q;
     getChars := (dq, dq);
     getPrefix := "";
     doHandleTableName := fun t _ _ _ => t;
     doQuoteWord := fun s l r => l +:+ s +:+ r;
     varToMapDeep := fun d => match d with DataMap m => m | _ => ∅ end;
     Record_Map := fun r => (fun x : option Var =>
                               match x with Some b => Val b | None => INil end) <$> r;
     gconv_String := fun d => match d with DataOther _ (IString s) => s | _ => "" end;
     formatWhere := fun c a => (match c with DataOther _ (IString s) => s | _ => "" end, a);
     convertValue := fun v _ _ => IBytes v;
     Record_Struct := fun _ _ => None;
     Var_Int := fun v => match v with
                         | Some (mkVar (IInt n)) => Some n
                         | Some _ => Some 0
                         | None => None
                         end;
     gDEFAULT_BATCH_NUM := 10;
     rangeOrder := order |}.

(** The keys in increasing order. *)
Definition sorted : nat -> gset string -> list string := fun _ s => elements s.

(** A driver that reports [n] affected rows for every statement. *)
Definition always (n : Z) : nat -> ExecReply :=
  fun _ => ExecOk (mkDriverResult (n, None) (0, None)).

(** A driver whose [k]-th call (counting from 0) fails. *)
Definition failing_at (k : nat) (n : Z) : nat -> ExecReply :=
  fun i => if decide (i = k) then ExecFail None (ErrDriver 1) else always n i.

Definition world0 (E : Env) (s : St E) : World E :=
  mkWorld E s [] [] [] 0 ∅.

End Stub.

(** * The vocabulary of the properties *)

(** ** Calls that reach a link *)

Section ExecVocabulary.

Context (E : Env).

(** The statement and the arguments that reach the link. *)
Definition sentQuery (query : string) (args : list iface) : string :=
  handleSqlBeforeExec E (formatQuery E query args).1.

Definition sentArgs (query : string) (args : list iface) : list iface :=
  (formatQuery E query args).2.

(** The driver's answer to the statement in world [w], and the world after
    the call. *)
Definition exec_reply (link : dbLink) (query : string) (args : list iface)
    (w : World E) : ExecReply :=
  (link_Exec E link (sentQuery query args) (sentArgs query args) (w_driver w)).1.

Definition after_exec (link : dbLink) (query : string) (args : list iface)
    (w : World E) : World E :=
  let sq := sentQuery query args in
  let sa := sentArgs query args in
  let rp := link_Exec E link sq sa (w_driver w) in
  mkWorld E rp.2 (w_execs w ++ [mkExecCall link sq sa rp.1]) (w_queries w)
    (if getDebug E
     then w_diag w ++ [mkSql sq sa (bindArgsToQuery E sq sa) (reply_error rp.1)]
     else w_diag w)
    (w_ranges w) (w_heap w).

(** The rows-affected count that a logged call reported. *)
Definition call_rows (c : ExecCall) : Z :=
  match ec_reply c with
  | ExecOk r => (dr_RowsAffected r).1
  | ExecFail _ _ => 0
  end.

Definition sum_rows (calls : list ExecCall) : Z :=
  foldr (fun c acc => call_rows c + acc) 0 calls.

End ExecVocabulary.

(** ** Batches and their traces *)

Section BatchVocabulary.

Context (E : Env).

(** Every statement succeeds and reports a rows-affected count. *)
Definition driver_succeeds : Prop :=
  forall l q a s, exists r n,
    (link_Exec E l q a s).1 = ExecOk r /\ dr_RowsAffected r = (n, None).

(** The link that a call works on: the one passed in, or else the master. *)
Definition link_resolves (link : option dbLink) (w : World E) : Prop :=
  link = None -> exists l, (Master E (w_driver w)).1 = inl l.

(** A logged call that succeeded and reported a rows-affected count. *)
Definition call_ok (cl : ExecCall) : Prop :=
  exists r n, ec_reply cl = ExecOk r /\ dr_RowsAffected r = (n, None).

(** How a batch ends when its last call [cl] went wrong: the driver
    rejected the statement, or the result could not tell its rows-affected
    count. In both cases the caller gets the result value of that very call
    and the error. *)
Definition call_failed (cl : ExecCall) (res : option sqlResult)
    (err : option error) : Prop :=
  (exists r e0, ec_reply cl = ExecFail r e0
     /\ res = ResNative <$> r
     /\ err = formatError (Some e0) (ec_query cl) (ec_args cl))
  \/ (exists r n e, ec_reply cl = ExecOk r
        /\ dr_RowsAffected r = (n, Some e)
        /\ res = Some (ResNative r) /\ err = Some e).

(** The two ways a batch can end. *)
Definition batch_outcome (calls : list ExecCall) (res : option sqlResult)
    (err : option error) : Prop :=
  (Forall call_ok calls /\ err = None /\ exists b, res = Some (ResBatch b))
  \/ (exists calls0 cl, calls = calls0 ++ [cl]
        /\ Forall call_ok calls0 /\ call_failed cl res err).

(** The arguments that one row contributes. *)
Definition rowParams (keys : list string) (row : Map) : list iface :=
  map_index row <$> keys.

(** The call that carries the rows of [chunk]. *)
Definition chunk_call (link : dbLink) (operation table keysStr holder
    updateStr : string) (keys : list string) (chunk : List) (cl : ExecCall)
  : Prop :=
  let q := batchStatement operation table keysStr
             (replicate (length chunk) holder) updateStr in
  let a := concat (rowParams keys <$> chunk) in
  chunk <> [] /\ ec_link cl = link
  /\ ec_query cl = sentQuery E q a /\ ec_args cl = sentArgs E q a.

(** The pieces of a chunk's statement, as [doBatchInsert] computes them from
    the keys. *)
Definition keysStrOf (keys : list string) : string :=
  (getChars E).1 +:+ join keys ((getChars E).2 +:+ "," +:+ (getChars E).1)
    +:+ (getChars E).2.

Definition holderOf (keys : list string) : string :=
  "(" +:+ join ((fun _ => "?") <$> keys) "," +:+ ")".

Definition updateStrOf (opt : Z) (keys : list string) : string :=
  if opt =? gINSERT_OPTION_SAVE
  then "ON DUPLICATE KEY UPDATE " +:+ updateLoop (getChars E).1 (getChars E).2 keys
  else "".

(** The keys of a batch: those of its first row, in the order in which the
    one [range] statement of [doBatchInsert] visits them. *)
Definition batchKeys (listMap : List) (w : World E) : list string :=
  rangeOrder E (w_ranges w) (dom (default ∅ (head listMap))).

(** The link the call works on. *)
Definition resolveLink (link : option dbLink) : M E (dbLink + error) :=
  match link with
  | Some l => mret (inl l)
  | None => db_Master E
  end.

End BatchVocabulary.

(** What follows the first element of a join. *)
Definition joinTail (sep : string) (elems : list string) : string :=
  foldr (fun e t => sep +:+ e +:+ t) EmptyString elems.

(** ** Statements of the examples *)

Section StatementsVocabulary.

Context (E : Env).


Definition is_record_like (data : Data) : Prop :=
  kindThroughPtr data = KMap \/ kindThroughPtr data = KStruct.


End StatementsVocabulary.

(** ** Queries and their answers *)

Section QueriesVocabulary.

Context (E : Env).

(** What a query meets on its way: the read link that the router hands out
    and the driver's answer to the statement on that link. *)
Definition query_reply (query : string) (args : list iface) (w : World E)
  : (dbLink * QueryReply) + error :=
  match Slave E (w_driver w) with
  | (inl l, s) =>
      inl (l, (link_Query E l (sentQuery E query args) (sentArgs E query args) s).1)
  | (inr e, _) => inr e
  end.

(** The query reaches a cursor that has no rows. *)
Definition yields_zero_rows (query : string) (args : list iface) (w : World E)
  : Prop :=
  exists l c, query_reply query args w = inl (l, QueryOk (Some c)) /\ cur_rows c = [].

(** The driver rejects the query with [e]. *)
Definition query_fails (query : string) (args : list iface) (w : World E)
    (e : error) : Prop :=
  exists l, query_reply query args w = inl (l, QueryFail e).

End QueriesVocabulary.

(** ** Cells, blocks and decoded rows *)

Section MaterializerVocabulary.

Context (E : Env).

Local Abbreviation heap := (gmap loc (list Byte.byte)).

(** A cell and what stands for it: a NULL cell has no block, any other cell
    has a block that holds its bytes in [h]. *)
Definition cell_in (h : heap) (cell : option (list Byte.byte)) (blk : option loc)
  : Prop :=
  match cell, blk with
  | Some b, Some v => h !! v = Some b
  | None, None => True
  | _, _ => False
  end.

(** The value that [fillRow] stores for a cell whose copy is the block
    [blk]. *)
Definition cellValue (ty : string) (cell : option (list Byte.byte))
    (blk : option loc) : option Var :=
  match cell, blk with
  | Some b, Some v => gvar_New (convertValue E v b ty)
  | _, _ => gvar_New INil
  end.

(** The row object that [fillRow] builds from cells and their blocks. *)
Fixpoint insertCols (columnNames columnTypes : list string) (i : nat)
    (cells : list (option (list Byte.byte))) (blks : list (option loc))
    (row : gmap string (option Var)) : gmap string (option Var) :=
  match cells, blks with
  | cell :: cells', blk :: blks' =>
      insertCols columnNames columnTypes (S i) cells' blks'
        (<[columnNames !!! i := cellValue (columnTypes !!! i) cell blk]> row)
  | _, _ => row
  end.

(** A driver buffer of one of the first [n] columns. *)
Definition is_buf (buf : nat -> loc) (n : nat) (v : loc) : Prop :=
  exists i, (i < n)%nat /\ v = buf i.

Definition set_heap (w : World E) (h : heap) : World E :=
  mkWorld E (w_driver w) (w_execs w) (w_queries w) (w_diag w) (w_ranges w) h.

(** What has been decoded so far: every record is the row object of its
    cells and blocks, the blocks hold the bytes of their cells, no block is
    used twice, and no block is a driver buffer. *)
Definition allBlocks (data : list (list (option (list Byte.byte)) * list (option loc)))
  : list loc :=
  omap id (concat (snd <$> data)).

Definition decoded (buf : nat -> loc) (columnNames columnTypes : list string)
    (h : heap) (records : Result)
    (data : list (list (option (list Byte.byte)) * list (option loc))) : Prop :=
  Forall2 (fun rec d =>
             rec = insertCols columnNames columnTypes 0 d.1 d.2 ∅
             /\ Forall2 (cell_in h) d.1 d.2) records data
  /\ NoDup (allBlocks data)
  /\ (forall v, v ∈ allBlocks data ->
        v ∈ dom h /\ ~ is_buf buf (length columnNames) v).

Definition all_rows_scan (n : nat) (rows : list ScanOutcome) : Prop :=
  Forall (fun r => exists cells, r = RowData cells /\ length cells = n) rows.

End MaterializerVocabulary.

(** ** The inputs of the concrete runs *)

Module Examples.

Import Stub.

Definition row_a : Map := <["id" := IInt 1]> (<["name" := IString "a"]> ∅).

Definition row_b : Map := <["id" := IInt 2]> (<["nom" := IString "b"]> ∅).

(** Every call reports 5 affected rows. *)
Definition E_ok : Env := env (always 5) (QueryFail ErrNoRows) sorted false.

(** The second call fails. *)
Definition E_fail : Env := env (failing_at 1 5) (QueryFail ErrNoRows) sorted false.





Definition byte (n : nat) : Byte.byte := default Byte.x00 (Byte.of_nat n).

(** Two rows of two columns that come through the buffers 0 and 1; the
    second row has a NULL name. *)
Definition two_cols : list (string * string) :=
  [("id", "int"); ("name", "varchar")].

Definition two_cells : list (list (option (list Byte.byte))) :=
  [[Some [byte 49]; Some [byte 97; byte 98]]; [Some [byte 50]; None]].

Definition two_rows : Cursor :=
  mkCursor (inl two_cols) (fun i => i) (RowData <$> two_cells).

Definition no_rows : Cursor :=
  mkCursor (inl [("id", "int")]) (fun i => i) [].

Definition E_two : Env := env (always 5) (QueryOk (Some two_rows)) sorted false.

Definition E_none : Env := env (always 5) (QueryOk (Some no_rows)) sorted false.

(** A world whose store holds the two driver buffers. *)
Definition world_bufs (E : Env) (s : St E) : World E :=
  mkWorld E s [] [] [] 0 (<[0%nat := []]> (<[1%nat := []]> ∅)).

End Examples.

(** ** Runs of the mutation entry points *)

Section MutationVocabulary.

Context (E : Env).

(** What [bs.db.Master()] answers in world [w]. *)
Definition master_reply (w : World E) : dbLink + error := (Master E (w_driver w)).1.

(** The world after [n] visits of maps. *)
Definition after_ranges (n : nat) (w : World E) : World E :=
  mkWorld E (w_driver w) (w_execs w) (w_queries w) (w_diag w) (n + w_ranges w)
    (w_heap w).

(** The world after the router was asked for the write link. *)
Definition after_master (w : World E) : World E :=
  mkWorld E (Master E (w_driver w)).2 (w_execs w) (w_queries w) (w_diag w)
    (w_ranges w) (w_heap w).

(** The end that [doInsert], [doUpdate] and [doDelete] share: take the link
    that was passed or else the master, and execute the statement on it. *)
Definition execOn (link : option dbLink) (query : string) (args : list iface)
  : M E (option sqlResult * option error) :=
  lk ← match link with
       | Some l => mret (inl l)
       | None => db_Master E
       end;
  match lk with
  | inr e => mret (None, Some e)
  | inl l =>
      '(r, err) ← doExec E l query args;
      mret (ResNative <$> r, err)
  end.

(** The statement and the arguments of a single-row insert of [data] in
    world [w]. *)
Definition insertKeys (data : Data) (w : World E) : list string :=
  rangeOrder E (w_ranges w) (dom (varToMapDeep E data)).

Definition insertQuery (table : string) (data : Data) (opt : Z) (w : World E)
  : string :=
  let keys := insertKeys data w in
  let keys' := rangeOrder E (S (w_ranges w)) (dom (varToMapDeep E data)) in
  insertStatement (getInsertOperationByOption opt) (handleTableName E table)
    ((fun k => (getChars E).1 +:+ k +:+ (getChars E).2) <$> keys)
    ((fun _ => "?") <$> keys)
    (if opt =? gINSERT_OPTION_SAVE
     then "ON DUPLICATE KEY UPDATE "
            +:+ join (updateEntry (getChars E).1 (getChars E).2 <$> keys') ","
     else "").

Definition insertArgs (data : Data) (w : World E) : list iface :=
  map_index (varToMapDeep E data) <$> insertKeys data w.

(** The assignments and the data arguments of an update with [data] in
    world [w]. *)
Definition updateParts (data : Data) (w : World E) : string * list iface :=
  match kindThroughPtr data with
  | KMap | KStruct =>
      let keys := rangeOrder E (w_ranges w) (dom (varToMapDeep E data)) in
      (join ((fun k => quoteWord E k +:+ "=?") <$> keys) ",",
       map_index (varToMapDeep E data) <$> keys)
  | _ => (gconv_String E data, [])
  end.

(** The number of visits of maps that an update with [data] makes. *)
Definition updateRanges (data : Data) : nat :=
  match kindThroughPtr data with
  | KMap | KStruct => 1%nat
  | _ => 0%nat
  end.

(** The condition clause that [Update] and [Delete] make of what the
    condition formatter returns. *)
Definition whereClause (condition : Data) (args : list iface) : string :=
  let newWhere := (formatWhere E condition args).1 in
  if negb (String.eqb newWhere "") then " WHERE " +:+ newWhere else newWhere.

(** The link [l] that a call with [link] works on in world [w], and the
    state [s] in which the driver receives the statement: the state the call
    found it in when a link was passed, the state the router left when the
    master had to be asked for. *)
Definition resolves_to (link : option dbLink) (w : World E) (l : dbLink)
    (s : St E) : Prop :=
  (link = Some l /\ s = w_driver w)
  \/ (link = None /\ Master E (w_driver w) = (inl l, s)).

(** The run [run], started in world [w], executed exactly the statement
    [query] with [args] on link [l], the driver being in state [s]; it
    issued no query, and it returned the driver's own result and the
    driver's error as [doExec] formats it. *)
Definition runs_one_statement (l : dbLink) (s : St E) (query : string)
    (args : list iface) (w : World E)
    (run : res E (option sqlResult * option error)) : Prop :=
  let sq := sentQuery E query args in
  let sa := sentArgs E query args in
  let rp := (link_Exec E l sq sa s).1 in
  exists w',
    run = Ret (ResNative <$> reply_result rp, formatError (reply_error rp) sq sa) w'
    /\ w_execs w' = w_execs w ++ [mkExecCall l sq sa rp]
    /\ w_queries w' = w_queries w.

End MutationVocabulary.

(** ** Chunks of a batch *)

(** Every chunk but the last has exactly [c] rows, and the last one has at
    least one row and at most [c]. *)
Fixpoint full_but_last (c : Z) (chunks : list List) : Prop :=
  match chunks with
  | [] => True
  | chunk :: rest =>
      match rest with
      | [] => 0 < Z.of_nat (length chunk) <= c
      | _ :: _ => Z.of_nat (length chunk) = c /\ full_but_last c rest
      end
  end.

(** The native result of the last of [calls]. *)
Definition last_result (calls : list ExecCall) : option driverResult :=
  cl ← last calls; reply_result (ec_reply cl).

(** ** Runs of the query entry points *)

Section ReadVocabulary.

Context (E : Env).

(** What [bs.db.Slave()] answers in world [w]. *)
Definition slave_reply (w : World E) : dbLink + error := (Slave E (w_driver w)).1.

(** The world after the router was asked for the read link. *)
Definition after_slave (w : World E) : World E :=
  mkWorld E (Slave E (w_driver w)).2 (w_execs w) (w_queries w) (w_diag w)
    (w_ranges w) (w_heap w).

(** The world after the query reached the link. *)
Definition after_query (link : dbLink) (query : string) (args : list iface)
    (w : World E) : World E :=
  let sq := sentQuery E query args in
  let sa := sentArgs E query args in
  let rp := link_Query E link sq sa (w_driver w) in
  mkWorld E rp.2 (w_execs w) (w_queries w ++ [mkQueryCall link sq sa])
    (if getDebug E
     then w_diag w ++ [mkSql sq sa (bindArgsToQuery E sq sa) (query_error rp.1)]
     else w_diag w)
    (w_ranges w) (w_heap w).

(** The query reaches the cursor [c] on the read link [l]. *)
Definition yields_cursor (query : string) (args : list iface) (w : World E)
    (l : dbLink) (c : Cursor) : Prop :=
  query_reply E query args w = inl (l, QueryOk (Some c)).

(** The run ended in [w'] without a statement executed and with exactly
    the query [query] with [args] issued, on link [l]. *)
Definition one_query_issued (l : dbLink) (query : string) (args : list iface)
    (w w' : World E) : Prop :=
  w_execs w' = w_execs w
  /\ w_queries w' = w_queries w
                     ++ [mkQueryCall l (sentQuery E query args) (sentArgs E query args)].

(** The run returned, without a statement executed and with exactly the
    query [query] with [args] issued, on link [l]. *)
Definition reads_once {A : Type} (l : dbLink) (query : string) (args : list iface)
    (w : World E) (run : res E A) : Prop :=
  exists r w', run = Ret r w' /\ one_query_issued l query args w w'.

(** The cursor [c], cut off after its first [n] rows. *)
Definition first_rows (n : nat) (c : Cursor) : Cursor :=
  mkCursor (cur_columns c) (cur_buf c) (take n (cur_rows c)).

End ReadVocabulary.

(** ** The diagnostics of debug mode *)

Section LogVocabulary.

Context (E : Env).

(** The [Sql] object that [doExec] hands to [printSql] for a call: the
    statement and the arguments that reached the link, and the error that the
    link returned, as it is. *)
Definition logged_exec (cl : ExecCall) : Sql :=
  mkSql (ec_query cl) (ec_args cl) (bindArgsToQuery E (ec_query cl) (ec_args cl))
    (reply_error (ec_reply cl)).

(** The run returned; it issued no query; and the diagnostics received,
    in debug mode, one object for every call that reached a link, in the
    order of the calls, and nothing otherwise. *)
Definition logs_its_calls {A : Type} (w : World E) (run : res E A) : Prop :=
  exists r w' calls,
    run = Ret r w'
    /\ w_execs w' = w_execs w ++ calls
    /\ w_queries w' = w_queries w
    /\ w_diag w' = w_diag w ++ (if getDebug E then logged_exec <$> calls else []).

End LogVocabulary.

(** ** The inputs of further concrete runs *)

Module MoreExamples.

Import Stub Examples.

(** The environment [E] behind a router that has no link to give. *)
Definition unreachable (E : Env) : Env :=
  {| St := St E;
     Master := fun s => (inr (ErrDriver 7), s);
     Slave := fun s => (inr (ErrDriver 8), s);
     link_Exec := link_Exec E;
     link_Query := link_Query E;
     formatQuery := formatQuery E;
     handleSqlBeforeExec := handleSqlBeforeExec E;
     getDebug := getDebug E;
     bindArgsToQuery := bindArgsToQuery E;
     getChars := getChars E;
     getPrefix := getPrefix E;
     doHandleTableName := doHandleTableName E;
     doQuoteWord := doQuoteWord E;
     varToMapDeep := varToMapDeep E;
     Record_Map := Record_Map E;
     gconv_String := gconv_String E;
     formatWhere := formatWhere E;
     convertValue := convertValue E;
     Record_Struct := Record_Struct E;
     Var_Int := Var_Int E;
     gDEFAULT_BATCH_NUM := gDEFAULT_BATCH_NUM E;
     rangeOrder := rangeOrder E |}.

Definition E_down : Env := unreachable E_ok.

(** No condition at all. *)
Definition no_condition : Data := DataOther "string" (IString "").

(** A cursor whose second row fails to scan. *)
Definition broken_rows : Cursor :=
  mkCursor (inl two_cols) (fun i => i)
    [RowData [Some [byte 49]; Some [byte 97]]; RowFail (ErrDriver 3);
     RowData [Some [byte 50]; None]].

Definition E_broken : Env := env (always 5) (QueryOk (Some broken_rows)) sorted false.

(** A row of two columns that share the name id. *)
Definition twin_cols : list (string * string) := [("id", "int"); ("id", "varchar")].

Definition twin_cells : list (list (option (list Byte.byte))) :=
  [[Some [byte 49]; Some [byte 97]]].

Definition twin_rows : Cursor :=
  mkCursor (inl twin_cols) (fun i => i) (RowData <$> twin_cells).

(** The answer to a count: one row with one column. *)
Definition count_rows : Cursor :=
  mkCursor (inl [("n", "bigint")]) (fun i => i) [RowData [Some [byte 51]]].

Definition E_count : Env := env (always 5) (QueryOk (Some count_rows)) sorted false.

(** A conversion of record sets that always succeeds. *)
Definition structs_ok : Result -> Data -> option error := fun _ _ => None.

End MoreExamples.

(** * Properties *)
(** ** Arithmetic of [int64] and of chunk counts *)
Lemma wrap64_plus_l a b : wrap64 (wrap64 a + b) = wrap64 (a + b).
Proof.
  unfold wrap64. f_equal.
  replace ((a + 2 ^ 63) mod 2 ^ 64 - 2 ^ 63 + b + 2 ^ 63)
    with ((a + 2 ^ 63) mod 2 ^ 64 + b) by ring.
  rewrite Zplus_mod_idemp_l. f_equal. ring.
Qed.

Lemma wrap64_small z : - 2 ^ 63 <= z < 2 ^ 63 -> wrap64 z = z.
Proof. intros H. unfold wrap64. rewrite Z.mod_small; lia. Qed.

Lemma wrap64_idemp z : wrap64 (wrap64 z) = wrap64 z.
Proof.
  replace (wrap64 z) with (wrap64 z + 0) at 1 by ring.
  rewrite wrap64_plus_l. f_equal. ring.
Qed.

(** A full chunk followed by [n] more rows. *)
Lemma chunks_after_full c n :
  0 < c -> (c - 1 + (n + 1) + c - 1) / c = 1 + (0 + n + c - 1) / c.
Proof.
  intros Hc. replace (c - 1 + (n + 1) + c - 1) with (1 * c + (0 + n + c - 1)) by ring.
  rewrite Z.div_add_l by lia. reflexivity.
Qed.

(** The last row closes a chunk that is not full. *)
Lemma chunks_last c p : 0 <= p < c -> (p + 1 + c - 1) / c = 1.
Proof.
  intros Hp. replace (p + 1 + c - 1) with (1 * c + p) by ring.
  rewrite Z.div_add_l by lia. rewrite Z.div_small by lia. reflexivity.
Qed.

(** ** What [doExec] does *)

Section Exec.

Context (E : Env).

Lemma doExec_eq link query args w :
  doExec E link query args w =
  Ret (reply_result (exec_reply E link query args w),
       formatError (reply_error (exec_reply E link query args w))
         (sentQuery E query args) (sentArgs E query args))
      (after_exec E link query args w).
Proof.
  unfold doExec, exec_reply, after_exec, sentQuery, sentArgs.
  destruct (formatQuery E query args) as [q a]; simpl.
  unfold mbind, M_bind, mret, M_ret, link_exec, printSql.
  destruct (getDebug E); simpl;
    destruct (link_Exec E link (handleSqlBeforeExec E q) a (w_driver w)) as [rp s];
    reflexivity.
Qed.

Lemma formatError_Some e query args : formatError (Some e) query args <> None.
Proof. destruct e; discriminate. Qed.

(** [doExec] never answers with neither a result nor an error. *)
Lemma doExec_not_both_nil link query args w :
  reply_result (exec_reply E link query args w) = None ->
  formatError (reply_error (exec_reply E link query args w))
    (sentQuery E query args) (sentArgs E query args) <> None.
Proof.
  destruct (exec_reply E link query args w); simpl; [discriminate|].
  intros _. apply formatError_Some.
Qed.

End Exec.

(** ** The batch executor *)

Section Batch.

Context (E : Env).

Lemma exec_reply_succeeds link query args w :
  driver_succeeds E ->
  exists r n, exec_reply E link query args w = ExecOk r /\ dr_RowsAffected r = (n, None).
Proof. intros H. apply H. Qed.

Lemma after_exec_execs link query args w :
  w_execs (after_exec E link query args w) =
  w_execs w ++ [mkExecCall link (sentQuery E query args) (sentArgs E query args)
                  (exec_reply E link query args w)].
Proof. reflexivity. Qed.

Lemma after_exec_execs_reply link query args w rp :
  exec_reply E link query args w = rp ->
  w_execs (after_exec E link query args w) =
  w_execs w ++ [mkExecCall link (sentQuery E query args) (sentArgs E query args) rp].
Proof. intros <-. reflexivity. Qed.

(** With a driver that succeeds, the loop flushes one chunk per [c] pending
    groups and one more for what is left at the last row, and adds up what
    the calls report. *)
Lemma batchLoop_all_ok link operation table keysStr holder updateStr keys c n :
  driver_succeeds E -> 0 < c ->
  forall rows i params values br w,
    (i + length rows = n)%nat ->
    Z.of_nat (length values) < c ->
    rowsAffected br = wrap64 (rowsAffected br) ->
    exists br' w' calls,
      batchLoop E link operation table keysStr holder updateStr keys c n
        i rows params values br w = Ret (Some (ResBatch br'), None) w'
      /\ w_execs w' = w_execs w ++ calls
      /\ Z.of_nat (length calls) =
           match rows with
           | [] => 0
           | _ :: _ => (Z.of_nat (length values) + Z.of_nat (length rows) + c - 1) / c
           end
      /\ Forall (fun call => exists r, ec_reply call = ExecOk r) calls
      /\ rowsAffected br' = wrap64 (rowsAffected br + sum_rows calls).
Proof.
  intros Hok Hc rows.
  induction rows as [|row rest IH]; intros i params values br w Hi Hp Hbr.
  - exists br, w, []. simpl. rewrite app_nil_r, Z.add_0_r. auto.
  - simpl batchLoop.
    set (values' := (values ++ [holder])%list).
    set (params' := (params ++ (map_index row <$> keys))%list).
    assert (Hv : Z.of_nat (length values') = Z.of_nat (length values) + 1).
    { unfold values'. rewrite length_app. simpl. lia. }
    assert (Hlast : (Z.of_nat i =? Z.of_nat n - 1) = true <-> rest = []).
    { simpl in Hi. rewrite Z.eqb_eq. destruct rest; simpl in *; split; intros; try done; lia. }
    match goal with |- context [if ?b then _ else _] => destruct b eqn:Hflush end.
    + unfold mbind, M_bind. rewrite doExec_eq.
      destruct (exec_reply_succeeds link
                  (batchStatement operation table keysStr values' updateStr)
                  params' w Hok) as (r & k & Hr & Hk).
      rewrite Hr. simpl. rewrite Hk.
      set (w1 := after_exec E link _ _ w).
      set (br1 := mkBatchSqlResult (Some r) (wrap64 (rowsAffected br + k))).
      destruct (IH (S i) [] [] br1 w1) as (br' & w' & calls & Hrun & Hex & Hlen & Hall & Hsum).
      { simpl in Hi. lia. }
      { simpl. lia. }
      { simpl. symmetry. apply wrap64_idemp. }
      exists br', w', (mkExecCall link
                         (sentQuery E (batchStatement operation table keysStr values' updateStr) params')
                         (sentArgs E (batchStatement operation table keysStr values' updateStr) params')
                         (ExecOk r) :: calls).
      split; [exact Hrun|]. split.
      { rewrite Hex. unfold w1. rewrite after_exec_execs, Hr, <- app_assoc. reflexivity. }
      split.
      { simpl length. rewrite Nat2Z.inj_succ, Hlen.
        apply orb_true_iff in Hflush as [Hfull|Hfin].
        - apply Z.eqb_eq in Hfull. destruct rest as [|row' rest'].
          + replace (Z.of_nat (length values) + Z.of_nat 1 + c - 1)
              with (Z.of_nat (length values) + 1 + c - 1) by lia.
            rewrite chunks_last by lia. lia.
          + replace (Z.of_nat (length values) + Z.of_nat (S (length (row' :: rest'))) + c - 1)
              with (c - 1 + (Z.of_nat (length (row' :: rest')) + 1) + c - 1) by lia.
            rewrite chunks_after_full by lia. simpl length. lia.
        - apply andb_true_iff in Hfin as [Hfin _]. apply Hlast in Hfin. subst rest.
          replace (Z.of_nat (length values) + Z.of_nat 1 + c - 1)
            with (Z.of_nat (length values) + 1 + c - 1) by lia.
          rewrite chunks_last by lia. lia. }
      split.
      { constructor; [eexists; reflexivity | exact Hall]. }
      rewrite Hsum. simpl rowsAffected. rewrite wrap64_plus_l.
      unfold sum_rows at 2. simpl. unfold call_rows at 1. simpl. rewrite Hk. simpl.
      fold (sum_rows calls). f_equal. lia.
    + apply orb_false_iff in Hflush as [Hfull Hfin].
      apply Z.eqb_neq in Hfull.
      assert (Hrest : rest <> []).
      { intros ->. apply andb_false_iff in Hfin as [Hfin|Hfin].
        - assert ((Z.of_nat i =? Z.of_nat n - 1) = true) by (apply Hlast; reflexivity).
          congruence.
        - apply Z.ltb_ge in Hfin. lia. }
      destruct (IH (S i) params' values' br w) as (br' & w' & calls & Hrun & Hex & Hlen & Hall & Hsum).
      { simpl in Hi. lia. }
      { lia. }
      { exact Hbr. }
      exists br', w', calls. split; [exact Hrun|]. split; [exact Hex|]. split; [|auto].
      rewrite Hlen. destruct rest as [|row' rest']; [done|].
      rewrite Hv. simpl length. f_equal. lia.
Qed.

Lemma batchNumOf_pos batch : 0 < gDEFAULT_BATCH_NUM E -> 0 < batchNumOf E batch.
Proof.
  intros H. destruct batch as [|b ?]; simpl; [exact H|].
  destruct (0 <? b) eqn:Hb; [apply Z.ltb_lt in Hb|]; assumption.
Qed.

(** C1. With a driver that accepts every statement, a batch insert in any
    write mode over a row list of size [m] with chunk size [c] issues exactly
    [ceil(m/c)] exec calls against the link, and (for a list that is not
    empty) returns the aggregate result whose rows-affected is the sum of
    what the individual calls reported, computed in [int64]. *)
Theorem doBatchInsert_exec_count link table data opt batch listMap w :
  toListMap E data = inl listMap ->
  link_resolves E link w ->
  driver_succeeds E ->
  0 < gDEFAULT_BATCH_NUM E ->
  exists res w' calls,
    doBatchInsert E link table data opt batch w = Ret res w'
    /\ w_execs w' = w_execs w ++ calls
    /\ Z.of_nat (length calls) =
         (Z.of_nat (length listMap) + batchNumOf E batch - 1) / batchNumOf E batch
    /\ (listMap <> [] ->
          exists b, res = (Some (ResBatch b), None)
            /\ rowsAffected b = wrap64 (sum_rows calls)
            /\ (- 2 ^ 63 <= sum_rows calls < 2 ^ 63 -> rowsAffected b = sum_rows calls)).
Proof.
  intros Hlist Hlink Hok Hdef.
  pose proof (batchNumOf_pos batch Hdef) as Hc.
  unfold doBatchInsert. rewrite Hlist.
  destruct listMap as [|row0 rest].
  - exists (None, Some (ErrNew "data list cannot be empty")), w, [].
    simpl. rewrite app_nil_r. repeat split; try done.
    rewrite Z.div_small by lia. reflexivity.
  - replace (Z.of_nat (length (row0 :: rest)) <? 1) with false
      by (symmetry; apply Z.ltb_ge; simpl length; lia).
    unfold mbind, M_bind.
    assert (Hres : exists l w1,
               match link with Some l => mret (inl l) | None => db_Master E end w
               = Ret (inl l) w1 /\ w_execs w1 = w_execs w).
    { destruct link as [l|].
      - exists l, w. split; reflexivity.
      - destruct (Hlink eq_refl) as [l Hl]. unfold db_Master.
        destruct (Master E (w_driver w)) as [r s] eqn:HM. simpl in Hl. subst r.
        eexists l, _. split; reflexivity. }
    destruct Hres as (l & w1 & -> & Hw1).
    unfold range_keys. destruct (getChars E) as [charL charR].
    match goal with
    | |- context [batchLoop E l ?op ?tb ?ks ?vh ?us ?kk ?bn ?n 0%nat ?rows [] [] ?br ?ww] =>
        destruct (batchLoop_all_ok l op tb ks vh us kk bn n Hok Hc rows 0%nat [] [] br ww)
          as (br' & w' & calls & Hrun & Hex & Hlen & _ & Hsum)
    end.
    { reflexivity. }
    { simpl. lia. }
    { reflexivity. }
    exists (Some (ResBatch br'), None), w', calls.
    split; [exact Hrun|]. split; [rewrite Hex; simpl; rewrite Hw1; reflexivity|].
    split; [rewrite Hlen; simpl length; f_equal; lia|].
    intros _. exists br'. split; [reflexivity|].
    simpl in Hsum. split; [exact Hsum|].
    intros Hrange. rewrite Hsum. apply wrap64_small. exact Hrange.
Qed.

(** The trace of the loop, whatever the driver answers: one call per chunk,
    every chunk built from the same keys, and nothing after a call that
    went wrong. [pend] are the rows whose groups are pending. *)
Lemma batchLoop_trace link operation table keysStr holder updateStr keys c n :
  forall rows i params values pend br w,
    (i + length rows = n)%nat ->
    values = replicate (length pend) holder ->
    params = concat (rowParams keys <$> pend) ->
    exists res err w' calls chunks,
      batchLoop E link operation table keysStr holder updateStr keys c n
        i rows params values br w = Ret (res, err) w'
      /\ w_execs w' = w_execs w ++ calls
      /\ Forall2 (chunk_call E link operation table keysStr holder updateStr keys)
           chunks calls
      /\ concat chunks `prefix_of` pend ++ rows
      /\ batch_outcome calls res err
      /\ (err = None -> rows <> [] \/ pend = [] -> concat chunks = pend ++ rows).
Proof.
  induction rows as [|row rest IH]; intros i params values pend br w Hi Hv Hp.
  - exists (Some (ResBatch br)), None, w, [], []. simpl.
    rewrite app_nil_r. repeat split; try done.
    + apply prefix_nil.
    + left. repeat split; eauto.
    + intros _ [?| ->]; done.
  - simpl batchLoop.
    assert (Hv' : values ++ [holder] = replicate (length (pend ++ [row])) holder).
    { rewrite length_app. simpl. rewrite Nat.add_1_r, replicate_S_end, Hv. done. }
    assert (Hp' : params ++ (map_index row <$> keys)
                  = concat (rowParams keys <$> (pend ++ [row]))).
    { rewrite fmap_app, concat_app, Hp. simpl. rewrite app_nil_r. done. }
    rewrite Hv', Hp'.
    set (chunk := pend ++ [row]).
    set (q := batchStatement operation table keysStr
                (replicate (length chunk) holder) updateStr).
    set (a := concat (rowParams keys <$> chunk)).
    assert (Hchunk : chunk <> []) by (unfold chunk; destruct pend; done).
    assert (Hall : pend ++ row :: rest = chunk ++ rest).
    { unfold chunk. rewrite <- app_assoc. done. }
    assert (Hlen : (0 <? Z.of_nat (length (replicate (length chunk) holder))) = true).
    { apply Z.ltb_lt. rewrite length_replicate. unfold chunk.
      rewrite length_app. simpl. lia. }
    match goal with |- context [if ?b then _ else _] => destruct b eqn:Hflush end.
    + unfold mbind, M_bind. rewrite doExec_eq.
      assert (Hcl : forall rp, chunk_call E link operation table keysStr holder
                      updateStr keys chunk
                      (mkExecCall link (sentQuery E q a) (sentArgs E q a) rp))
        by (intros rp; repeat split; done).
      destruct (exec_reply E link q a w) as [r|r e0] eqn:Hr; simpl.
      * set (cl := mkExecCall link (sentQuery E q a) (sentArgs E q a) (ExecOk r)).
        destruct (dr_RowsAffected r) as [k [e|]] eqn:Hk.
        -- exists (Some (ResNative r)), (Some e), (after_exec E link q a w), [cl], [chunk].
           split; [done|]. split; [by apply after_exec_execs_reply|].
           split; [constructor; [apply Hcl|constructor]|].
           split; [simpl; rewrite app_nil_r, Hall; by apply prefix_app_r|].
           split; [|done].
           right. exists [], cl. split; [done|]. split; [constructor|].
           right. exists r, k, e. done.
        -- destruct (IH (S i) [] [] []
                       (mkBatchSqlResult (Some r) (wrap64 (rowsAffected br + k)))
                       (after_exec E link q a w))
             as (res & err & w' & calls & chunks & Hrun & Hex & Hf2 & Hpre & Hout & Hcov);
             [simpl in Hi; lia|done|done|].
           exists res, err, w', (cl :: calls), (chunk :: chunks).
           split; [exact Hrun|].
           split; [rewrite Hex, (after_exec_execs_reply _ _ _ _ _ Hr), <- app_assoc; done|].
           split; [constructor; [apply Hcl|assumption]|].
           split; [simpl; rewrite Hall; by apply prefix_app|].
           assert (Hclok : call_ok cl) by (exists r, k; done).
           split.
           ++ destruct Hout as [(Hoks & He & Hb)|(calls0 & cl' & Hc0 & Hoks & Hfail)].
              ** left. split; [by constructor|done].
              ** right. exists (cl :: calls0), cl'. rewrite Hc0.
                 split; [done|]. split; [by constructor|done].
           ++ intros He _. simpl. rewrite Hall. f_equal. apply Hcov; auto.
      * set (cl := mkExecCall link (sentQuery E q a) (sentArgs E q a) (ExecFail r e0)).
        destruct (formatError (Some e0) (sentQuery E q a) (sentArgs E q a))
          as [e|] eqn:He; [|by apply formatError_Some in He].
        exists (ResNative <$> r), (Some e), (after_exec E link q a w), [cl], [chunk].
        split; [done|]. split; [by apply after_exec_execs_reply|].
        split; [constructor; [apply Hcl|constructor]|].
        split; [simpl; rewrite app_nil_r, Hall; by apply prefix_app_r|].
        split; [|done].
        right. exists [], cl. split; [done|]. split; [constructor|].
        left. exists r, e0. simpl. done.
    + assert (Hrest : rest <> []).
      { intros ->. apply orb_false_iff in Hflush as [_ Hfin].
        rewrite Hlen, andb_true_r in Hfin. apply Z.eqb_neq in Hfin.
        simpl in Hi. lia. }
      destruct (IH (S i) (concat (rowParams keys <$> chunk))
                  (replicate (length chunk) holder) chunk br w)
        as (res & err & w' & calls & chunks & Hrun & Hex & Hf2 & Hpre & Hout & Hcov);
        [simpl in Hi; lia|done|done|].
      exists res, err, w', calls, chunks. rewrite Hall.
      repeat split; try done. intros He _. apply Hcov; auto.
Qed.

Lemma resolveLink_run link w :
  exists r w1, resolveLink E link w = Ret r w1
    /\ w_execs w1 = w_execs w /\ w_ranges w1 = w_ranges w.
Proof.
  destruct link as [l|]; simpl.
  - exists (inl l), w. done.
  - unfold db_Master. destruct (Master E (w_driver w)) as [r s].
    eexists r, _. done.
Qed.

Lemma resolveLink_resolves link w :
  link_resolves E link w ->
  exists l w1, resolveLink E link w = Ret (inl l) w1
    /\ w_execs w1 = w_execs w /\ w_ranges w1 = w_ranges w.
Proof.
  intros Hl. destruct link as [l|]; simpl.
  - exists l, w. done.
  - destruct (Hl eq_refl) as [l Hm]. unfold db_Master.
    destruct (Master E (w_driver w)) as [r s]. simpl in Hm. subst r.
    eexists l, _. done.
Qed.

(** [doBatchInsert] on a list that is not empty, once the link is there:
    the loop, started on the keys of the first row. *)
Lemma doBatchInsert_unfold link table data opt batch listMap w l w1 :
  toListMap E data = inl listMap -> listMap <> [] ->
  resolveLink E link w = Ret (inl l) w1 ->
  exists w2, w_execs w2 = w_execs w1 /\
  doBatchInsert E link table data opt batch w =
  batchLoop E l (getInsertOperationByOption opt) (handleTableName E table)
    (keysStrOf E (batchKeys E listMap w1)) (holderOf (batchKeys E listMap w1))
    (updateStrOf E opt (batchKeys E listMap w1)) (batchKeys E listMap w1)
    (batchNumOf E batch) (length listMap) 0 listMap [] []
    (mkBatchSqlResult None 0) w2.
Proof.
  intros Hlist Hne Hl. unfold doBatchInsert. rewrite Hlist.
  replace (Z.of_nat (length listMap) <? 1) with false
    by (symmetry; apply Z.ltb_ge; destruct listMap; [done|simpl length; lia]).
  unfold mbind, M_bind. fold (resolveLink E link). rewrite Hl.
  unfold range_keys, keysStrOf, holderOf, updateStrOf, batchKeys.
  destruct (getChars E) as [charL charR]. simpl.
  eexists. split; [|reflexivity]. reflexivity.
Qed.

(** The one failed call of a trace whose other calls all succeeded. *)
Lemma failed_call_is_last (calls0 calls1 oks : list ExecCall) cl cl' r e0 :
  calls0 ++ cl :: calls1 = oks ++ [cl'] ->
  ec_reply cl = ExecFail r e0 -> Forall call_ok oks ->
  calls1 = [] /\ calls0 = oks /\ cl = cl'.
Proof.
  intros Heq Hf Hoks. revert oks Heq Hoks.
  induction calls0 as [|x calls0 IH]; intros oks Heq Hoks.
  - destruct oks as [|y oks]; simpl in Heq.
    + injection Heq as -> <-. done.
    + injection Heq as <- _. apply Forall_cons in Hoks as [(r' & n' & Hy & _) _].
      congruence.
  - destruct oks as [|y oks]; simpl in Heq.
    + injection Heq as _ Heq. destruct calls0; discriminate.
    + injection Heq as -> Heq. apply Forall_cons in Hoks as [_ Hoks].
      destruct (IH oks Heq Hoks) as (-> & -> & ->). done.
Qed.

(** C2, as the code has it. However a batch insert is called, it returns;
    and when the exec call of a chunk fails, that call is the last one
    issued (every call before it succeeded, no further chunk is attempted),
    and what comes back is the result value of the failed call itself,
    which is no aggregate, together with that call's error as [doExec]
    formats it. *)
Theorem doBatchInsert_fail_fast link table data opt batch w :
  exists res err w' calls,
    doBatchInsert E link table data opt batch w = Ret (res, err) w'
    /\ w_execs w' = w_execs w ++ calls
    /\ forall calls0 cl calls1 r e0,
         calls = calls0 ++ cl :: calls1 ->
         ec_reply cl = ExecFail r e0 ->
         calls1 = [] /\ Forall call_ok calls0
         /\ res = ResNative <$> r
         /\ err = formatError (Some e0) (ec_query cl) (ec_args cl).
Proof.
  destruct (toListMap E data) as [listMap|e] eqn:Hlist.
  2:{ exists None, (Some e), w, []. unfold doBatchInsert. rewrite Hlist.
      rewrite app_nil_r. repeat split; try done.
      all: intros; destruct calls0; discriminate. }
  destruct listMap as [|row0 rest].
  { exists None, (Some (ErrNew "data list cannot be empty")), w, [].
    unfold doBatchInsert. rewrite Hlist. simpl. rewrite app_nil_r.
    repeat split; try done. all: intros; destruct calls0; discriminate. }
  destruct (resolveLink_run link w) as (lk & w1 & Hl & Hex1 & _).
  destruct lk as [l|e].
  2:{ exists None, (Some e), w1, []. unfold doBatchInsert. rewrite Hlist.
      replace (Z.of_nat (length (row0 :: rest)) <? 1) with false
        by (symmetry; apply Z.ltb_ge; simpl length; lia).
      unfold mbind, M_bind. fold (resolveLink E link). rewrite Hl.
      rewrite app_nil_r. repeat split; try done.
      all: intros; destruct calls0; discriminate. }
  destruct (doBatchInsert_unfold link table data opt batch (row0 :: rest) w l w1
              Hlist ltac:(done) Hl) as (w2 & Hex2 & ->).
  match goal with
  | |- context [batchLoop E l ?op ?tb ?ks ?vh ?us ?kk ?bn ?n 0%nat ?rows [] [] ?br ?ww] =>
      destruct (batchLoop_trace l op tb ks vh us kk bn n rows 0%nat [] [] [] br ww)
        as (res & err & w' & calls & chunks & Hrun & Hex & _ & _ & Hout & _);
        [done|done|done|]
  end.
  exists res, err, w', calls. split; [exact Hrun|].
  split; [rewrite Hex, Hex2, Hex1; done|].
  intros calls0 cl calls1 r e0 Hsplit Hfail.
  destruct Hout as [(Hoks & _ & _)|(oks & cl' & Hc & Hoks & Hcf)].
  - rewrite Hsplit in Hoks. apply Forall_app in Hoks as [_ Hoks].
    apply Forall_cons in Hoks as [(r' & n' & Hy & _) _]. congruence.
  - rewrite Hsplit in Hc.
    destruct (failed_call_is_last _ _ _ _ _ _ _ Hc Hfail Hoks) as (-> & -> & ->).
    split; [done|]. split; [done|].
    destruct Hcf as [(r1 & e1 & Hr1 & -> & ->)|(r1 & n1 & e1 & Hr1 & _)];
      [|congruence].
    rewrite Hr1 in Hfail. injection Hfail as -> ->. done.
Qed.

Lemma rowParams_lookup keys (row : Map) i k :
  keys !! i = Some k -> rowParams keys row !! i = Some (default INil (row !! k)).
Proof. intros Hk. unfold rowParams. rewrite list_lookup_fmap, Hk. done. Qed.

(** C9. In a batch insert the keys are those of the first row, visited
    once; the column list, the placeholder group and the duplicate-key
    clause of every chunk's statement are built from these keys alone; the
    arguments of every row are its values under these keys, in that order,
    with nil where the row lacks the key and nothing for keys only it has;
    and the only errors that arise are those of the driver: rows with other
    key sets go through like any others. *)
Theorem doBatchInsert_first_row_keys link table data opt batch listMap w :
  toListMap E data = inl listMap -> listMap <> [] ->
  link_resolves E link w -> valid_rangeOrder E ->
  let keys := batchKeys E listMap w in
  (NoDup keys /\ forall k, k ∈ keys <-> is_Some (default ∅ (head listMap) !! k))
  /\ (forall (row : Map) i k, keys !! i = Some k ->
        rowParams keys row !! i = Some (default INil (row !! k)))
  /\ exists l res err w' calls chunks,
       doBatchInsert E link table data opt batch w = Ret (res, err) w'
       /\ w_execs w' = w_execs w ++ calls
       /\ Forall2 (chunk_call E l (getInsertOperationByOption opt)
                     (handleTableName E table) (keysStrOf E keys) (holderOf keys)
                     (updateStrOf E opt keys) keys) chunks calls
       /\ concat chunks `prefix_of` listMap
       /\ batch_outcome calls res err
       /\ (err = None -> concat chunks = listMap).
Proof.
  intros Hlist Hne Hlink Hord keys.
  split.
  { destruct (Hord (w_ranges w) (dom (default ∅ (head listMap)))) as [Hnd Hset].
    split; [exact Hnd|]. intros k. unfold keys, batchKeys.
    rewrite <- (elem_of_list_to_set (C := gset string)), Hset.
    apply elem_of_dom. }
  split; [intros row i k; apply rowParams_lookup|].
  destruct (resolveLink_resolves link w Hlink) as (l & w1 & Hl & Hex1 & Hr1).
  destruct (doBatchInsert_unfold link table data opt batch listMap w l w1
              Hlist Hne Hl) as (w2 & Hex2 & ->).
  assert (Hk : batchKeys E listMap w1 = keys)
    by (unfold keys, batchKeys; rewrite Hr1; done).
  rewrite Hk.
  match goal with
  | |- context [batchLoop E l ?op ?tb ?ks ?vh ?us ?kk ?bn ?n 0%nat ?rows [] [] ?br ?ww] =>
      destruct (batchLoop_trace l op tb ks vh us kk bn n rows 0%nat [] [] [] br ww)
        as (res & err & w' & calls & chunks & Hrun & Hex & Hf2 & Hpre & Hout & Hcov);
        [done|done|done|]
  end.
  exists l, res, err, w', calls, chunks.
  split; [exact Hrun|]. split; [rewrite Hex, Hex2, Hex1; done|].
  split; [exact Hf2|]. split; [exact Hpre|]. split; [exact Hout|].
  intros He. apply Hcov; auto.
Qed.

(** An empty row list is refused before anything reaches the router or a
    link. *)
Lemma doBatchInsert_empty_list link table data opt batch w :
  toListMap E data = inl [] ->
  doBatchInsert E link table data opt batch w =
  Ret (None, Some (ErrNew "data list cannot be empty")) w.
Proof. intros Hlist. unfold doBatchInsert. rewrite Hlist. reflexivity. Qed.

End Batch.

(** ** Concrete runs of the batch executor *)

Module BatchRuns.

Import Stub Examples.

Lemma sorted_valid exec query debug : valid_rangeOrder (env exec query sorted debug).
Proof.
  intros n s. simpl. unfold sorted. split.
  - apply NoDup_elements.
  - apply list_to_set_elements_L.
Qed.

Lemma always_succeeds n query order debug :
  driver_succeeds (env (always n) query order debug).
Proof. intros l q a s. simpl. eexists _, n. split; reflexivity. Qed.

Lemma doBatchInsert_exec_count_witness :
  exists res w' calls,
    doBatchInsert E_ok None "t" (DataList [row_a; row_b; row_a])
      gINSERT_OPTION_SAVE [2] (world0 E_ok 0%nat) = Ret res w'
    /\ w_execs w' = w_execs (world0 E_ok 0%nat) ++ calls
    /\ Z.of_nat (length calls) = (Z.of_nat 3 + batchNumOf E_ok [2] - 1) / batchNumOf E_ok [2]
    /\ ([row_a; row_b; row_a] <> [] ->
          exists b, res = (Some (ResBatch b), None)
            /\ rowsAffected b = wrap64 (sum_rows calls)
            /\ (- 2 ^ 63 <= sum_rows calls < 2 ^ 63 -> rowsAffected b = sum_rows calls)).
Proof.
  apply (doBatchInsert_exec_count E_ok None "t" (DataList [row_a; row_b; row_a])
           gINSERT_OPTION_SAVE [2] [row_a; row_b; row_a] (world0 E_ok 0%nat)).
  - reflexivity.
  - intros _. exists 1%nat. reflexivity.
  - apply always_succeeds.
  - reflexivity.
Defined.

(** The second of three chunks fails: the caller gets the nil result of the
    failed call, not the aggregate of the chunk that was applied (whose 5
    affected rows are lost to the caller), and the third chunk is never
    sent. *)
Lemma doBatchInsert_failure_returns_no_aggregate :
  exists e w',
    doBatchInsert E_fail None "t" (DataList [row_a; row_b; row_a])
      gINSERT_OPTION_DEFAULT [1] (world0 E_fail 0%nat) = Ret (None, Some e) w'
    /\ length (w_execs w') = 2%nat
    /\ sum_rows (w_execs w') = 5
    /\ ~ (exists b : batchSqlResult,
            @None sqlResult = Some (ResBatch b) /\ rowsAffected b = 5).
Proof.
  eexists _, _. split; [vm_compute; reflexivity|].
  split; [reflexivity|]. split; [reflexivity|].
  intros (b & Hb & _). discriminate.
Qed.

(** C3, at the failing input. A batch whose first row has no columns is not
    refused: the statement with an empty column list and an empty value
    group is executed. *)
Lemma doBatchInsert_empty_columns_executes :
  exists b w' cl,
    doBatchInsert E_ok None "t" (DataList [∅]) gINSERT_OPTION_DEFAULT []
      (world0 E_ok 0%nat) = Ret (Some (ResBatch b), None) w'
    /\ w_execs w' = [cl]
    /\ ec_query cl = "INSERT INTO t(" +:+ dq +:+ dq +:+ ") VALUES() "
    /\ ec_args cl = []
    /\ rowsAffected b = 5.
Proof.
  eexists _, _, _. split; [vm_compute; reflexivity|].
  split; [reflexivity|]. repeat split.
Qed.

Lemma doBatchInsert_first_row_keys_witness :
  let keys := batchKeys E_ok [row_a; row_b] (world0 E_ok 0%nat) in
  keys = ["id"; "name"]
  /\ rowParams keys row_b = [IInt 2; INil]
  /\ exists l res err w' calls chunks,
       doBatchInsert E_ok None "t" (DataList [row_a; row_b]) gINSERT_OPTION_SAVE
         [1] (world0 E_ok 0%nat) = Ret (res, err) w'
       /\ w_execs w' = w_execs (world0 E_ok 0%nat) ++ calls
       /\ Forall2 (chunk_call E_ok l (getInsertOperationByOption gINSERT_OPTION_SAVE)
                     (handleTableName E_ok "t") (keysStrOf E_ok keys)
                     (holderOf keys) (updateStrOf E_ok gINSERT_OPTION_SAVE keys) keys)
            chunks calls
       /\ concat chunks `prefix_of` [row_a; row_b]
       /\ batch_outcome calls res err
       /\ (err = None -> concat chunks = [row_a; row_b]).
Proof.
  intros keys. split; [vm_compute; reflexivity|]. split; [vm_compute; reflexivity|].
  apply (doBatchInsert_first_row_keys E_ok None "t" (DataList [row_a; row_b])
           gINSERT_OPTION_SAVE [1] [row_a; row_b] (world0 E_ok 0%nat)).
  - reflexivity.
  - discriminate.
  - intros _. exists 1%nat. reflexivity.
  - apply sorted_valid.
Defined.

End BatchRuns.

(** ** Strings and joins *)
Lemma string_app_assoc (a b c : string) : (a +:+ b) +:+ c = a +:+ (b +:+ c).
Proof.
  induction a as [|x a IH]; [reflexivity|].
  change (String x ((a +:+ b) +:+ c) = String x (a +:+ (b +:+ c))).
  f_equal. exact IH.
Qed.

Lemma len_app (a b : string) : len (a +:+ b) = (len a + len b)%nat.
Proof.
  unfold len. induction a as [|x a IH]; [reflexivity|].
  change (S (String.length (a +:+ b)) = S (String.length a + String.length b)).
  f_equal. exact IH.
Qed.

Lemma len_updateEntry charL charR k : (0 < len (updateEntry charL charR k))%nat.
Proof.
  unfold updateEntry. rewrite !len_app. simpl. lia.
Qed.

Lemma string_app_nil_l (a : string) : EmptyString +:+ a = a.
Proof. reflexivity. Qed.

Lemma string_app_nil_r (a : string) : a +:+ EmptyString = a.
Proof.
  induction a as [|x a IH]; [reflexivity|].
  change (String x (a +:+ EmptyString) = String x a). f_equal. exact IH.
Qed.

Lemma join_cons x xs sep : join (x :: xs) sep = x +:+ joinTail sep xs.
Proof.
  revert x. induction xs as [|y xs IH]; intros x.
  - simpl. symmetry. apply string_app_nil_r.
  - change (join (x :: y :: xs) sep) with (x +:+ sep +:+ join (y :: xs) sep).
    rewrite IH. reflexivity.
Qed.

Lemma updateLoop_from charL charR keys acc :
  (0 < len acc)%nat ->
  fold_left (fun updateStr k =>
               (if (0 <? Z.of_nat (len updateStr)) then updateStr +:+ "," else updateStr)
                 +:+ updateEntry charL charR k) keys acc
  = acc +:+ joinTail "," (updateEntry charL charR <$> keys).
Proof.
  revert acc. induction keys as [|k keys IH]; intros acc Hacc.
  - simpl. symmetry. apply string_app_nil_r.
  - simpl fold_left.
    replace (0 <? Z.of_nat (len acc)) with true by (symmetry; apply Z.ltb_lt; lia).
    rewrite IH by (rewrite !len_app; lia).
    change (joinTail "," (updateEntry charL charR <$> k :: keys))
      with ("," +:+ updateEntry charL charR k
              +:+ joinTail "," (updateEntry charL charR <$> keys)).
    rewrite !string_app_assoc. reflexivity.
Qed.

(** The loop that builds the duplicate-key clause joins one entry per key
    with commas. *)
Lemma updateLoop_join charL charR keys :
  updateLoop charL charR keys = join (updateEntry charL charR <$> keys) ",".
Proof.
  unfold updateLoop. destruct keys as [|k keys]; [reflexivity|].
  change (updateEntry charL charR <$> k :: keys)
    with (updateEntry charL charR k :: (updateEntry charL charR <$> keys)).
  rewrite join_cons. simpl fold_left.
  change (0 <? Z.of_nat (len "")) with false. cbv iota.
  rewrite string_app_nil_l.
  apply updateLoop_from. apply len_updateEntry.
Qed.

(** ** The statement builder *)

Section Statements.

Context (E : Env).

Lemma rangeOrder_keys n (V : Type) (m : gmap string V) :
  valid_rangeOrder E ->
  NoDup (rangeOrder E n (dom m))
  /\ forall k, k ∈ rangeOrder E n (dom m) <-> is_Some (m !! k).
Proof.
  intros Hord. destruct (Hord n (dom m)) as [Hnd Hset].
  split; [exact Hnd|]. intros k.
  rewrite <- (elem_of_list_to_set (C := gset string)), Hset.
  apply elem_of_dom.
Qed.

Lemma rangeOrder_nil n (V : Type) (m : gmap string V) :
  valid_rangeOrder E -> rangeOrder E n (dom m) = [] <-> m = ∅.
Proof.
  intros Hord. destruct (rangeOrder_keys n V m Hord) as [_ Hk]. split.
  - intros Hnil. apply map_empty. intros k.
    destruct (m !! k) eqn:Hmk; [|reflexivity].
    assert (Hin : k ∈ rangeOrder E n (dom m)) by (apply Hk; eauto).
    rewrite Hnil in Hin. inversion Hin.
  - intros ->. destruct (rangeOrder E n _) as [|k l]; [reflexivity|].
    assert (His : is_Some ((∅ : gmap string V) !! k)) by (apply Hk; left).
    rewrite lookup_empty in His. destruct His; discriminate.
Qed.


Lemma len_zero_iff (x : string) : (Z.of_nat (len x) =? 0) = true <-> x = "".
Proof.
  rewrite Z.eqb_eq. destruct x; unfold len; simpl; split; intros; try done; lia.
Qed.

(** The one visit of a map with a single key. *)
Lemma rangeOrder_singleton n (V : Type) (k : string) (v : V) :
  valid_rangeOrder E -> rangeOrder E n (dom ({[k := v]} : gmap string V)) = [k].
Proof.
  intros Hord.
  destruct (rangeOrder_keys n V {[k := v]} Hord) as [Hnd Hk].
  assert (Hin : forall x, x ∈ rangeOrder E n (dom ({[k := v]} : gmap string V)) <-> x = k).
  { intros x. rewrite Hk. destruct (decide (x = k)) as [->|Hne].
    - rewrite lookup_singleton_eq. split; eauto.
    - rewrite lookup_singleton_ne by done. split; [intros [? ?]; discriminate|done]. }
  destruct (rangeOrder E n _) as [|x [|y l]].
  - assert (H : k ∈ @nil string) by (apply Hin; reflexivity). inversion H.
  - f_equal. apply Hin. left.
  - assert (x = k) by (apply Hin; left).
    assert (y = k) by (apply Hin; right; left). subst.
    apply NoDup_cons in Hnd as [Hnin _]. exfalso. apply Hnin. left.
Qed.


End Statements.

(** ** Queries *)

Section Queries.

Context (E : Env).

Lemma doQuery_eq link query args w :
  exists w',
    doQuery E link query args w =
    Ret (match (link_Query E link (sentQuery E query args) (sentArgs E query args)
                  (w_driver w)).1 with
         | QueryOk rows => (rows, None)
         | QueryFail e =>
             (None, formatError (Some e) (sentQuery E query args) (sentArgs E query args))
         end) w'
    /\ w_ranges w' = w_ranges w /\ w_heap w' = w_heap w /\ w_execs w' = w_execs w.
Proof.
  unfold doQuery, sentQuery, sentArgs.
  destruct (formatQuery E query args) as [q a]; simpl.
  unfold mbind, M_bind, mret, M_ret, link_query, printSql.
  destruct (getDebug E); simpl;
    destruct (link_Query E link (handleSqlBeforeExec E q) a (w_driver w)) as [rp s];
    destruct rp as [rows|e]; simpl; eexists; split; reflexivity || (repeat split).
Qed.

Lemma rowsToResult_zero_rows c w :
  cur_rows c = [] -> rowsToResult E c w = Ret ([], None) w.
Proof. intros Hc. unfold rowsToResult. rewrite Hc. reflexivity. Qed.

Lemma GetAll_zero_rows query args w :
  yields_zero_rows E query args w ->
  exists w', GetAll E query args w = Ret ([], None) w' /\ w_ranges w' = w_ranges w.
Proof.
  intros (l & c & Hq & Hc). unfold query_reply in Hq.
  unfold GetAll, doGetAll, mbind, M_bind, db_Slave.
  destruct (Slave E (w_driver w)) as [[l'|e] s]; [|discriminate].
  injection Hq as -> Hq.
  match goal with |- context [doQuery E l query args ?w1] =>
    destruct (doQuery_eq l query args w1) as (w' & -> & Hr & _) end.
  simpl in *. rewrite Hq. rewrite rowsToResult_zero_rows by exact Hc.
  exists w'. done.
Qed.

Lemma GetAll_query_fails query args w e :
  query_fails E query args w e ->
  exists w', GetAll E query args w =
             Ret ([], formatError (Some e) (sentQuery E query args) (sentArgs E query args)) w'.
Proof.
  intros (l & Hq). unfold query_reply in Hq.
  unfold GetAll, doGetAll, mbind, M_bind, db_Slave.
  destruct (Slave E (w_driver w)) as [[l'|e'] s]; [|discriminate].
  injection Hq as -> Hq.
  match goal with |- context [doQuery E l query args ?w1] =>
    destruct (doQuery_eq l query args w1) as (w' & -> & _) end.
  simpl in *. rewrite Hq.
  destruct (formatError (Some e) (sentQuery E query args) (sentArgs E query args))
    as [e'|] eqn:He; [|by apply formatError_Some in He].
  exists w'. done.
Qed.

Lemma GetOne_zero_rows query args w :
  yields_zero_rows E query args w ->
  exists w', GetOne E query args w = Ret (None, None) w' /\ w_ranges w' = w_ranges w.
Proof.
  intros Hz. destruct (GetAll_zero_rows query args w Hz) as (w' & Hrun & Hr).
  unfold GetOne, mbind, M_bind. rewrite Hrun. exists w'. done.
Qed.

(** C8. A query whose cursor has no rows gives the nil record set and no
    error, from [rowsToResult] and from [GetAll]; a query that the driver
    rejects gives an error instead. On no rows [GetOne] gives the nil
    record and no error, and [GetStruct] gives the sentinel
    [sql.ErrNoRows], which is neither a formatted driver error nor an error
    made with [errors.New]. *)
Theorem zero_rows_is_not_an_error query args pointer w :
  yields_zero_rows E query args w ->
  (forall c w0, cur_rows c = [] -> rowsToResult E c w0 = Ret ([], None) w0)
  /\ (exists w', GetAll E query args w = Ret ([], None) w')
  /\ (forall w0 e, query_fails E query args w0 e ->
        exists e' w', GetAll E query args w0 = Ret ([], Some e') w')
  /\ (exists w', GetOne E query args w = Ret (None, None) w')
  /\ (exists w', GetStruct E pointer query args w = Ret (Some ErrNoRows) w')
  /\ (forall cause q a msg, ErrNoRows <> ErrFormatted cause q a /\ ErrNoRows <> ErrNew msg).
Proof.
  intros Hz.
  split; [intros c w0; apply rowsToResult_zero_rows|].
  split; [destruct (GetAll_zero_rows query args w Hz) as (w' & Hrun & _); eauto|].
  split.
  { intros w0 e Hf. destruct (GetAll_query_fails query args w0 e Hf) as (w' & Hrun).
    destruct (formatError (Some e) (sentQuery E query args) (sentArgs E query args))
      as [e'|] eqn:He; [|by apply formatError_Some in He].
    eauto. }
  destruct (GetOne_zero_rows query args w Hz) as (w' & Hrun & _).
  split; [eauto|].
  split; [|done].
  unfold GetStruct, mbind, M_bind. rewrite Hrun. exists w'. done.
Qed.

(** The query that [GetCount] passes on, and what it makes of the value
    that comes back. *)
Lemma GetCount_eq query args w :
  GetCount E query args w =
  match GetValue E (countQuery query) args w with
  | Ret (_, Some e) w' => Ret (0, Some e) w'
  | Ret (value, None) w' =>
      match Var_Int E value with
      | Some n => Ret (n, None) w'
      | None => Panic "invalid memory address or nil pointer dereference"
      end
  | Panic msg => Panic msg
  end.
Proof.
  unfold GetCount, mbind, M_bind.
  destruct (GetValue E (countQuery query) args w) as [[v [e|]] w'|msg]; try reflexivity.
  destruct (Var_Int E v); reflexivity.
Qed.



End Queries.

(** ** The result materializer *)

Section Materializer.

Context (E : Env).

Local Abbreviation heap := (gmap loc (list Byte.byte)).

Lemma scanCells_spec buf n :
  (forall i i', (i < n)%nat -> (i' < n)%nat -> buf i = buf i' -> i = i') ->
  forall cells i (h : heap), (i + length cells <= n)%nat ->
    exists ds h',
      scanCells buf i cells h = (ds, h')
      /\ Forall2 (cell_in h') cells ds
      /\ (forall l, (forall k, (i <= k < i + length cells)%nat -> l <> buf k) ->
            h' !! l = h !! l)
      /\ dom h ⊆ dom h'.
Proof.
  intros Hinj. induction cells as [|cell cells IH]; intros i h Hlen.
  - exists [], h. simpl. repeat split; try done; try constructor.
  - simpl in Hlen. destruct cell as [b|]; simpl.
    + destruct (IH (S i) (<[buf i := b]> h)) as (ds & h' & Hs & Hf & Hfr & Hd); [lia|].
      rewrite Hs. exists (Some (buf i) :: ds), h'. split; [done|]. split; [|split].
      * constructor; [|exact Hf]. simpl. rewrite Hfr.
        -- apply lookup_insert_eq.
        -- intros k Hk Heq. apply Hinj in Heq; lia.
      * intros l Hl. rewrite Hfr.
        -- apply lookup_insert_ne. intros Heq. apply (Hl i); [lia|done].
        -- intros k Hk. apply Hl. lia.
      * etrans; [|exact Hd]. rewrite dom_insert. set_solver.
    + destruct (IH (S i) h) as (ds & h' & Hs & Hf & Hfr & Hd); [lia|].
      rewrite Hs. exists (None :: ds), h'. split; [done|]. split; [|split].
      * constructor; [done|exact Hf].
      * intros l Hl. apply Hfr. intros k Hk. apply Hl. lia.
      * exact Hd.
Qed.

Lemma cell_in_weaken (h h' : heap) cells ds :
  h ⊆ h' -> Forall2 (cell_in h) cells ds -> Forall2 (cell_in h') cells ds.
Proof.
  intros Hsub Hf. eapply Forall2_impl; [exact Hf|].
  intros [b|] [v|]; simpl; try done. intros Hv. eapply lookup_weaken; eauto.
Qed.

Lemma fillRow_spec columnNames columnTypes :
  forall ds cells i row w,
    Forall2 (cell_in (w_heap w)) cells ds ->
    exists blks h',
      fillRow E columnNames columnTypes i ds row w
      = Ret (insertCols E columnNames columnTypes i cells blks row) (set_heap E w h')
      /\ w_heap w ⊆ h'
      /\ Forall2 (cell_in h') cells blks
      /\ NoDup (omap id blks)
      /\ (forall x, x ∈ omap id blks -> (x ∉ dom (w_heap w)) /\ x ∈ dom h').
Proof.
  induction ds as [|d ds IH]; intros cells i row w Hf.
  - apply Forall2_nil_inv_r in Hf as ->. exists [], (w_heap w).
    destruct w; simpl. split; [reflexivity|]. split; [done|].
    split; [constructor|]. split; [constructor|]. intros x Hx. inversion Hx.
  - apply Forall2_cons_inv_r in Hf as (cell & cells' & Hc & Hf & ->).
    destruct d as [src|]; destruct cell as [b|]; simpl in Hc; try done.
    + simpl fillRow. unfold mbind, M_bind, copyBytes. rewrite Hc. simpl.
      set (v := fresh (dom (w_heap w))).
      assert (Hv : v ∉ dom (w_heap w)) by apply is_fresh.
      assert (Hvn : w_heap w !! v = None) by (by apply not_elem_of_dom).
      set (w1 := mkWorld E _ _ _ _ _ (<[v := b]> (w_heap w))).
      destruct (IH cells' (S i)
                  (<[columnNames !!! i := gvar_New (convertValue E v b (columnTypes !!! i))]> row)
                  w1) as (blks & h' & Hrun & Hsub & Hf' & Hnd & Hfresh).
      { simpl. eapply cell_in_weaken; [|exact Hf]. by apply insert_subseteq. }
      exists (Some v :: blks), h'. rewrite Hrun. simpl in Hsub.
      assert (Hvh' : h' !! v = Some b).
      { eapply lookup_weaken; [|exact Hsub]. apply lookup_insert_eq. }
      split; [reflexivity|]. split; [|split; [|split]].
      * etrans; [|exact Hsub]. by apply insert_subseteq.
      * constructor; [exact Hvh'|exact Hf'].
      * simpl. constructor; [|exact Hnd]. intros Hin.
        pose proof (Hfresh v Hin) as [Hn ?]. apply Hn. simpl.
        rewrite dom_insert, elem_of_union, elem_of_singleton. by left.
      * intros x Hx. simpl in Hx. apply elem_of_cons in Hx as [->|Hx].
        -- split; [exact Hv|]. apply elem_of_dom. eauto.
        -- pose proof (Hfresh x Hx) as [Hn Hd]. split; [|exact Hd].
           intros Hd'. apply Hn. simpl.
           rewrite dom_insert, elem_of_union. by right.
    + simpl fillRow.
      destruct (IH cells' (S i) (<[columnNames !!! i := gvar_New INil]> row) w Hf)
        as (blks & h' & Hrun & Hsub & Hf' & Hnd & Hfresh).
      exists (None :: blks), h'. rewrite Hrun.
      split; [reflexivity|]. split; [exact Hsub|]. split; [|split].
      * constructor; [done|exact Hf'].
      * exact Hnd.
      * exact Hfresh.
Qed.

Lemma insertCols_other columnNames columnTypes name :
  forall cells blks i row,
    (forall k, (k < length cells)%nat -> columnNames !!! (i + k)%nat <> name) ->
    insertCols E columnNames columnTypes i cells blks row !! name = row !! name.
Proof.
  induction cells as [|cell cells IH]; intros blks i row Hne; [reflexivity|].
  destruct blks as [|blk blks]; [reflexivity|]. simpl.
  rewrite IH.
  - apply lookup_insert_ne. specialize (Hne 0%nat). rewrite Nat.add_0_r in Hne.
    apply Hne. simpl. lia.
  - intros k Hk. replace (S i + k)%nat with (i + S k)%nat by lia.
    apply Hne. simpl. lia.
Qed.

(** With column names that differ, the row object has, under the name of
    every column, the value of that column's cell. *)
Lemma insertCols_lookup columnNames columnTypes :
  NoDup columnNames ->
  forall cells blks i row k name cell blk,
    (i + length cells <= length columnNames)%nat ->
    columnNames !! (i + k)%nat = Some name ->
    cells !! k = Some cell -> blks !! k = Some blk ->
    insertCols E columnNames columnTypes i cells blks row !! name
    = Some (cellValue E (columnTypes !!! (i + k)%nat) cell blk).
Proof.
  intros Hnd. induction cells as [|c cells IH];
    intros blks i row k name cell blk Hlen Hname Hcell Hblk; [done|].
  destruct blks as [|b blks]; [done|]. simpl in Hlen. simpl insertCols.
  destruct k as [|k].
  - simpl in Hcell, Hblk. injection Hcell as ->. injection Hblk as ->.
    rewrite Nat.add_0_r in *.
    rewrite insertCols_other.
    + rewrite (list_lookup_total_correct _ _ _ Hname). apply lookup_insert_eq.
    + intros k Hk Heq.
      destruct (lookup_lt_is_Some_2 columnNames (S i + k)%nat ltac:(lia)) as [x Hx].
      rewrite (list_lookup_total_correct _ _ _ Hx) in Heq. subst x.
      pose proof (NoDup_lookup _ _ _ _ Hnd Hname Hx). lia.
  - simpl in Hcell, Hblk. replace (i + S k)%nat with (S i + k)%nat in * by lia.
    apply IH; try done. lia.
Qed.

Lemma allBlocks_snoc data cells blks :
  allBlocks (data ++ [(cells, blks)]) = allBlocks data ++ omap id blks.
Proof.
  unfold allBlocks. rewrite fmap_app, concat_app, omap_app. simpl.
  rewrite app_nil_r. reflexivity.
Qed.

Lemma rows_Scan_data buf cells n w :
  length cells = n ->
  rows_Scan E buf (RowData cells) n w =
  Ret (inl (scanCells buf 0 cells (w_heap w)).1)
      (set_heap E w (scanCells buf 0 cells (w_heap w)).2).
Proof.
  intros Hlen. unfold rows_Scan. rewrite decide_True by exact Hlen.
  destruct (scanCells buf 0 cells (w_heap w)) as [ds h]. reflexivity.
Qed.

(** One turn of the loop: the row is scanned into the buffers and copied
    out of them, and what was decoded before is still intact. *)
Lemma decode_row buf columnNames columnTypes cells records data w :
  (forall i i', (i < length columnNames)%nat -> (i' < length columnNames)%nat ->
                buf i = buf i' -> i = i') ->
  decoded E buf columnNames columnTypes (w_heap w) records data ->
  (forall i, (i < length columnNames)%nat -> buf i ∈ dom (w_heap w)) ->
  length cells = length columnNames ->
  exists ds h1 blks h2,
    rows_Scan E buf (RowData cells) (length columnNames) w = Ret (inl ds) (set_heap E w h1)
    /\ fillRow E columnNames columnTypes 0 ds ∅ (set_heap E w h1)
       = Ret (insertCols E columnNames columnTypes 0 cells blks ∅) (set_heap E w h2)
    /\ decoded E buf columnNames columnTypes h2
         (records ++ [insertCols E columnNames columnTypes 0 cells blks ∅])
         (data ++ [(cells, blks)])
    /\ (forall i, (i < length columnNames)%nat -> buf i ∈ dom h2).
Proof.
  intros Hinj (Hrecs & Hnd & Hblocks) Hbufs Hlen.
  destruct (scanCells_spec buf (length columnNames) Hinj cells 0%nat (w_heap w))
    as (ds & h1 & Hscan & Hin1 & Hframe & Hdom1); [lia|].
  destruct (fillRow_spec columnNames columnTypes ds cells 0%nat ∅ (set_heap E w h1) Hin1)
    as (blks & h2 & Hfill & Hsub & Hin2 & Hnd2 & Hfresh).
  simpl in Hsub, Hfresh.
  exists ds, h1, blks, h2.
  split; [rewrite (rows_Scan_data buf cells _ w Hlen), Hscan; reflexivity|].
  split; [exact Hfill|].
  assert (Hdom2 : dom h1 ⊆ dom h2) by (by apply subseteq_dom).
  assert (Hkeep : forall v b, v ∈ allBlocks data -> w_heap w !! v = Some b ->
                              h2 !! v = Some b).
  { intros v b Hv Hb. pose proof (Hblocks v Hv) as [_ Hnb].
    eapply lookup_weaken; [|exact Hsub]. rewrite Hframe; [exact Hb|].
    intros k Hk Heq. apply Hnb. exists k. split; [lia|exact Heq]. }
  split; [|intros i Hi; apply Hdom2, Hdom1, Hbufs, Hi].
  split; [|split].
  - apply Forall2_app; [|constructor; [split; [reflexivity|exact Hin2]|constructor]].
    assert (Hsubl : forall d, d ∈ data -> forall v, v ∈ omap id d.2 -> v ∈ allBlocks data).
    { intros d Hd v Hv. unfold allBlocks.
      apply list_elem_of_omap in Hv as (x & Hx & Hid).
      apply list_elem_of_omap. exists x. split; [|exact Hid].
      apply list_elem_of_In, in_concat. exists d.2.
      split; apply list_elem_of_In; [|exact Hx].
      apply list_elem_of_fmap. exists d. done. }
    apply Forall2_same_length_lookup. apply Forall2_same_length_lookup in Hrecs.
    destruct Hrecs as [Hl Hlk]. split; [exact Hl|].
    intros j rec d Hrec Hd. destruct (Hlk j rec d Hrec Hd) as [Heq Hcells].
    split; [exact Heq|].
    apply Forall2_same_length_lookup. apply Forall2_same_length_lookup in Hcells.
    destruct Hcells as [Hl' Hlk']. split; [exact Hl'|].
    intros k cell blk Hcell Hblk. specialize (Hlk' k cell blk Hcell Hblk).
    destruct cell as [bb|], blk as [v|]; simpl in *; try done.
    apply Hkeep; [|exact Hlk'].
    apply (Hsubl d); [eapply list_elem_of_lookup_2; exact Hd|].
    apply list_elem_of_omap. exists (Some v). split; [|done].
    eapply list_elem_of_lookup_2; exact Hblk.
  - rewrite allBlocks_snoc. apply NoDup_app. split; [exact Hnd|].
    split; [|exact Hnd2]. intros v Hv Hv'.
    pose proof (Hblocks v Hv) as [Hd _]. pose proof (Hfresh v Hv') as [Hn _].
    apply Hn, Hdom1, Hd.
  - intros v Hv. rewrite allBlocks_snoc in Hv. apply elem_of_app in Hv as [Hv|Hv].
    + pose proof (Hblocks v Hv) as [Hd Hnb]. split; [|exact Hnb].
      apply Hdom2, Hdom1, Hd.
    + pose proof (Hfresh v Hv) as [Hn Hd]. split; [exact Hd|].
      intros (k & Hk & ->). apply Hn, Hdom1, Hbufs, Hk.
Qed.

Lemma scanLoop_spec buf columnNames columnTypes :
  (forall i i', (i < length columnNames)%nat -> (i' < length columnNames)%nat ->
                buf i = buf i' -> i = i') ->
  forall rest cur records data w,
    decoded E buf columnNames columnTypes (w_heap w) records data ->
    (forall i, (i < length columnNames)%nat -> buf i ∈ dom (w_heap w)) ->
    all_rows_scan (length columnNames) (cur :: rest) ->
    exists records' data' h',
      scanLoop E buf columnNames columnTypes cur rest records w
      = Ret (records', None) (set_heap E w h')
      /\ decoded E buf columnNames columnTypes h' records' data'
      /\ RowData <$> (fst <$> data') = (RowData <$> (fst <$> data)) ++ cur :: rest.
Proof.
  intros Hinj. induction rest as [|next rest IH];
    intros cur records data w Hdec Hbufs Hrows.
  - apply Forall_cons in Hrows as [(cells & -> & Hlen) _].
    destruct (decode_row buf columnNames columnTypes cells records data w
                Hinj Hdec Hbufs Hlen)
      as (ds & h1 & blks & h2 & Hscan & Hfill & Hdec2 & _).
    simpl scanLoop. unfold mbind, M_bind. rewrite Hscan, Hfill.
    exists (records ++ [insertCols E columnNames columnTypes 0 cells blks ∅]),
           (data ++ [(cells, blks)]), h2.
    split; [reflexivity|]. split; [exact Hdec2|].
    rewrite !fmap_app. reflexivity.
  - apply Forall_cons in Hrows as [(cells & -> & Hlen) Hrows].
    destruct (decode_row buf columnNames columnTypes cells records data w
                Hinj Hdec Hbufs Hlen)
      as (ds & h1 & blks & h2 & Hscan & Hfill & Hdec2 & Hbufs2).
    simpl scanLoop. unfold mbind, M_bind. rewrite Hscan, Hfill.
    destruct (IH next (records ++ [insertCols E columnNames columnTypes 0 cells blks ∅])
                (data ++ [(cells, blks)]) (set_heap E w h2) Hdec2 Hbufs2 Hrows)
      as (records' & data' & h' & Hrun & Hdec' & Hdata).
    exists records', data', h'. split; [exact Hrun|]. split; [exact Hdec'|].
    rewrite Hdata, !fmap_app, <- app_assoc. reflexivity.
Qed.

Lemma set_heap_id (w : World E) : set_heap E w (w_heap w) = w.
Proof. destruct w; reflexivity. Qed.

(** C7. Let a cursor deliver rows of raw cells through per-column buffers
    that the driver reuses for every row (buffers that are in use and
    differ from column to column), with column names that differ. Then
    [rowsToResult] returns one record per row, in row order, and in the
    store it leaves behind every stored value of a cell that is not NULL is
    the conversion of a block of its own: the block holds exactly the bytes
    of that cell of that row, whatever later rows wrote into the buffers,
    it is no driver buffer, and no two cells share a block. A NULL cell is
    stored as the box around nil, which is not the box around the empty
    string. *)
Theorem rowsToResult_copies c w cols cellss :
  cur_columns c = inl cols ->
  cur_rows c = RowData <$> cellss ->
  Forall (fun cells => length cells = length cols) cellss ->
  NoDup (cols.*1) ->
  (forall i, (i < length cols)%nat -> cur_buf c i ∈ dom (w_heap w)) ->
  (forall i i', (i < length cols)%nat -> (i' < length cols)%nat ->
                cur_buf c i = cur_buf c i' -> i = i') ->
  exists records blocks h',
    rowsToResult E c w = Ret (records, None) (set_heap E w h')
    /\ length records = length cellss
    /\ length blocks = length cellss
    /\ NoDup (omap id (concat blocks))
    /\ gvar_New INil <> gvar_New (IString "")
    /\ forall j i cells name ty cell,
         cellss !! j = Some cells -> cols !! i = Some (name, ty) ->
         cells !! i = Some cell ->
         exists rec blks,
           records !! j = Some rec /\ blocks !! j = Some blks
           /\ match cell with
              | None => blks !! i = Some None /\ rec !! name = Some (gvar_New INil)
              | Some b =>
                  exists v, blks !! i = Some (Some v)
                    /\ rec !! name = Some (gvar_New (convertValue E v b ty))
                    /\ h' !! v = Some b
                    /\ ~ is_buf (cur_buf c) (length cols) v
              end.
Proof.
  intros Hcols Hrows Hlens Hnames Hbufs Hinj.
  unfold rowsToResult. rewrite Hrows.
  destruct cellss as [|cells0 cellss].
  { exists [], [], (w_heap w). rewrite set_heap_id. simpl.
    repeat split; try done; try constructor. }
  rewrite Hcols. change (RowData <$> cells0 :: cellss)
    with (RowData cells0 :: (RowData <$> cellss)).
  cbv iota beta.
  set (columnNames := cols.*1). set (columnTypes := cols.*2).
  assert (Hn : length columnNames = length cols) by apply length_fmap.
  destruct (scanLoop_spec (cur_buf c) columnNames columnTypes
              ltac:(rewrite Hn; exact Hinj) (RowData <$> cellss) (RowData cells0)
              [] [] w) as (records & data & h' & Hrun & Hdec & Hdata).
  { split; [constructor|]. split; [constructor|]. intros v Hv. inversion Hv. }
  { rewrite Hn. exact Hbufs. }
  { unfold all_rows_scan. rewrite Hn.
    change (RowData cells0 :: (RowData <$> cellss)) with (RowData <$> cells0 :: cellss).
    apply Forall_fmap. eapply Forall_impl; [exact Hlens|].
    intros cells Hl. exists cells. done. }
  simpl in Hdata.
  change (RowData cells0 :: (RowData <$> cellss)) with (RowData <$> cells0 :: cellss) in Hdata.
  assert (Hfst : data.*1 = cells0 :: cellss).
  { revert Hdata. generalize (cells0 :: cellss). generalize (data.*1).
    induction l as [|x l IH]; intros [|y l'] Heq; simpl in Heq; try done.
    injection Heq as -> Heq. f_equal. apply IH, Heq. }
  destruct Hdec as (Hrecs & Hnd & Hblocks).
  exists records, (data.*2), h'.
  split; [exact Hrun|].
  split; [rewrite (Forall2_length _ _ _ Hrecs), <- Hfst, !length_fmap; done|].
  split; [rewrite <- Hfst, !length_fmap; done|].
  split; [exact Hnd|]. split; [discriminate|].
  intros j i cells name ty cell Hj Hi Hcell.
  rewrite <- Hfst, list_lookup_fmap in Hj.
  destruct (data !! j) as [[cells' blks]|] eqn:Hd; [|done].
  simpl in Hj. injection Hj as ->.
  destruct (Forall2_lookup_r _ _ _ _ _ Hrecs Hd) as (rec & Hrec & Heq & Hin).
  simpl in Heq, Hin.
  exists rec, blks. split; [exact Hrec|].
  split; [rewrite list_lookup_fmap, Hd; done|].
  pose proof (Forall2_lookup_l _ _ _ _ _ Hin Hcell) as (blk & Hblk & Hc).
  assert (Hlen : length cells = length cols).
  { eapply (Forall_lookup_1 _ _ j cells) in Hlens; [exact Hlens|].
    rewrite <- Hfst, list_lookup_fmap, Hd. done. }
  assert (Hval : rec !! name = Some (cellValue E ty cell blk)).
  { rewrite Heq.
    assert (Hty : columnTypes !!! (0 + i)%nat = ty).
    { apply list_lookup_total_correct. unfold columnTypes. simpl.
      rewrite list_lookup_fmap, Hi. done. }
    rewrite <- Hty.
    apply insertCols_lookup; try done.
    - simpl. lia.
    - unfold columnNames. rewrite list_lookup_fmap. simpl. rewrite Hi. done. }
  destruct cell as [b|], blk as [v|]; simpl in Hc; try done.
  exists v. split; [exact Hblk|]. split; [exact Hval|]. split; [exact Hc|].
  rewrite <- Hn. apply Hblocks. unfold allBlocks.
  apply list_elem_of_omap. exists (Some v). split; [|done].
  apply list_elem_of_In, in_concat. exists blks.
  split; apply list_elem_of_In; [|eapply list_elem_of_lookup_2; exact Hblk].
  apply list_elem_of_fmap. exists (cells, blks). split; [done|].
  eapply list_elem_of_lookup_2; exact Hd.
Qed.

End Materializer.

(** ** Concrete runs of the statement builder and of the queries *)

Module Runs.

Import Stub Examples BatchRuns.





Lemma rowsToResult_copies_witness :
  exists records blocks h',
    rowsToResult E_two two_rows (world_bufs E_two 0%nat)
    = Ret (records, None) (set_heap E_two (world_bufs E_two 0%nat) h')
    /\ length records = length two_cells
    /\ length blocks = length two_cells
    /\ NoDup (omap id (concat blocks))
    /\ gvar_New INil <> gvar_New (IString "")
    /\ forall j i cells name ty cell,
         two_cells !! j = Some cells -> two_cols !! i = Some (name, ty) ->
         cells !! i = Some cell ->
         exists rec blks,
           records !! j = Some rec /\ blocks !! j = Some blks
           /\ match cell with
              | None => blks !! i = Some None /\ rec !! name = Some (gvar_New INil)
              | Some b =>
                  exists v, blks !! i = Some (Some v)
                    /\ rec !! name = Some (gvar_New (convertValue E_two v b ty))
                    /\ h' !! v = Some b
                    /\ ~ is_buf (cur_buf two_rows) (length two_cols) v
              end.
Proof.
  apply (rowsToResult_copies E_two two_rows (world_bufs E_two 0%nat) two_cols two_cells).
  - reflexivity.
  - reflexivity.
  - repeat constructor.
  - apply (bool_decide_unpack _). vm_compute. reflexivity.
  - intros i Hi. apply elem_of_dom.
    destruct i as [|[|i]]; [eexists; reflexivity|eexists; reflexivity|].
    simpl in Hi. lia.
  - intros i i' _ _ Heq. exact Heq.
Defined.

(** The two rows, decoded: the first record keeps the bytes of the first
    row in blocks of its own, although the buffer of the first column holds
    the bytes of the second row by then; the NULL name of the second row is
    the box around nil. *)
Lemma two_rows_decoded :
  exists r1 r2 w',
    rowsToResult E_two two_rows (world_bufs E_two 0%nat) = Ret ([r1; r2], None) w'
    /\ r1 !! "id" = Some (gvar_New (IBytes 2%nat))
    /\ w_heap w' !! 2%nat = Some [byte 49]
    /\ r2 !! "id" = Some (gvar_New (IBytes 4%nat))
    /\ w_heap w' !! 4%nat = Some [byte 50]
    /\ w_heap w' !! cur_buf two_rows 0 = Some [byte 50]
    /\ r2 !! "name" = Some (gvar_New INil).
Proof.
  eexists _, _, _. split; [vm_compute; reflexivity|].
  repeat split; vm_compute; reflexivity.
Qed.

Lemma no_rows_yield_zero_rows query args :
  yields_zero_rows E_none query args (world0 E_none 0%nat).
Proof. exists 2%nat, no_rows. split; reflexivity. Qed.

Lemma zero_rows_is_not_an_error_witness :
  yields_zero_rows E_none "SELECT * FROM users" [] (world0 E_none 0%nat)
  /\ (exists w', GetAll E_none "SELECT * FROM users" [] (world0 E_none 0%nat)
                 = Ret ([], None) w')
  /\ (exists w', GetOne E_none "SELECT * FROM users" [] (world0 E_none 0%nat)
                 = Ret (None, None) w')
  /\ (exists w', GetStruct E_none (DataPtr (DataStruct [])) "SELECT * FROM users" []
                   (world0 E_none 0%nat)
                 = Ret (Some ErrNoRows) w').
Proof.
  split; [apply no_rows_yield_zero_rows|].
  destruct (zero_rows_is_not_an_error E_none "SELECT * FROM users" []
              (DataPtr (DataStruct [])) (world0 E_none 0%nat)
              (no_rows_yield_zero_rows _ _)) as (_ & Hall & _ & Hone & Hstruct & _).
  split; [exact Hall|]. split; [exact Hone|exact Hstruct].
Defined.


(** With the stub conversion, which panics on the nil value, a count over
    no rows panics. *)
Lemma GetCount_no_rows_panics :
  GetCount E_none "SELECT * FROM users" [] (world0 E_none 0%nat)
  = Panic "invalid memory address or nil pointer dereference".
Proof. vm_compute. reflexivity. Qed.

End Runs.

(** ** The shared end of the mutations *)

Section Mutations.

Context (E : Env).

Lemma doInsert_run link table data opt batch w :
  is_record_like data -> varToMapDeep E data <> ∅ ->
  doInsert E link table data opt batch w
  = execOn E link (insertQuery E table data opt w) (insertArgs E data w)
      (after_ranges E (if opt =? gINSERT_OPTION_SAVE then 2 else 1) w).
Proof.
  intros Hkind Hne.
  assert (Hsz : (Z.of_nat (size (varToMapDeep E data)) =? 0) = false).
  { apply Z.eqb_neq. pose proof (proj2 (map_size_non_empty_iff _) Hne). lia. }
  unfold doInsert, insertQuery, insertArgs, insertKeys, execOn.
  assert (Hk : forall (X : Type) (a b : X),
             match kindThroughPtr data with
             | KMap | KStruct => a
             | _ => b
             end = a) by (intros; destruct Hkind as [-> | ->]; reflexivity).
  destruct (getChars E) as [cL cR] eqn:Hc. simpl fst. simpl snd.
  destruct Hkind as [Hkind | Hkind]; rewrite Hkind, Hsz;
    unfold mbind, M_bind, range_keys, after_ranges;
    destruct (opt =? gINSERT_OPTION_SAVE); simpl; rewrite ?updateLoop_join;
    reflexivity.
Qed.

(** [if len(params) > 0 { args = append(params, args...) }] appends in
    either case. *)
Lemma params_append (params args : list iface) :
  (if (0 <? Z.of_nat (length params)) then params ++ args else args) = params ++ args.
Proof.
  destruct params as [|p params]; [reflexivity|].
  replace (0 <? Z.of_nat (length (p :: params))) with true; [reflexivity|].
  symmetry. apply Z.ltb_lt. simpl length. lia.
Qed.

Lemma doUpdate_run link table data condition args w :
  (updateParts E data w).1 <> "" ->
  doUpdate E link table data condition args w
  = execOn E link
      (updateStatement (handleTableName E table) (updateParts E data w).1 condition)
      ((updateParts E data w).2 ++ args)
      (after_ranges E (updateRanges data) w).
Proof.
  intros Hne. unfold doUpdate, updateParts, updateRanges, execOn in *.
  unfold mbind at 1. unfold M_bind at 1.
  destruct (kindThroughPtr data) eqn:Hkind; simpl in *;
    unfold range_keys, mbind, M_bind, mret, M_ret, after_ranges; simpl.
  all: match goal with
       | |- context [Z.of_nat (len ?u) =? 0] =>
           destruct (Z.of_nat (len u) =? 0) eqn:Hz;
           [apply len_zero_iff in Hz; contradiction|]
       end.
  all: rewrite ?params_append.
  all: destruct w; reflexivity.
Qed.

Lemma doUpdate_empty link table data condition args w :
  (updateParts E data w).1 = "" ->
  doUpdate E link table data condition args w
  = Ret (None, Some (ErrNew "data cannot be empty"))
      (after_ranges E (updateRanges data) w).
Proof.
  intros Hne. unfold doUpdate, updateParts, updateRanges in *.
  unfold mbind at 1. unfold M_bind at 1.
  destruct (kindThroughPtr data) eqn:Hkind; simpl in *;
    unfold range_keys, mbind, M_bind, mret, M_ret, after_ranges; simpl.
  all: rewrite Hne; simpl.
  all: destruct w; reflexivity.
Qed.

Lemma doDelete_run link table condition args w :
  doDelete E link table condition args w
  = execOn E link (deleteStatement (handleTableName E table) condition) args w.
Proof. reflexivity. Qed.

(** What [execOn] does, by the answer of the router. *)
Lemma execOn_link l query args w :
  execOn E (Some l) query args w
  = Ret (ResNative <$> reply_result (exec_reply E l query args w),
         formatError (reply_error (exec_reply E l query args w))
           (sentQuery E query args) (sentArgs E query args))
      (after_exec E l query args w).
Proof.
  unfold execOn, mbind, M_bind. simpl. rewrite doExec_eq. reflexivity.
Qed.

Lemma execOn_master_fails query args w e :
  master_reply E w = inr e ->
  execOn E None query args w = Ret (None, Some e) (after_master E w).
Proof.
  unfold master_reply, execOn, mbind, M_bind, db_Master, after_master.
  destruct (Master E (w_driver w)) as [r s]. simpl. intros ->. reflexivity.
Qed.

Lemma execOn_master l query args w :
  master_reply E w = inl l ->
  execOn E None query args w
  = Ret (ResNative <$> reply_result (exec_reply E l query args (after_master E w)),
         formatError (reply_error (exec_reply E l query args (after_master E w)))
           (sentQuery E query args) (sentArgs E query args))
      (after_exec E l query args (after_master E w)).
Proof.
  unfold master_reply, execOn, mbind, M_bind, db_Master, after_master.
  destruct (Master E (w_driver w)) as [r s]. simpl. intros ->.
  rewrite doExec_eq. reflexivity.
Qed.

Lemma not_record_like_kind data :
  ~ is_record_like data ->
  forall (X : Type) (a b : X),
    match kindThroughPtr data with
    | KMap | KStruct => a
    | _ => b
    end = b.
Proof.
  intros Hk X a b. unfold is_record_like in Hk.
  destruct (kindThroughPtr data); try reflexivity; exfalso; apply Hk; auto.
Qed.

(** X1. When no link is passed and the router cannot give the write link,
    every mutation whose input passed validation returns the nil result
    with the router's error as it is, and no statement reaches any link:
    [doInsert], [doUpdate], [doDelete], [doBatchInsert] and [Exec]. *)
Theorem master_failure_stops_mutations w e :
  master_reply E w = inr e ->
  (forall table data opt batch,
     is_record_like data -> varToMapDeep E data <> ∅ ->
     exists w', doInsert E None table data opt batch w = Ret (None, Some e) w'
                /\ w_execs w' = w_execs w)
  /\ (forall table data condition args,
        (updateParts E data w).1 <> "" ->
        exists w', doUpdate E None table data condition args w = Ret (None, Some e) w'
                   /\ w_execs w' = w_execs w)
  /\ (forall table condition args,
        exists w', doDelete E None table condition args w = Ret (None, Some e) w'
                   /\ w_execs w' = w_execs w)
  /\ (forall table data opt batch listMap,
        toListMap E data = inl listMap -> listMap <> [] ->
        exists w', doBatchInsert E None table data opt batch w = Ret (None, Some e) w'
                   /\ w_execs w' = w_execs w)
  /\ (forall query args,
        exists w', Exec E query args w = Ret (None, Some e) w'
                   /\ w_execs w' = w_execs w).
Proof.
  intros Hm. repeat split.
  - intros table data opt batch Hk Hne. rewrite doInsert_run by assumption.
    eexists. split; [apply execOn_master_fails; exact Hm|reflexivity].
  - intros table data condition args Hne. rewrite doUpdate_run by assumption.
    eexists. split; [apply execOn_master_fails; exact Hm|reflexivity].
  - intros table condition args. rewrite doDelete_run.
    eexists. split; [apply execOn_master_fails; exact Hm|reflexivity].
  - intros table data opt batch listMap Hlist Hne.
    unfold doBatchInsert. rewrite Hlist.
    replace (Z.of_nat (length listMap) <? 1) with false
      by (symmetry; apply Z.ltb_ge; destruct listMap; [done|simpl length; lia]).
    unfold master_reply in Hm. unfold mbind, M_bind, db_Master.
    destruct (Master E (w_driver w)) as [r s]. simpl in Hm. subst r.
    eexists. split; reflexivity.
  - intros query args. unfold master_reply in Hm.
    unfold Exec, mbind, M_bind, db_Master.
    destruct (Master E (w_driver w)) as [r s]. simpl in Hm. subst r.
    eexists. split; reflexivity.
Qed.

Lemma execOn_resolved link w l s query args :
  resolves_to E link w l s ->
  runs_one_statement E l s query args w (execOn E link query args w).
Proof.
  intros [[-> ->]|[-> Hm]]; unfold runs_one_statement.
  - rewrite execOn_link. eexists. split; [reflexivity|]. split; reflexivity.
  - unfold execOn, mbind, M_bind, db_Master. rewrite Hm. simpl.
    rewrite doExec_eq. unfold exec_reply, after_exec. simpl.
    eexists. split; [reflexivity|]. split; reflexivity.
Qed.

(** X2. A single-row insert, an update and a delete whose input passed
    validation execute exactly one statement and issue no query. The
    statement goes to the link that was passed, without the router being
    asked, or else to the link that the router gives as master; and the
    caller gets the driver's own result and the driver's error as [doExec]
    formats it. *)
Theorem mutation_runs_one_statement link w l s :
  resolves_to E link w l s ->
  (forall table data opt batch,
     is_record_like data -> varToMapDeep E data <> ∅ ->
     runs_one_statement E l s (insertQuery E table data opt w) (insertArgs E data w) w
       (doInsert E link table data opt batch w))
  /\ (forall table data condition args,
        (updateParts E data w).1 <> "" ->
        runs_one_statement E l s
          (updateStatement (handleTableName E table) (updateParts E data w).1 condition)
          ((updateParts E data w).2 ++ args) w
          (doUpdate E link table data condition args w))
  /\ (forall table condition args,
        runs_one_statement E l s
          (deleteStatement (handleTableName E table) condition) args w
          (doDelete E link table condition args w)).
Proof.
  intros Hl. repeat split.
  - intros table data opt batch Hk Hne. rewrite doInsert_run by assumption.
    apply (execOn_resolved link (after_ranges E _ w) l s). exact Hl.
  - intros table data condition args Hne. rewrite doUpdate_run by assumption.
    apply (execOn_resolved link (after_ranges E _ w) l s). exact Hl.
  - intros table condition args. rewrite doDelete_run.
    apply execOn_resolved. exact Hl.
Qed.

Lemma toListMap_unsupported data :
  ~ is_record_like data ->
  kindThroughPtr data <> KSlice -> kindThroughPtr data <> KArray ->
  toListMap E data
  = inr (ErrNew ("unsupported list type:" +:+ Kind_String (kindThroughPtr data))).
Proof.
  unfold is_record_like, toListMap, kindThroughPtr. intros Hk Hs Ha.
  destruct data; simpl in *; try (exfalso; auto; fail).
  - destruct (kindOf data) eqn:Hd; simpl in *; try reflexivity; exfalso; auto.
  - reflexivity.
Qed.

(** X3. [doInsert] and [doBatchInsert] refuse their input before they ask
    for a link or visit a map. For [doInsert], a record-like value without
    fields gives "data cannot be empty", and a value that is neither a
    slice, an array, a map nor a struct (looking through one pointer) gives
    "unsupported data type:" with the name of its kind; [doBatchInsert]
    gives "unsupported list type:" with the name of the kind for such a
    value. In each case the world is left exactly as it was. *)
Theorem insert_validation_touches_nothing link table data opt batch w :
  (is_record_like data -> varToMapDeep E data = ∅ ->
     doInsert E link table data opt batch w
     = Ret (None, Some (ErrNew "data cannot be empty")) w)
  /\ (~ is_record_like data ->
      kindThroughPtr data <> KSlice -> kindThroughPtr data <> KArray ->
      doInsert E link table data opt batch w
      = Ret (None, Some (ErrNew ("unsupported data type:"
                                   +:+ Kind_String (kindThroughPtr data)))) w
      /\ doBatchInsert E link table data opt batch w
        = Ret (None, Some (ErrNew ("unsupported list type:"
                                     +:+ Kind_String (kindThroughPtr data)))) w).
Proof.
  split.
  - intros Hk Hm. unfold doInsert. rewrite Hm.
    destruct Hk as [-> | ->]; reflexivity.
  - intros Hk Hs Ha. split.
    + unfold doInsert. unfold is_record_like in Hk.
      destruct (kindThroughPtr data); try reflexivity; try done; exfalso; apply Hk; auto.
    + unfold doBatchInsert. rewrite toListMap_unsupported by assumption. reflexivity.
Qed.

(** A join of entries that are not empty is empty only for no entries. *)
Lemma join_empty_iff (f : string -> string) (keys : list string) sep :
  (forall k, f k <> "") -> join (f <$> keys) sep = "" <-> keys = [].
Proof.
  intros Hf. split; [|intros ->; reflexivity].
  destruct keys as [|k keys]; [done|]. intros Hj. exfalso.
  change (f <$> k :: keys) with (f k :: (f <$> keys)) in Hj.
  rewrite join_cons in Hj. specialize (Hf k).
  destruct (f k); [done|discriminate].
Qed.

Lemma assignment_not_empty k : quoteWord E k +:+ "=?" <> "".
Proof.
  intros H. apply (f_equal len) in H. rewrite len_app in H. simpl in H. lia.
Qed.

(** X4. What [doUpdate] makes of its data. Record-like data without fields
    and other data whose string form is empty are refused with "data cannot
    be empty", and neither the router nor a link has been touched. Record-like
    data with fields gives one assignment per field and the values of the
    fields as leading arguments; data of any other kind is taken as the text
    of the assignments, with the arguments of the condition alone. In both
    cases exactly that one statement is executed. *)
Theorem doUpdate_cases link table data condition args w l s :
  valid_rangeOrder E ->
  resolves_to E link w l s ->
  let m := varToMapDeep E data in
  let keys := rangeOrder E (w_ranges w) (dom m) in
  let refused :=
    exists w', doUpdate E link table data condition args w
               = Ret (None, Some (ErrNew "data cannot be empty")) w'
               /\ w_execs w' = w_execs w /\ w_driver w' = w_driver w in
  (is_record_like data -> m = ∅ -> refused)
  /\ (is_record_like data -> m <> ∅ ->
      keys <> []
      /\ runs_one_statement E l s
           (updateStatement (handleTableName E table)
              (join ((fun k => quoteWord E k +:+ "=?") <$> keys) ",") condition)
           ((map_index m <$> keys) ++ args) w
           (doUpdate E link table data condition args w))
  /\ (~ is_record_like data -> gconv_String E data = "" -> refused)
  /\ (~ is_record_like data -> gconv_String E data <> "" ->
      runs_one_statement E l s
        (updateStatement (handleTableName E table) (gconv_String E data) condition)
        args w
        (doUpdate E link table data condition args w)).
Proof.
  intros Hord Hl m keys refused.
  assert (Hrec : is_record_like data ->
            updateParts E data w
            = (join ((fun k => quoteWord E k +:+ "=?") <$> keys) ",", map_index m <$> keys)).
  { intros [Hk|Hk]; unfold updateParts; rewrite Hk; reflexivity. }
  assert (Hoth : ~ is_record_like data -> updateParts E data w = (gconv_String E data, [])).
  { intros Hk. unfold updateParts. apply not_record_like_kind. exact Hk. }
  assert (Hrefused : (updateParts E data w).1 = "" -> refused).
  { intros He. exists (after_ranges E (updateRanges data) w).
    split; [apply doUpdate_empty; exact He|]. split; reflexivity. }
  split; [|split; [|split]].
  - intros Hk Hm. apply Hrefused. rewrite (Hrec Hk). simpl.
    apply join_empty_iff; [apply assignment_not_empty|].
    apply (rangeOrder_nil E (w_ranges w) _ m Hord). exact Hm.
  - intros Hk Hm.
    assert (Hkeys : keys <> []).
    { intros Hnil. apply Hm. apply (rangeOrder_nil E (w_ranges w) _ m Hord). exact Hnil. }
    split; [exact Hkeys|].
    assert (Hne : (updateParts E data w).1 <> "").
    { rewrite (Hrec Hk). simpl. intros Hj. apply Hkeys.
      apply (join_empty_iff (fun k => quoteWord E k +:+ "=?") keys ",");
        [apply assignment_not_empty|exact Hj]. }
    rewrite doUpdate_run by exact Hne. rewrite (Hrec Hk). simpl.
    apply (execOn_resolved link (after_ranges E _ w) l s). exact Hl.
  - intros Hk He. apply Hrefused. rewrite (Hoth Hk). exact He.
  - intros Hk Hne.
    assert (Hne' : (updateParts E data w).1 <> "") by (rewrite (Hoth Hk); exact Hne).
    rewrite doUpdate_run by exact Hne'. rewrite (Hoth Hk). simpl.
    apply (execOn_resolved link (after_ranges E _ w) l s). exact Hl.
Qed.

(** X5. [Delete] executes exactly one statement on the master: DELETE FROM
    and the handled table name, followed by WHERE and the condition that the
    condition formatter returned, with the arguments that it returned. When
    the formatter returns the empty condition, the statement has no WHERE
    clause at all. *)
Theorem Delete_statement table condition args w l s :
  resolves_to E None w l s ->
  let newWhere := (formatWhere E condition args).1 in
  let newArgs := (formatWhere E condition args).2 in
  (newWhere <> "" ->
     runs_one_statement E l s
       ("DELETE FROM " +:+ handleTableName E table +:+ " WHERE " +:+ newWhere)
       newArgs w (Delete E table condition args w))
  /\ (newWhere = "" ->
      runs_one_statement E l s ("DELETE FROM " +:+ handleTableName E table)
        newArgs w (Delete E table condition args w)).
Proof.
  intros Hl newWhere newArgs.
  assert (Hrun : Delete E table condition args w
                 = execOn E None
                     (deleteStatement (handleTableName E table)
                        (whereClause E condition args)) newArgs w).
  { unfold Delete, whereClause, newArgs.
    destruct (formatWhere E condition args) as [nw na]. reflexivity. }
  rewrite Hrun. split; intros Hw.
  - replace ("DELETE FROM " +:+ handleTableName E table +:+ " WHERE " +:+ newWhere)
      with (deleteStatement (handleTableName E table) (whereClause E condition args)).
    + apply execOn_resolved. exact Hl.
    + unfold deleteStatement, whereClause. fold newWhere.
      destruct (String.eqb_spec newWhere ""); [contradiction|reflexivity].
  - replace ("DELETE FROM " +:+ handleTableName E table)
      with (deleteStatement (handleTableName E table) (whereClause E condition args)).
    + apply execOn_resolved. exact Hl.
    + unfold deleteStatement, whereClause. fold newWhere. rewrite Hw. simpl.
      rewrite string_app_nil_r. reflexivity.
Qed.

End Mutations.

(** ** The chunks of a batch *)

Section Chunks.

Context (E : Env).

(** The loop cuts the rows into chunks of [c]: a chunk is flushed when it
    is full or when the last row has been reached. The aggregate keeps the
    native result of the last call. [pend] are the rows whose groups are
    pending. *)
Lemma batchLoop_chunks link operation table keysStr holder updateStr keys c n :
  forall rows i params values pend br w,
    (i + length rows = n)%nat ->
    values = replicate (length pend) holder ->
    params = concat (rowParams keys <$> pend) ->
    Z.of_nat (length pend) < c ->
    (rows = [] -> pend = []) ->
    exists res err w' calls chunks,
      batchLoop E link operation table keysStr holder updateStr keys c n
        i rows params values br w = Ret (res, err) w'
      /\ w_execs w' = w_execs w ++ calls
      /\ w_queries w' = w_queries w
      /\ Forall2 (chunk_call E link operation table keysStr holder updateStr keys)
           chunks calls
      /\ concat chunks `prefix_of` pend ++ rows
      /\ full_but_last c chunks
      /\ (err = None ->
            concat chunks = pend ++ rows
            /\ exists b, res = Some (ResBatch b)
                 /\ lastResult b = match calls with
                                    | [] => lastResult br
                                    | _ :: _ => last_result calls
                                    end).
Proof.
  induction rows as [|row rest IH]; intros i params values pend br w Hi Hv Hp Hc Hpend.
  - rewrite (Hpend eq_refl).
    exists (Some (ResBatch br)), None, w, [], []. simpl.
    rewrite app_nil_r. repeat split; try done; eauto.
  - simpl batchLoop.
    assert (Hv' : values ++ [holder] = replicate (length (pend ++ [row])) holder).
    { rewrite length_app. simpl. rewrite Nat.add_1_r, replicate_S_end, Hv. done. }
    assert (Hp' : params ++ (map_index row <$> keys)
                  = concat (rowParams keys <$> (pend ++ [row]))).
    { rewrite fmap_app, concat_app, Hp. simpl. rewrite app_nil_r. done. }
    rewrite Hv', Hp'.
    set (chunk := pend ++ [row]).
    set (q := batchStatement operation table keysStr
                (replicate (length chunk) holder) updateStr).
    set (a := concat (rowParams keys <$> chunk)).
    assert (Hchunk : chunk <> []) by (unfold chunk; destruct pend; done).
    assert (Hsize : Z.of_nat (length chunk) = Z.of_nat (length pend) + 1).
    { unfold chunk. rewrite length_app. simpl. lia. }
    assert (Hall : pend ++ row :: rest = chunk ++ rest).
    { unfold chunk. rewrite <- app_assoc. done. }
    assert (Hlen : (0 <? Z.of_nat (length (replicate (length chunk) holder))) = true).
    { apply Z.ltb_lt. rewrite length_replicate. lia. }
    assert (Hlast : (Z.of_nat i =? Z.of_nat n - 1) = true <-> rest = []).
    { simpl in Hi. rewrite Z.eqb_eq. destruct rest; simpl in *; split; intros; try done; lia. }
    match goal with |- context [if ?b then _ else _] => destruct b eqn:Hflush end.
    + assert (Hfull : rest <> [] -> Z.of_nat (length chunk) = c).
      { intros Hrest. apply orb_true_iff in Hflush as [Hf|Hf].
        - apply Z.eqb_eq in Hf. rewrite length_replicate in Hf. exact Hf.
        - apply andb_true_iff in Hf as [Hf _]. apply Hlast in Hf. contradiction. }
      unfold mbind, M_bind. rewrite doExec_eq.
      assert (Hcl : forall rp, chunk_call E link operation table keysStr holder
                      updateStr keys chunk
                      (mkExecCall link (sentQuery E q a) (sentArgs E q a) rp))
        by (intros rp; repeat split; done).
      assert (Hone : full_but_last c [chunk]) by (simpl; lia).
      destruct (exec_reply E link q a w) as [r|r e0] eqn:Hr; simpl.
      * set (cl := mkExecCall link (sentQuery E q a) (sentArgs E q a) (ExecOk r)).
        destruct (dr_RowsAffected r) as [k [e|]] eqn:Hk.
        -- exists (Some (ResNative r)), (Some e), (after_exec E link q a w), [cl], [chunk].
           split; [done|]. split; [by apply after_exec_execs_reply|].
           split; [done|].
           split; [constructor; [apply Hcl|constructor]|].
           split; [simpl; rewrite app_nil_r, Hall; by apply prefix_app_r|].
           split; [exact Hone|done].
        -- destruct (IH (S i) [] [] []
                       (mkBatchSqlResult (Some r) (wrap64 (rowsAffected br + k)))
                       (after_exec E link q a w))
             as (res & err & w' & calls & chunks & Hrun & Hex & Hq & Hf2 & Hpre & Hfl & Hcov);
             [simpl in Hi; lia|done|done|simpl; lia|done|].
           exists res, err, w', (cl :: calls), (chunk :: chunks).
           split; [exact Hrun|].
           split; [rewrite Hex, (after_exec_execs_reply _ _ _ _ _ _ Hr), <- app_assoc; done|].
           split; [rewrite Hq; done|].
           split; [constructor; [apply Hcl|assumption]|].
           split; [simpl; rewrite Hall; by apply prefix_app|].
           split.
           ++ destruct chunks as [|chunk' chunks']; [exact Hone|].
              split; [|exact Hfl]. apply Hfull. intros ->.
              apply Forall2_cons_inv_l in Hf2 as (cl' & calls' & (Hne & _) & _ & _).
              simpl in Hpre. apply prefix_nil_inv in Hpre.
              apply app_eq_nil in Hpre as [? _]. contradiction.
           ++ intros He. destruct (Hcov He) as (Hcat & b & Hres & Hb).
              split; [simpl; rewrite Hall, Hcat; done|].
              exists b. split; [exact Hres|]. rewrite Hb. simpl lastResult.
              unfold last_result. destruct calls as [|cl' calls']; [done|].
              reflexivity.
      * set (cl := mkExecCall link (sentQuery E q a) (sentArgs E q a) (ExecFail r e0)).
        destruct (formatError (Some e0) (sentQuery E q a) (sentArgs E q a))
          as [e|] eqn:He; [|by apply formatError_Some in He].
        exists (ResNative <$> r), (Some e), (after_exec E link q a w), [cl], [chunk].
        split; [done|]. split; [by apply after_exec_execs_reply|].
        split; [done|].
        split; [constructor; [apply Hcl|constructor]|].
        split; [simpl; rewrite app_nil_r, Hall; by apply prefix_app_r|].
        split; [exact Hone|done].
    + apply orb_false_iff in Hflush as [Hnf Hfin].
      assert (Hrest : rest <> []).
      { intros ->. rewrite Hlen, andb_true_r in Hfin. apply Z.eqb_neq in Hfin.
        simpl in Hi. lia. }
      apply Z.eqb_neq in Hnf. rewrite length_replicate in Hnf.
      destruct (IH (S i) (concat (rowParams keys <$> chunk))
                  (replicate (length chunk) holder) chunk br w)
        as (res & err & w' & calls & chunks & Hrun & Hex & Hq & Hf2 & Hpre & Hfl & Hcov);
        [simpl in Hi; lia|done|done|lia|done|].
      exists res, err, w', calls, chunks. rewrite Hall.
      repeat split; try done; apply Hcov; done.
Qed.

(** [doBatchInsert] on a list that is not empty, once the link is there. *)
Lemma doBatchInsert_loop link table data opt batch listMap w l s :
  toListMap E data = inl listMap -> listMap <> [] ->
  resolves_to E link w l s ->
  doBatchInsert E link table data opt batch w =
  batchLoop E l (getInsertOperationByOption opt) (handleTableName E table)
    (keysStrOf E (batchKeys E listMap w)) (holderOf (batchKeys E listMap w))
    (updateStrOf E opt (batchKeys E listMap w)) (batchKeys E listMap w)
    (batchNumOf E batch) (length listMap) 0 listMap [] []
    (mkBatchSqlResult None 0)
    (mkWorld E s (w_execs w) (w_queries w) (w_diag w) (S (w_ranges w)) (w_heap w)).
Proof.
  intros Hlist Hne Hl. unfold doBatchInsert. rewrite Hlist.
  replace (Z.of_nat (length listMap) <? 1) with false
    by (symmetry; apply Z.ltb_ge; destruct listMap; [done|simpl length; lia]).
  unfold mbind, M_bind, range_keys, keysStrOf, holderOf, updateStrOf, batchKeys.
  destruct Hl as [[-> ->]|[-> Hm]].
  - simpl. destruct (getChars E) as [charL charR]. reflexivity.
  - unfold db_Master. rewrite Hm. simpl.
    destruct (getChars E) as [charL charR]. reflexivity.
Qed.

(** X6. A batch insert cuts the rows, in their order, into chunks of the
    chunk size in force: every call carries one chunk, every chunk but the
    last one issued has exactly that many rows, and the last one has at
    least one row and at most that many. The calls are all on one link and
    no query is issued. When no call fails, the chunks are all the rows,
    and the aggregate that is returned keeps the native result of the last
    call. *)
Theorem doBatchInsert_chunks link table data opt batch listMap w l s :
  toListMap E data = inl listMap -> listMap <> [] ->
  resolves_to E link w l s ->
  0 < gDEFAULT_BATCH_NUM E ->
  let keys := batchKeys E listMap w in
  exists res err w' calls chunks,
    doBatchInsert E link table data opt batch w = Ret (res, err) w'
    /\ w_execs w' = w_execs w ++ calls
    /\ w_queries w' = w_queries w
    /\ Forall2 (chunk_call E l (getInsertOperationByOption opt)
                  (handleTableName E table) (keysStrOf E keys) (holderOf keys)
                  (updateStrOf E opt keys) keys) chunks calls
    /\ concat chunks `prefix_of` listMap
    /\ full_but_last (batchNumOf E batch) chunks
    /\ (err = None ->
          concat chunks = listMap
          /\ exists b, res = Some (ResBatch b) /\ lastResult b = last_result calls).
Proof.
  intros Hlist Hne Hl Hdef keys.
  rewrite (doBatchInsert_loop link table data opt batch listMap w l s Hlist Hne Hl).
  fold keys.
  match goal with
  | |- context [batchLoop E l ?op ?tb ?ks ?vh ?us ?kk ?bn ?n 0%nat ?rows [] [] ?br ?ww] =>
      destruct (batchLoop_chunks l op tb ks vh us kk bn n rows 0%nat [] [] [] br ww)
        as (res & err & w' & calls & chunks & Hrun & Hex & Hq & Hf2 & Hpre & Hfl & Hcov);
        [done|done|done|simpl; apply batchNumOf_pos; exact Hdef|done|]
  end.
  exists res, err, w', calls, chunks.
  split; [exact Hrun|]. split; [exact Hex|]. split; [exact Hq|].
  split; [exact Hf2|]. split; [exact Hpre|]. split; [exact Hfl|].
  intros He. destruct (Hcov He) as (Hcat & b & Hres & Hb).
  split; [exact Hcat|]. exists b. split; [exact Hres|].
  rewrite Hb. destruct calls as [|cl calls]; [|reflexivity].
  apply Forall2_nil_inv_r in Hf2. subst chunks. simpl in Hcat.
  exfalso. apply Hne. symmetry. exact Hcat.
Qed.

End Chunks.

(** ** How the insert entry points compose *)

Section Composition.

Context (E : Env).

(** X7. An insert whose data is a slice or an array (looking through one
    pointer) is a batch insert of that data under the table name that
    [handleTableName] returned, so that the name is handled a second time;
    where handling a handled name changes nothing, [Insert], [InsertIgnore],
    [Replace] and [Save] of such data are [BatchInsert], [BatchInsertIgnore],
    [BatchReplace] and [BatchSave]. *)
Theorem insert_of_a_list_is_a_batch table data batch w :
  kindThroughPtr data = KSlice \/ kindThroughPtr data = KArray ->
  handleTableName E (handleTableName E table) = handleTableName E table ->
  (forall link opt,
     doInsert E link table data opt batch w
     = doBatchInsert E link (handleTableName E table) data opt batch w)
  /\ Insert E table data batch w = BatchInsert E table data batch w
  /\ InsertIgnore E table data batch w = BatchInsertIgnore E table data batch w
  /\ Replace E table data batch w = BatchReplace E table data batch w
  /\ Save E table data batch w = BatchSave E table data batch w.
Proof.
  intros Hk Hidem.
  assert (Hd : forall link opt,
             doInsert E link table data opt batch w
             = doBatchInsert E link (handleTableName E table) data opt batch w).
  { intros link opt. unfold doInsert. destruct Hk as [-> | ->]; reflexivity. }
  assert (Hb : forall link opt,
             doBatchInsert E link (handleTableName E table) data opt batch w
             = doBatchInsert E link table data opt batch w).
  { intros link opt. unfold doBatchInsert. rewrite Hidem. reflexivity. }
  split; [exact Hd|].
  unfold Insert, InsertIgnore, Replace, Save, BatchInsert, BatchInsertIgnore,
    BatchReplace, BatchSave.
  rewrite !Hd, !Hb. done.
Qed.




End Composition.

(** ** The query entry points *)

Section Reads.

Context (E : Env).

Lemma doQuery_run link query args w :
  doQuery E link query args w =
  Ret (match (link_Query E link (sentQuery E query args) (sentArgs E query args)
                (w_driver w)).1 with
       | QueryOk rows => (rows, None)
       | QueryFail e =>
           (None, formatError (Some e) (sentQuery E query args) (sentArgs E query args))
       end) (after_query E link query args w).
Proof.
  unfold doQuery, sentQuery, sentArgs, after_query, sentQuery, sentArgs.
  destruct (formatQuery E query args) as [q a]; simpl.
  unfold mbind, M_bind, mret, M_ret, link_query, printSql.
  destruct (getDebug E); simpl;
    destruct (link_Query E link (handleSqlBeforeExec E q) a (w_driver w)) as [rp s];
    destruct rp as [rows|e]; reflexivity.
Qed.

(** [fillRow], the loop and [rowsToResult] return, and they change nothing
    but the byte store. *)
Lemma fillRow_frame columnNames columnTypes :
  forall values i row w,
    exists row' h, fillRow E columnNames columnTypes i values row w
                   = Ret row' (set_heap E w h).
Proof.
  induction values as [|value values IH]; intros i row w.
  - exists row, (w_heap w). rewrite set_heap_id. reflexivity.
  - destruct value as [src|]; simpl fillRow.
    + unfold mbind, M_bind, copyBytes.
      match goal with |- context [fillRow E _ _ _ _ ?r ?w1] =>
        destruct (IH (S i) r w1) as (row' & h & ->) end.
      exists row', h. reflexivity.
    + apply IH.
Qed.

Lemma rows_Scan_frame buf row n w :
  exists vs h, rows_Scan E buf row n w = Ret vs (set_heap E w h).
Proof.
  unfold rows_Scan. destruct row as [cells|e].
  - destruct (decide (length cells = n)).
    + destruct (scanCells buf 0 cells (w_heap w)) as [ds h]. exists (inl ds), h. reflexivity.
    + exists (inr (ErrDriver 0)), (w_heap w). rewrite set_heap_id. reflexivity.
  - exists (inr e), (w_heap w). rewrite set_heap_id. reflexivity.
Qed.

Lemma scanLoop_frame buf columnNames columnTypes :
  forall rest cur records w,
    exists r h, scanLoop E buf columnNames columnTypes cur rest records w
                = Ret r (set_heap E w h).
Proof.
  induction rest as [|next rest IH]; intros cur records w; simpl scanLoop;
    unfold mbind, M_bind;
    destruct (rows_Scan_frame buf cur (length columnNames) w) as (vs & h1 & ->);
    (destruct vs as [values|e]; [|exists (records, Some e), h1; reflexivity]);
    destruct (fillRow_frame columnNames columnTypes values 0%nat ∅ (set_heap E w h1))
      as (row & h2 & ->).
  - exists (records ++ [row], None), h2. reflexivity.
  - destruct (IH next (records ++ [row]) (set_heap E (set_heap E w h1) h2)) as (r & h & ->).
    exists r, h. reflexivity.
Qed.

Lemma rowsToResult_frame c w :
  exists r h, rowsToResult E c w = Ret r (set_heap E w h).
Proof.
  unfold rowsToResult. destruct (cur_rows c) as [|first rest].
  - exists ([], None), (w_heap w). rewrite set_heap_id. reflexivity.
  - destruct (cur_columns c) as [columns|e].
    + apply scanLoop_frame.
    + exists ([], Some e), (w_heap w). rewrite set_heap_id. reflexivity.
Qed.

(** [doGetAll] without a link, by the answer of the router and of the
    link. *)
Lemma GetAll_slave_fails query args w e :
  slave_reply E w = inr e ->
  GetAll E query args w = Ret ([], Some e) (after_slave E w).
Proof.
  unfold slave_reply, GetAll, doGetAll, mbind, M_bind, db_Slave, after_slave.
  destruct (Slave E (w_driver w)) as [r s]. simpl. intros ->. reflexivity.
Qed.

Lemma GetAll_run query args w l :
  slave_reply E w = inl l ->
  GetAll E query args w =
  match (link_Query E l (sentQuery E query args) (sentArgs E query args)
           (Slave E (w_driver w)).2).1 with
  | QueryOk (Some c) => rowsToResult E c (after_query E l query args (after_slave E w))
  | QueryOk None => Ret ([], None) (after_query E l query args (after_slave E w))
  | QueryFail e =>
      Ret ([], formatError (Some e) (sentQuery E query args) (sentArgs E query args))
        (after_query E l query args (after_slave E w))
  end.
Proof.
  unfold slave_reply, GetAll, doGetAll, mbind, M_bind, db_Slave, after_slave.
  destruct (Slave E (w_driver w)) as [r s]. simpl. intros ->.
  rewrite doQuery_run. simpl.
  destruct (link_Query E l (sentQuery E query args) (sentArgs E query args) s).1
    as [[c|]|e]; try reflexivity.
  destruct (formatError (Some e) (sentQuery E query args) (sentArgs E query args))
    as [e'|] eqn:He; [reflexivity|by apply formatError_Some in He].
Qed.

Lemma doGetAll_link_frame query args w l :
  exists r h, doGetAll E (Some l) query args w
              = Ret r (set_heap E (after_query E l query args w) h).
Proof.
  unfold doGetAll, mbind, M_bind. simpl. rewrite doQuery_run.
  destruct (link_Query E l (sentQuery E query args) (sentArgs E query args)
              (w_driver w)).1 as [[c|]|e]; simpl.
  - apply rowsToResult_frame.
  - eexists _, _. rewrite set_heap_id. reflexivity.
  - destruct (formatError (Some e) (sentQuery E query args) (sentArgs E query args))
      as [e'|] eqn:He; [|by apply formatError_Some in He].
    eexists _, _. rewrite set_heap_id. reflexivity.
Qed.

Lemma GetAll_frame query args w l :
  slave_reply E w = inl l ->
  exists r h, GetAll E query args w
              = Ret r (set_heap E (after_query E l query args (after_slave E w)) h).
Proof.
  intros Hl. rewrite (GetAll_run query args w l Hl).
  destruct (link_Query E l (sentQuery E query args) (sentArgs E query args)
              (Slave E (w_driver w)).2).1 as [[c|]|e].
  - apply rowsToResult_frame.
  - eexists _, _. rewrite set_heap_id. reflexivity.
  - eexists _, _. rewrite set_heap_id. reflexivity.
Qed.

(** What the other readers make of what [GetAll] returns. *)
Lemma GetOne_of_GetAll query args w all err w1 :
  GetAll E query args w = Ret (all, err) w1 ->
  GetOne E query args w
  = Ret (match err with
         | Some e => (None, Some e)
         | None => (head all, None)
         end) w1.
Proof.
  intros Hrun. unfold GetOne, mbind, M_bind. rewrite Hrun.
  destruct err as [e|]; [reflexivity|]. destruct all; reflexivity.
Qed.

Lemma GetValue_of_GetAll query args w all err w1 :
  GetAll E query args w = Ret (all, err) w1 ->
  exists v w2,
    GetValue E query args w
    = Ret (match err with
           | Some e => (None, Some e)
           | None => (v, None)
           end) w2
    /\ w_execs w2 = w_execs w1 /\ w_queries w2 = w_queries w1
    /\ (err <> None -> w2 = w1).
Proof.
  intros Hrun. unfold GetValue, mbind, M_bind.
  rewrite (GetOne_of_GetAll query args w all err w1 Hrun).
  destruct err as [e|].
  - exists None, w1. done.
  - unfold range_keys.
    destruct (rangeOrder E (w_ranges w1) (dom (default ∅ (head all)))) as [|k ks];
      eexists _, _; (split; [reflexivity|]); done.
Qed.

Lemma scanLoop_RowFail buf columnNames columnTypes e rest records w :
  scanLoop E buf columnNames columnTypes (RowFail e) rest records w
  = Ret (records, Some e) w.
Proof. destruct rest; reflexivity. Qed.

(** A scan that fails after rows that scanned: the loop returns what it
    would return if the cursor ended there, and the error. *)
Lemma scanLoop_cut buf columnNames columnTypes e rest :
  forall gs g0 records w,
    Forall (fun cells => length cells = length columnNames) (g0 :: gs) ->
    exists recs w',
      scanLoop E buf columnNames columnTypes (RowData g0) (RowData <$> gs) records w
      = Ret (recs, None) w'
      /\ length recs = (length records + S (length gs))%nat
      /\ scanLoop E buf columnNames columnTypes (RowData g0)
           ((RowData <$> gs) ++ RowFail e :: rest) records w
         = Ret (recs, Some e) w'.
Proof.
  induction gs as [|g gs IH]; intros g0 records w Hlen;
    apply Forall_cons in Hlen as [Hg0 Hlen].
  - simpl. unfold mbind, M_bind. rewrite (rows_Scan_data E buf g0 _ w Hg0).
    match goal with |- context [fillRow E _ _ _ ?vs ?r ?w1] =>
      destruct (fillRow_frame columnNames columnTypes vs 0%nat r w1) as (row & h & ->) end.
    eexists _, _. split; [reflexivity|]. split; [|apply scanLoop_RowFail].
    rewrite length_app. simpl. lia.
  - change (RowData <$> g :: gs) with (RowData g :: (RowData <$> gs)).
    change ((RowData g :: (RowData <$> gs)) ++ RowFail e :: rest)
      with (RowData g :: ((RowData <$> gs) ++ RowFail e :: rest)).
    simpl scanLoop. unfold mbind, M_bind. rewrite (rows_Scan_data E buf g0 _ w Hg0).
    match goal with |- context [fillRow E _ _ _ ?vs ?r ?w1] =>
      destruct (fillRow_frame columnNames columnTypes vs 0%nat r w1) as (row & h & ->) end.
    match goal with |- context [scanLoop E _ _ _ _ _ ?rs ?w2] =>
      destruct (IH g rs w2 Hlen) as (recs & w' & Hrun & Hl & Hcut) end.
    exists recs, w'. split; [exact Hrun|]. split; [|exact Hcut].
    rewrite Hl, length_app. simpl. lia.
Qed.

Lemma rowsToResult_cut c cols good e rest w :
  cur_columns c = inl cols ->
  cur_rows c = (RowData <$> good) ++ RowFail e :: rest ->
  Forall (fun cells => length cells = length cols) good ->
  exists records w',
    rowsToResult E (first_rows (length good) c) w = Ret (records, None) w'
    /\ length records = length good
    /\ rowsToResult E c w = Ret (records, Some e) w'.
Proof.
  intros Hcols Hrows Hlen. unfold rowsToResult, first_rows. simpl.
  rewrite Hrows, Hcols.
  replace (take (length good) ((RowData <$> good) ++ RowFail e :: rest))
    with (RowData <$> good)
    by (rewrite take_app_length'; [reflexivity|symmetry; apply length_fmap]).
  destruct good as [|g0 gs].
  - exists [], w. simpl. rewrite scanLoop_RowFail. done.
  - change (RowData <$> g0 :: gs) with (RowData g0 :: (RowData <$> gs)).
    change ((RowData g0 :: (RowData <$> gs)) ++ RowFail e :: rest)
      with (RowData g0 :: ((RowData <$> gs) ++ RowFail e :: rest)).
    cbv iota beta.
    destruct (scanLoop_cut (cur_buf c) (cols.*1) (cols.*2) e rest gs g0 [] w)
      as (recs & w' & Hrun & Hl & Hcut).
    { rewrite length_fmap. exact Hlen. }
    exists recs, w'. done.
Qed.

(** A cursor of one row with one column. *)
Lemma rowsToResult_one_cell c name ty cell w :
  cur_columns c = inl [(name, ty)] ->
  cur_rows c = [RowData [cell]] ->
  exists value w',
    rowsToResult E c w = Ret ([{[name := value]}], None) w'
    /\ w_ranges w' = w_ranges w
    /\ match cell with
       | None => value = gvar_New INil
       | Some b => exists v, value = gvar_New (convertValue E v b ty)
                             /\ w_heap w' !! v = Some b
       end.
Proof.
  intros Hcols Hrows. unfold rowsToResult. rewrite Hrows, Hcols. simpl.
  unfold mbind, M_bind, rows_Scan. simpl.
  destruct cell as [b|]; simpl.
  - unfold mbind, M_bind, copyBytes. simpl. rewrite lookup_insert_eq. simpl.
    eexists _, _. split; [rewrite insert_empty; reflexivity|]. split; [reflexivity|].
    eexists. split; [reflexivity|]. simpl. apply lookup_insert_eq.
  - eexists _, _. split; [rewrite insert_empty; reflexivity|]. split; reflexivity.
Qed.

(** X9. From the cursor to the count. When the query that [GetCount]
    sends is answered by one row with one column, [GetValue] of that query
    gives the value of the one cell, the box around nil for NULL and else
    the conversion of a copy of the cell's bytes by the column's type, and
    [GetCount] gives what the conversion to an integer makes of that value
    (a panic where that conversion panics). *)
Theorem GetCount_reads_the_one_cell query args w l c name ty cell :
  valid_rangeOrder E ->
  yields_cursor E (countQuery query) args w l c ->
  cur_columns c = inl [(name, ty)] ->
  cur_rows c = [RowData [cell]] ->
  exists value w',
    GetValue E (countQuery query) args w = Ret (value, None) w'
    /\ match cell with
       | None => value = gvar_New INil
       | Some b => exists v, value = gvar_New (convertValue E v b ty)
                             /\ w_heap w' !! v = Some b
       end
    /\ GetCount E query args w
       = match Var_Int E value with
         | Some n => Ret (n, None) w'
         | None => Panic "invalid memory address or nil pointer dereference"
         end.
Proof.
  intros Hord Hc Hcols Hrows. unfold yields_cursor, query_reply in Hc.
  destruct (Slave E (w_driver w)) as [[l'|e0] s] eqn:Hs; [|discriminate].
  injection Hc as -> Hc.
  assert (Hl : slave_reply E w = inl l) by (unfold slave_reply; rewrite Hs; reflexivity).
  destruct (rowsToResult_one_cell c name ty cell
              (after_query E l (countQuery query) args (after_slave E w)) Hcols Hrows)
    as (value & w1 & Hrun & Hr & Hvalue).
  assert (Hall : GetAll E (countQuery query) args w = Ret ([{[name := value]}], None) w1).
  { rewrite (GetAll_run (countQuery query) args w l Hl), Hs. simpl. rewrite Hc.
    exact Hrun. }
  assert (Hval : GetValue E (countQuery query) args w
                 = Ret (value, None) (after_ranges E 1 w1)).
  { unfold GetValue, mbind, M_bind.
    rewrite (GetOne_of_GetAll _ _ _ _ _ _ Hall). simpl.
    unfold range_keys. simpl.
    rewrite (rangeOrder_singleton E (w_ranges w1) _ name value Hord).
    rewrite lookup_singleton_eq. reflexivity. }
  exists value, (after_ranges E 1 w1).
  split; [exact Hval|]. split; [exact Hvalue|].
  rewrite GetCount_eq, Hval. reflexivity.
Qed.

Section Structs.

Context (Result_Structs : Result -> Data -> option error).

Lemma GetStruct_of_GetAll pointer query args w all err w1 :
  GetAll E query args w = Ret (all, err) w1 ->
  exists r, GetStruct E pointer query args w = Ret r w1
            /\ (forall e, err = Some e -> r = Some e).
Proof.
  intros Hrun. unfold GetStruct, mbind, M_bind.
  rewrite (GetOne_of_GetAll query args w all err w1 Hrun).
  destruct err as [e|].
  - exists (Some e). split; [reflexivity|]. intros e' [= ->]. reflexivity.
  - destruct (Z.of_nat (Record_len (head all)) =? 0); eexists; (split; [reflexivity|]);
      intros e' [=].
Qed.

Lemma GetStructs_of_GetAll pointer query args w all err w1 :
  GetAll E query args w = Ret (all, err) w1 ->
  GetStructs E Result_Structs pointer query args w
  = Ret (match err with
         | Some e => Some e
         | None => if (Z.of_nat (length all) =? 0) then Some ErrNoRows
                   else Result_Structs all pointer
         end) w1.
Proof.
  intros Hrun. unfold GetStructs, mbind, M_bind. rewrite Hrun.
  destruct err as [e|]; [reflexivity|].
  destruct (Z.of_nat (length all) =? 0); reflexivity.
Qed.

Lemma GetCount_of_GetAll query args w all e w1 :
  GetAll E (countQuery query) args w = Ret (all, Some e) w1 ->
  GetCount E query args w = Ret (0, Some e) w1.
Proof.
  intros Hrun. rewrite GetCount_eq.
  destruct (GetValue_of_GetAll (countQuery query) args w all (Some e) w1 Hrun)
    as (v & w2 & -> & _ & _ & Hw). rewrite (Hw ltac:(done)). reflexivity.
Qed.

(** X10. When the router cannot give the read link, every reader returns
    the router's error as it is, with the nil result (the count 0 for
    [GetCount]), and no query reaches any link. *)
Theorem slave_failure_stops_reads query args pointer w e :
  slave_reply E w = inr e ->
  exists w',
    w_queries w' = w_queries w /\ w_execs w' = w_execs w
    /\ Query E query args w = Ret (None, Some e) w'
    /\ GetAll E query args w = Ret ([], Some e) w'
    /\ GetOne E query args w = Ret (None, Some e) w'
    /\ GetValue E query args w = Ret (None, Some e) w'
    /\ GetCount E query args w = Ret (0, Some e) w'
    /\ GetStruct E pointer query args w = Ret (Some e) w'
    /\ GetStructs E Result_Structs pointer query args w = Ret (Some e) w'.
Proof.
  intros Hs. exists (after_slave E w).
  pose proof (GetAll_slave_fails query args w e Hs) as Hall.
  pose proof (GetAll_slave_fails (countQuery query) args w e Hs) as Hcount.
  split; [reflexivity|]. split; [reflexivity|].
  split.
  { unfold slave_reply in Hs. unfold Query, mbind, M_bind, db_Slave, after_slave.
    destruct (Slave E (w_driver w)) as [r s]. simpl in *. subst r. reflexivity. }
  split; [exact Hall|].
  split; [exact (GetOne_of_GetAll _ _ _ _ _ _ Hall)|].
  split.
  { destruct (GetValue_of_GetAll _ _ _ _ _ _ Hall) as (v & w2 & -> & _ & _ & Hw).
    rewrite (Hw ltac:(done)). reflexivity. }
  split; [exact (GetCount_of_GetAll _ _ _ _ _ _ Hcount)|].
  split.
  { destruct (GetStruct_of_GetAll pointer _ _ _ _ _ _ Hall) as (r & -> & Hr).
    rewrite (Hr e eq_refl). reflexivity. }
  exact (GetStructs_of_GetAll pointer _ _ _ _ _ _ Hall).
Qed.

(** X11. When the driver rejects the query, every reader returns the
    driver's error as [doQuery] formats it, with the nil result; [GetCount]
    does so for the query that it sends in place of its own, and returns the
    count 0. *)
Theorem driver_error_reaches_every_reader query args pointer w e :
  query_fails E query args w e ->
  exists e' w',
    formatError (Some e) (sentQuery E query args) (sentArgs E query args) = Some e'
    /\ Query E query args w = Ret (None, Some e') w'
    /\ GetAll E query args w = Ret ([], Some e') w'
    /\ GetOne E query args w = Ret (None, Some e') w'
    /\ GetValue E query args w = Ret (None, Some e') w'
    /\ (forall query0, countQuery query0 = query ->
          GetCount E query0 args w = Ret (0, Some e') w')
    /\ GetStruct E pointer query args w = Ret (Some e') w'
    /\ GetStructs E Result_Structs pointer query args w = Ret (Some e') w'.
Proof.
  intros (l & Hq). unfold query_reply in Hq.
  destruct (Slave E (w_driver w)) as [[l'|e0] s] eqn:Hs; [|discriminate].
  injection Hq as -> Hq.
  assert (Hl : slave_reply E w = inl l) by (unfold slave_reply; rewrite Hs; reflexivity).
  destruct (formatError (Some e) (sentQuery E query args) (sentArgs E query args))
    as [e'|] eqn:He; [|by apply formatError_Some in He].
  exists e', (after_query E l query args (after_slave E w)).
  assert (Hall : GetAll E query args w
                 = Ret ([], Some e') (after_query E l query args (after_slave E w))).
  { rewrite (GetAll_run query args w l Hl), Hs. simpl. rewrite Hq, He. reflexivity. }
  split; [reflexivity|].
  split.
  { unfold Query, mbind, M_bind, db_Slave. rewrite Hs. simpl.
    rewrite doQuery_run. simpl. rewrite Hq, He. unfold after_slave. rewrite Hs.
    reflexivity. }
  split; [exact Hall|].
  split; [exact (GetOne_of_GetAll _ _ _ _ _ _ Hall)|].
  split.
  { destruct (GetValue_of_GetAll _ _ _ _ _ _ Hall) as (v & w2 & -> & _ & _ & Hw).
    rewrite (Hw ltac:(done)). reflexivity. }
  split.
  { intros query0 <-. exact (GetCount_of_GetAll _ _ _ _ _ _ Hall). }
  split.
  { destruct (GetStruct_of_GetAll pointer _ _ _ _ _ _ Hall) as (r & -> & Hr).
    rewrite (Hr e' eq_refl). reflexivity. }
  exact (GetStructs_of_GetAll pointer _ _ _ _ _ _ Hall).
Qed.

(** X12. With a read link at hand, every reader returns, whatever the
    driver and the cursor answer; it executes no statement, and it issues
    exactly one query, on the read link: the query it was given, and for
    [GetCount] the query with the COUNT aggregate in it. [GetCount] alone
    may end in a panic instead, the one of the conversion of the value.
    [doGetAll] with a link of its own issues its query on that link, and
    leaves everything but the driver, the query log, the diagnostics and
    the byte store as it was. *)
Theorem readers_issue_one_query query args pointer w l :
  slave_reply E w = inl l ->
  (forall l0, exists r h,
     doGetAll E (Some l0) query args w
     = Ret r (set_heap E (after_query E l0 query args w) h))
  /\ reads_once E l query args w (Query E query args w)
  /\ reads_once E l query args w (GetAll E query args w)
  /\ reads_once E l query args w (GetOne E query args w)
  /\ reads_once E l query args w (GetValue E query args w)
  /\ reads_once E l query args w (GetStruct E pointer query args w)
  /\ reads_once E l query args w (GetStructs E Result_Structs pointer query args w)
  /\ (reads_once E l (countQuery query) args w (GetCount E query args w)
      \/ GetCount E query args w
         = Panic "invalid memory address or nil pointer dereference").
Proof.
  intros Hl.
  assert (Hall : forall q, exists all err w1,
             GetAll E q args w = Ret (all, err) w1 /\ one_query_issued E l q args w w1).
  { intros q. destruct (GetAll_frame q args w l Hl) as ([all err] & h & Hrun).
    eexists all, err, _. split; [exact Hrun|]. split; reflexivity. }
  destruct (Hall query) as (all & err & w1 & Hrun & Hex & Hq).
  split; [intros l0; apply doGetAll_link_frame|].
  split.
  { unfold slave_reply in Hl. unfold Query, mbind, M_bind, db_Slave.
    destruct (Slave E (w_driver w)) as [r s] eqn:Hs. simpl in *. subst r.
    rewrite doQuery_run. eexists _, _. split; [reflexivity|]. split; reflexivity. }
  split; [eexists _, _; split; [exact Hrun|split; assumption]|].
  split.
  { rewrite (GetOne_of_GetAll _ _ _ _ _ _ Hrun).
    eexists _, _; split; [reflexivity|split; assumption]. }
  split.
  { destruct (GetValue_of_GetAll _ _ _ _ _ _ Hrun) as (v & w2 & -> & Hex2 & Hq2 & _).
    eexists _, _; split; [reflexivity|]. split; congruence. }
  split.
  { destruct (GetStruct_of_GetAll pointer _ _ _ _ _ _ Hrun) as (r & -> & _).
    eexists _, _; split; [reflexivity|split; assumption]. }
  split.
  { rewrite (GetStructs_of_GetAll pointer _ _ _ _ _ _ Hrun).
    eexists _, _; split; [reflexivity|split; assumption]. }
  destruct (Hall (countQuery query)) as (all' & err' & w1' & Hrun' & Hex' & Hq').
  rewrite GetCount_eq.
  destruct (GetValue_of_GetAll _ _ _ _ _ _ Hrun') as (v & w2 & -> & Hex2 & Hq2 & _).
  destruct err' as [e|].
  - left. eexists _, _; split; [reflexivity|]. split; congruence.
  - destruct (Var_Int E v) as [n|]; [left|right; reflexivity].
    eexists _, _; split; [reflexivity|]. split; congruence.
Qed.

(** X13. [GetScan] looks at its target before it queries. A target that
    is no pointer, and a pointer to what is neither an array, a slice nor a
    struct, are refused with an error that names the kind, and the world is
    left as it was. A pointer to an array or a slice is handed to
    [GetStructs] and a pointer to a struct to [GetStruct]; on a query
    without rows both give [sql.ErrNoRows], and on rows [GetStructs] gives
    what the conversion of all the rows gives. *)
Theorem GetScan_checks_its_target pointer query args w :
  isNilInterface pointer = false ->
  let k := kindOf (elemOf pointer) in
  (kindOf pointer <> KPtr ->
     GetScan E Result_Structs pointer query args w
     = Ret (Some (ErrNew ("params should be type of pointer, but got: "
                            +:+ Kind_String (kindOf pointer)))) w)
  /\ (kindOf pointer = KPtr -> k <> KArray -> k <> KSlice -> k <> KStruct ->
      GetScan E Result_Structs pointer query args w
      = Ret (Some (ErrNew ("element type should be type of struct/slice, unsupported: "
                             +:+ Kind_String k))) w)
  /\ (kindOf pointer = KPtr -> k = KArray \/ k = KSlice ->
      GetScan E Result_Structs pointer query args w
      = GetStructs E Result_Structs pointer query args w)
  /\ (kindOf pointer = KPtr -> k = KStruct ->
      GetScan E Result_Structs pointer query args w
      = GetStruct E pointer query args w)
  /\ (kindOf pointer = KPtr -> k = KArray \/ k = KSlice \/ k = KStruct ->
      yields_zero_rows E query args w ->
      exists w', GetScan E Result_Structs pointer query args w
                 = Ret (Some ErrNoRows) w')
  /\ (forall all w', GetAll E query args w = Ret (all, None) w' -> all <> [] ->
        GetStructs E Result_Structs pointer query args w
        = Ret (Result_Structs all pointer) w').
Proof.
  intros Hnil k. unfold GetScan. rewrite Hnil.
  assert (Hstructs : yields_zero_rows E query args w ->
            exists w', GetStructs E Result_Structs pointer query args w
                       = Ret (Some ErrNoRows) w').
  { intros Hz. destruct (GetAll_zero_rows E query args w Hz) as (w' & Hrun & _).
    exists w'. rewrite (GetStructs_of_GetAll pointer _ _ _ _ _ _ Hrun). reflexivity. }
  assert (Hstruct : yields_zero_rows E query args w ->
            exists w', GetStruct E pointer query args w = Ret (Some ErrNoRows) w').
  { intros Hz. destruct (GetOne_zero_rows E query args w Hz) as (w' & Hrun & _).
    exists w'. unfold GetStruct, mbind, M_bind. rewrite Hrun. reflexivity. }
  split; [|split; [|split; [|split; [|split]]]].
  - intros Hk. rewrite bool_decide_eq_false_2 by exact Hk. reflexivity.
  - intros Hk Ha Hs Ht. rewrite bool_decide_eq_true_2 by exact Hk. simpl.
    fold k. destruct k; try reflexivity; contradiction.
  - intros Hk Hs. rewrite bool_decide_eq_true_2 by exact Hk. simpl.
    fold k. destruct Hs as [-> | ->]; reflexivity.
  - intros Hk Hs. rewrite bool_decide_eq_true_2 by exact Hk. simpl.
    fold k. rewrite Hs. reflexivity.
  - intros Hk Hs Hz. rewrite bool_decide_eq_true_2 by exact Hk. simpl.
    fold k. destruct Hs as [-> | [-> | ->]]; auto.
  - intros all w' Hrun Hne. rewrite (GetStructs_of_GetAll pointer _ _ _ _ _ _ Hrun).
    replace (Z.of_nat (length all) =? 0) with false; [reflexivity|].
    symmetry. apply Z.eqb_neq. destruct all; [done|simpl; lia].
Qed.

(** X14. When the scan of a row fails after rows that scanned, [GetAll]
    returns the records of those rows together with the error of the scan,
    as it is: the records and the store are the ones that the cursor would
    have given had it ended before the failing row, and the rows after it
    are never looked at. [GetOne] and [GetStructs] return the error alone. *)
Theorem scan_error_keeps_decoded_rows query args pointer w l c cols good e rest :
  yields_cursor E query args w l c ->
  cur_columns c = inl cols ->
  cur_rows c = (RowData <$> good) ++ RowFail e :: rest ->
  Forall (fun cells => length cells = length cols) good ->
  exists records w',
    GetAll E query args w = Ret (records, Some e) w'
    /\ length records = length good
    /\ rowsToResult E (first_rows (length good) c)
         (after_query E l query args (after_slave E w)) = Ret (records, None) w'
    /\ GetOne E query args w = Ret (None, Some e) w'
    /\ GetStructs E Result_Structs pointer query args w = Ret (Some e) w'.
Proof.
  intros Hc Hcols Hrows Hlen. unfold yields_cursor, query_reply in Hc.
  destruct (Slave E (w_driver w)) as [[l'|e0] s] eqn:Hs; [|discriminate].
  injection Hc as -> Hc.
  assert (Hl : slave_reply E w = inl l) by (unfold slave_reply; rewrite Hs; reflexivity).
  destruct (rowsToResult_cut c cols good e rest
              (after_query E l query args (after_slave E w)) Hcols Hrows Hlen)
    as (records & w' & Hgood & Hn & Hcut).
  assert (Hall : GetAll E query args w = Ret (records, Some e) w').
  { rewrite (GetAll_run query args w l Hl), Hs. simpl. rewrite Hc. exact Hcut. }
  exists records, w'. split; [exact Hall|]. split; [exact Hn|].
  split; [exact Hgood|].
  split; [exact (GetOne_of_GetAll _ _ _ _ _ _ Hall)|].
  exact (GetStructs_of_GetAll pointer _ _ _ _ _ _ Hall).
Qed.

End Structs.

End Reads.

(** ** Columns that share a name *)

Section Columns.

Context (E : Env).

(** Among the columns from [i] on, the last one with the name decides. *)
Lemma insertCols_last columnNames columnTypes :
  forall cells blks i row k name cell blk,
    columnNames !!! (i + k)%nat = name ->
    cells !! k = Some cell -> blks !! k = Some blk ->
    (forall k', (k < k' < length cells)%nat -> columnNames !!! (i + k')%nat <> name) ->
    insertCols E columnNames columnTypes i cells blks row !! name
    = Some (cellValue E (columnTypes !!! (i + k)%nat) cell blk).
Proof.
  induction cells as [|c cells IH];
    intros blks i row k name cell blk Hname Hcell Hblk Hlast; [done|].
  destruct blks as [|b blks]; [done|]. simpl insertCols.
  destruct k as [|k].
  - simpl in Hcell, Hblk. injection Hcell as ->. injection Hblk as ->.
    rewrite Nat.add_0_r in *.
    rewrite insertCols_other.
    + rewrite Hname. apply lookup_insert_eq.
    + intros k Hk. replace (S i + k)%nat with (i + S k)%nat by lia.
      apply Hlast. simpl. lia.
  - simpl in Hcell, Hblk. replace (i + S k)%nat with (S i + k)%nat in * by lia.
    apply IH; try done.
    intros k' Hk'. replace (S i + k')%nat with (i + S k')%nat by lia.
    apply Hlast. simpl. lia.
Qed.

(** A name that no column has is not in the row object. *)
Lemma insertCols_absent columnNames columnTypes cells blks name :
  (length cells <= length columnNames)%nat ->
  name ∉ columnNames ->
  insertCols E columnNames columnTypes 0 cells blks ∅ !! name = None.
Proof.
  intros Hlen Hnot. rewrite insertCols_other; [apply lookup_empty|].
  intros k Hk Heq. apply Hnot. simpl in Heq.
  destruct (lookup_lt_is_Some_2 columnNames k ltac:(lia)) as [x Hx].
  rewrite (list_lookup_total_correct _ _ _ Hx) in Heq. subst x.
  eapply list_elem_of_lookup_2. exact Hx.
Qed.

(** The last place at which an element of a list occurs. *)
Lemma last_occurrence (l : list string) name :
  name ∈ l -> exists i, l !! i = Some name /\ forall i', (i < i')%nat -> l !! i' <> Some name.
Proof.
  induction l as [|x l IH]; intros Hin; [inversion Hin|].
  destruct (decide (name ∈ l)) as [Hl|Hl].
  - destruct (IH Hl) as (i & Hi & Hlast). exists (S i). split; [exact Hi|].
    intros [|i'] Hlt; [lia|]. simpl. apply Hlast. lia.
  - apply elem_of_cons in Hin as [->|Hin]; [|contradiction].
    exists 0%nat. split; [reflexivity|].
    intros [|i'] Hlt; [lia|]. simpl. intros Hx. apply Hl.
    eapply list_elem_of_lookup_2. exact Hx.
Qed.

(** What [rowsToResult] leaves behind for rows that all scan, whether or
    not the column names differ. *)
Lemma rowsToResult_decoded c w cols cellss :
  cur_columns c = inl cols ->
  cur_rows c = RowData <$> cellss ->
  Forall (fun cells => length cells = length cols) cellss ->
  (forall i, (i < length cols)%nat -> cur_buf c i ∈ dom (w_heap w)) ->
  (forall i i', (i < length cols)%nat -> (i' < length cols)%nat ->
                cur_buf c i = cur_buf c i' -> i = i') ->
  exists records data h',
    rowsToResult E c w = Ret (records, None) (set_heap E w h')
    /\ decoded E (cur_buf c) (cols.*1) (cols.*2) h' records data
    /\ data.*1 = cellss.
Proof.
  intros Hcols Hrows Hlens Hbufs Hinj.
  unfold rowsToResult. rewrite Hrows.
  destruct cellss as [|cells0 cellss].
  { exists [], [], (w_heap w). rewrite set_heap_id. simpl.
    split; [reflexivity|]. split; [|reflexivity].
    split; [constructor|]. split; [constructor|]. intros v Hv. inversion Hv. }
  rewrite Hcols. change (RowData <$> cells0 :: cellss)
    with (RowData cells0 :: (RowData <$> cellss)).
  cbv iota beta.
  assert (Hn : length (cols.*1) = length cols) by apply length_fmap.
  destruct (scanLoop_spec E (cur_buf c) (cols.*1) (cols.*2)
              ltac:(rewrite Hn; exact Hinj) (RowData <$> cellss) (RowData cells0)
              [] [] w) as (records & data & h' & Hrun & Hdec & Hdata).
  { split; [constructor|]. split; [constructor|]. intros v Hv. inversion Hv. }
  { rewrite Hn. exact Hbufs. }
  { unfold all_rows_scan. rewrite Hn.
    change (RowData cells0 :: (RowData <$> cellss)) with (RowData <$> cells0 :: cellss).
    apply Forall_fmap. eapply Forall_impl; [exact Hlens|].
    intros cells Hl. exists cells. done. }
  simpl in Hdata.
  change (RowData cells0 :: (RowData <$> cellss)) with (RowData <$> cells0 :: cellss) in Hdata.
  exists records, data, h'. split; [exact Hrun|]. split; [exact Hdec|].
  revert Hdata. generalize (cells0 :: cellss). generalize (data.*1).
  induction l as [|x l IH]; intros [|y l'] Heq; simpl in Heq; try done.
  injection Heq as -> Heq. f_equal. apply IH, Heq.
Qed.

(** X15. When columns of a cursor share a name, a record has one entry for
    the name, and it holds the value of the last of these columns: the
    fields of every record are exactly the names that occur among the
    columns, and under each name stands the cell of the last column with
    that name, nil for NULL and else the conversion of a copy of the cell's
    bytes by that column's type. *)
Theorem rowsToResult_last_column_wins c w cols cellss :
  cur_columns c = inl cols ->
  cur_rows c = RowData <$> cellss ->
  Forall (fun cells => length cells = length cols) cellss ->
  (forall i, (i < length cols)%nat -> cur_buf c i ∈ dom (w_heap w)) ->
  (forall i i', (i < length cols)%nat -> (i' < length cols)%nat ->
                cur_buf c i = cur_buf c i' -> i = i') ->
  exists records h',
    rowsToResult E c w = Ret (records, None) (set_heap E w h')
    /\ length records = length cellss
    /\ forall j cells, cellss !! j = Some cells ->
         exists rec, records !! j = Some rec
           /\ (forall name, is_Some (rec !! name) <-> name ∈ cols.*1)
           /\ forall i name ty cell,
                cols !! i = Some (name, ty) -> cells !! i = Some cell ->
                (forall i', (i < i')%nat -> cols.*1 !! i' <> Some name) ->
                match cell with
                | None => rec !! name = Some (gvar_New INil)
                | Some b =>
                    exists v, rec !! name = Some (gvar_New (convertValue E v b ty))
                              /\ h' !! v = Some b
                end.
Proof.
  intros Hcols Hrows Hlens Hbufs Hinj.
  destruct (rowsToResult_decoded c w cols cellss Hcols Hrows Hlens Hbufs Hinj)
    as (records & data & h' & Hrun & (Hrecs & _ & _) & Hfst).
  exists records, h'. split; [exact Hrun|].
  split; [rewrite (Forall2_length _ _ _ Hrecs), <- Hfst, length_fmap; done|].
  intros j cells Hj.
  rewrite <- Hfst, list_lookup_fmap in Hj.
  destruct (data !! j) as [[cells' blks]|] eqn:Hd; [|done].
  simpl in Hj. injection Hj as ->.
  destruct (Forall2_lookup_r _ _ _ _ _ Hrecs Hd) as (rec & Hrec & Heq & Hin).
  simpl in Heq, Hin.
  assert (Hlen : length cells = length cols).
  { eapply (Forall_lookup_1 _ _ j cells) in Hlens; [exact Hlens|].
    rewrite <- Hfst, list_lookup_fmap, Hd. done. }
  assert (Hn : length (cols.*1) = length cols) by apply length_fmap.
  assert (Hvalue : forall i name ty cell,
            cols !! i = Some (name, ty) -> cells !! i = Some cell ->
            (forall i', (i < i')%nat -> cols.*1 !! i' <> Some name) ->
            exists blk, blks !! i = Some blk /\ cell_in h' cell blk
                        /\ rec !! name = Some (cellValue E ty cell blk)).
  { intros i name ty cell Hi Hcell Hlast.
    pose proof (Forall2_lookup_l _ _ _ _ _ Hin Hcell) as (blk & Hblk & Hc).
    exists blk. split; [exact Hblk|]. split; [exact Hc|].
    assert (Hty : (cols.*2) !!! (0 + i)%nat = ty).
    { apply list_lookup_total_correct. simpl. rewrite list_lookup_fmap, Hi. done. }
    rewrite Heq, <- Hty. apply insertCols_last; try done.
    - apply list_lookup_total_correct. simpl. rewrite list_lookup_fmap, Hi. done.
    - intros k' Hk' Hx. simpl in Hx. apply (Hlast k'); [lia|].
      destruct (lookup_lt_is_Some_2 (cols.*1) k' ltac:(lia)) as [x Hx'].
      rewrite (list_lookup_total_correct _ _ _ Hx') in Hx. subst x. exact Hx'. }
  exists rec. split; [exact Hrec|]. split.
  - intros name. split.
    + intros Hsome. destruct (decide (name ∈ cols.*1)) as [|Hnot]; [done|].
      rewrite Heq, insertCols_absent in Hsome; [destruct Hsome; done|lia|exact Hnot].
    + intros Hname. destruct (last_occurrence _ _ Hname) as (i & Hi & Hlast).
      rewrite list_lookup_fmap in Hi.
      destruct (cols !! i) as [[name' ty]|] eqn:Hci; [|done].
      simpl in Hi. injection Hi as ->.
      destruct (lookup_lt_is_Some_2 cells i) as [cell Hcell].
      { rewrite Hlen. eapply lookup_lt_Some. exact Hci. }
      destruct (Hvalue i name ty cell Hci Hcell Hlast) as (blk & _ & _ & ->). eauto.
  - intros i name ty cell Hi Hcell Hlast.
    destruct (Hvalue i name ty cell Hi Hcell Hlast) as (blk & Hblk & Hc & Hval).
    destruct cell as [b|], blk as [v|]; simpl in Hc; try done.
    exists v. split; [exact Hval|exact Hc].
Qed.

End Columns.

(** ** What the materializer writes *)

Section Frame.

Context (E : Env).

Local Abbreviation heap := (gmap loc (list Byte.byte)).

(** [rows.Scan] writes the buffers of the columns it fills and nothing
    else. *)
Lemma scanCells_frame buf (l : loc) :
  forall cells i (h : heap),
    (forall k, (i <= k < i + length cells)%nat -> l <> buf k) ->
    (scanCells buf i cells h).2 !! l = h !! l.
Proof.
  induction cells as [|cell cells IH]; intros i h Hl; [reflexivity|].
  simpl in Hl. destruct cell as [b|]; simpl.
  - destruct (scanCells buf (S i) cells (<[buf i := b]> h)) as [ds h'] eqn:Hs.
    simpl. change h' with (ds, h').2. rewrite <- Hs. rewrite IH.
    + apply lookup_insert_ne. intros Heq. apply (Hl i); [lia|done].
    + intros k Hk. apply Hl. lia.
  - destruct (scanCells buf (S i) cells h) as [ds h'] eqn:Hs.
    simpl. change h' with (ds, h').2. rewrite <- Hs. apply IH.
    intros k Hk. apply Hl. lia.
Qed.

(** The copies go into blocks that were not in use. *)
Lemma fillRow_grows columnNames columnTypes :
  forall values i row w,
    exists row' h', fillRow E columnNames columnTypes i values row w
                    = Ret row' (set_heap E w h')
                    /\ w_heap w ⊆ h'.
Proof.
  induction values as [|value values IH]; intros i row w.
  - exists row, (w_heap w). rewrite set_heap_id. done.
  - destruct value as [src|]; simpl fillRow.
    + unfold mbind, M_bind, copyBytes.
      match goal with |- context [fillRow E _ _ _ _ ?r ?w1] =>
        destruct (IH (S i) r w1) as (row' & h' & -> & Hsub) end.
      exists row', h'. split; [reflexivity|]. simpl in Hsub.
      etrans; [|exact Hsub]. apply insert_subseteq.
      apply not_elem_of_dom. apply is_fresh.
    + apply IH.
Qed.

Lemma scanLoop_keeps buf columnNames columnTypes (v : loc) b :
  ~ is_buf buf (length columnNames) v ->
  forall rest cur records w,
    w_heap w !! v = Some b ->
    exists r h', scanLoop E buf columnNames columnTypes cur rest records w
                 = Ret r (set_heap E w h')
                 /\ h' !! v = Some b.
Proof.
  intros Hv.
  assert (Hscan : forall cur w, w_heap w !! v = Some b ->
            exists vs h1, rows_Scan E buf cur (length columnNames) w
                          = Ret vs (set_heap E w h1) /\ h1 !! v = Some b).
  { intros cur w Hb. unfold rows_Scan. destruct cur as [cells|e].
    - destruct (decide (length cells = length columnNames)) as [Hlen|Hlen].
      + pose proof (scanCells_frame buf v cells 0%nat (w_heap w)) as Hfr.
        destruct (scanCells buf 0 cells (w_heap w)) as [ds h1].
        exists (inl ds), h1. split; [reflexivity|]. simpl in Hfr. rewrite Hfr; [exact Hb|].
        intros k Hk Heq. apply Hv. exists k. split; [lia|exact Heq].
      + exists (inr (ErrDriver 0)), (w_heap w). rewrite set_heap_id. done.
    - exists (inr e), (w_heap w). rewrite set_heap_id. done. }
  induction rest as [|next rest IH]; intros cur records w Hb; simpl scanLoop;
    unfold mbind, M_bind;
    destruct (Hscan cur w Hb) as (vs & h1 & -> & Hb1);
    (destruct vs as [values|e]; [|exists (records, Some e), h1; done]);
    destruct (fillRow_grows columnNames columnTypes values 0%nat ∅ (set_heap E w h1))
      as (row & h2 & -> & Hsub);
    assert (Hb2 : h2 !! v = Some b) by (eapply lookup_weaken; [exact Hb1|exact Hsub]).
  - exists (records ++ [row], None), h2. done.
  - destruct (IH next (records ++ [row]) (set_heap E (set_heap E w h1) h2) Hb2)
      as (r & h' & -> & Hb').
    exists r, h'. done.
Qed.

(** X16. The materializer writes only the driver's buffers and blocks that
    were not in use: whatever the cursor delivers, a block that held bytes
    before [GetAll] (or [rowsToResult]) ran and that is no buffer of the
    cursor's columns holds the same bytes afterwards. So the values of
    records that an earlier query returned stay intact when a later query
    goes through the same buffers. *)
Theorem materializer_keeps_other_blocks query args w l c cols v b :
  yields_cursor E query args w l c ->
  cur_columns c = inl cols ->
  w_heap w !! v = Some b ->
  ~ is_buf (cur_buf c) (length cols) v ->
  (exists r h', rowsToResult E c w = Ret r (set_heap E w h') /\ h' !! v = Some b)
  /\ exists r w', GetAll E query args w = Ret r w' /\ w_heap w' !! v = Some b.
Proof.
  intros Hc Hcols Hb Hv.
  assert (Hrows : forall w0 : World E, w_heap w0 !! v = Some b ->
            exists r h', rowsToResult E c w0 = Ret r (set_heap E w0 h')
                         /\ h' !! v = Some b).
  { intros w0 Hb0. unfold rowsToResult. destruct (cur_rows c) as [|first rest].
    - exists ([], None), (w_heap w0). rewrite set_heap_id. done.
    - rewrite Hcols. apply scanLoop_keeps; [|exact Hb0].
      rewrite length_fmap. exact Hv. }
  split; [apply Hrows; exact Hb|].
  unfold yields_cursor, query_reply in Hc.
  destruct (Slave E (w_driver w)) as [[l'|e0] s] eqn:Hs; [|discriminate].
  injection Hc as -> Hc.
  assert (Hl : slave_reply E w = inl l) by (unfold slave_reply; rewrite Hs; reflexivity).
  rewrite (GetAll_run E query args w l Hl), Hs. simpl. rewrite Hc.
  destruct (Hrows (after_query E l query args (after_slave E w)) Hb)
    as (r & h' & -> & Hb').
  exists r, (set_heap E (after_query E l query args (after_slave E w)) h').
  split; [reflexivity|exact Hb'].
Qed.

End Frame.

(** ** The diagnostics of debug mode *)

Section Log.

Context (E : Env).

Lemma logs_nothing {A : Type} (r : A) (w w' : World E) :
  w_execs w' = w_execs w -> w_queries w' = w_queries w -> w_diag w' = w_diag w ->
  logs_its_calls E w (Ret r w').
Proof.
  intros Hex Hq Hd. exists r, w', []. rewrite Hex, Hq, Hd, !app_nil_r.
  repeat split; try done. destruct (getDebug E); rewrite ?app_nil_r; reflexivity.
Qed.

Lemma after_exec_logs {A : Type} (r : A) link query args w :
  logs_its_calls E w (Ret r (after_exec E link query args w)).
Proof.
  exists r, (after_exec E link query args w),
    [mkExecCall link (sentQuery E query args) (sentArgs E query args)
       (exec_reply E link query args w)].
  split; [reflexivity|]. split; [reflexivity|]. split; [reflexivity|].
  unfold after_exec, logged_exec. simpl. destruct (getDebug E); simpl;
    rewrite ?app_nil_r; reflexivity.
Qed.

(** A run that logs its calls after a call that was logged. *)
Lemma logs_after_exec {A : Type} link query args w (run : res E A) :
  logs_its_calls E (after_exec E link query args w) run ->
  logs_its_calls E w run.
Proof.
  intros (r & w' & calls & -> & Hex & Hq & Hd).
  exists r, w', (mkExecCall link (sentQuery E query args) (sentArgs E query args)
                   (exec_reply E link query args w) :: calls).
  split; [reflexivity|].
  split; [rewrite Hex; unfold after_exec; simpl; rewrite <- app_assoc; reflexivity|].
  split; [rewrite Hq; reflexivity|].
  rewrite Hd. unfold after_exec, logged_exec. simpl.
  destruct (getDebug E); simpl; rewrite <- ?app_assoc; reflexivity.
Qed.

Lemma doExec_logs link query args w :
  logs_its_calls E w (doExec E link query args w).
Proof. rewrite doExec_eq. apply after_exec_logs. Qed.

Lemma execOn_logs link query args w :
  logs_its_calls E w (execOn E link query args w).
Proof.
  destruct link as [l|].
  - rewrite execOn_link. apply after_exec_logs.
  - destruct (master_reply E w) as [l|e] eqn:Hm.
    + rewrite (execOn_master E l query args w Hm).
      exact (after_exec_logs _ l query args (after_master E w)).
    + rewrite (execOn_master_fails E query args w e Hm). apply logs_nothing; reflexivity.
Qed.

Lemma logs_same {A : Type} (w0 w : World E) (run : res E A) :
  w_execs w0 = w_execs w -> w_queries w0 = w_queries w -> w_diag w0 = w_diag w ->
  logs_its_calls E w0 run -> logs_its_calls E w run.
Proof.
  intros Hex Hq Hd (r & w' & calls & Hrun & Hex' & Hq' & Hd').
  exists r, w', calls. rewrite <- Hex, <- Hq, <- Hd. done.
Qed.

Lemma batchLoop_logs link operation table keysStr holder updateStr keys c n :
  forall rows i params values br w,
    logs_its_calls E w
      (batchLoop E link operation table keysStr holder updateStr keys c n
         i rows params values br w).
Proof.
  induction rows as [|row rest IH]; intros i params values br w.
  - apply logs_nothing; reflexivity.
  - simpl batchLoop.
    match goal with |- context [if ?b then _ else _] => destruct b end; [|apply IH].
    unfold mbind, M_bind. rewrite doExec_eq.
    match goal with |- context [exec_reply E link ?q ?a w] =>
      destruct (exec_reply E link q a w) as [r|r e0] eqn:Hr end; simpl.
    + destruct (dr_RowsAffected r) as [k [e|]].
      * apply after_exec_logs.
      * eapply logs_after_exec. apply IH.
    + match goal with |- context [formatError (Some e0) ?q ?a] =>
        destruct (formatError (Some e0) q a) as [e|] eqn:He;
          [|by apply formatError_Some in He] end.
      apply after_exec_logs.
Qed.

Lemma doBatchInsert_logs link table data opt batch w :
  logs_its_calls E w (doBatchInsert E link table data opt batch w).
Proof.
  unfold doBatchInsert.
  destruct (toListMap E data) as [listMap|e]; [|apply logs_nothing; reflexivity].
  destruct (Z.of_nat (length listMap) <? 1); [apply logs_nothing; reflexivity|].
  unfold mbind, M_bind, range_keys.
  destruct (getChars E) as [charL charR].
  destruct link as [l|]; simpl.
  - eapply logs_same; [| | |apply batchLoop_logs]; reflexivity.
  - unfold db_Master. destruct (Master E (w_driver w)) as [[l|e] s]; simpl.
    + eapply logs_same; [| | |apply batchLoop_logs]; reflexivity.
    + apply logs_nothing; reflexivity.
Qed.

Lemma doInsert_logs link table data opt batch w :
  logs_its_calls E w (doInsert E link table data opt batch w).
Proof.
  assert (Hrec : is_record_like data ->
            logs_its_calls E w (doInsert E link table data opt batch w)).
  { intros Hk. destruct (decide (varToMapDeep E data = ∅)) as [Hm|Hm].
    - unfold doInsert. rewrite Hm.
      destruct Hk as [-> | ->]; apply logs_nothing; reflexivity.
    - rewrite doInsert_run by assumption.
      eapply logs_same; [| | |apply execOn_logs]; reflexivity. }
  destruct (kindThroughPtr data) eqn:Hk;
    try (apply Hrec; unfold is_record_like; rewrite Hk; auto; fail);
    unfold doInsert; rewrite Hk;
    try apply doBatchInsert_logs; apply logs_nothing; reflexivity.
Qed.

Lemma doUpdate_logs link table data condition args w :
  logs_its_calls E w (doUpdate E link table data condition args w).
Proof.
  destruct (decide ((updateParts E data w).1 = "")) as [He|Hne].
  - rewrite doUpdate_empty by exact He. apply logs_nothing; reflexivity.
  - rewrite doUpdate_run by exact Hne.
    eapply logs_same; [| | |apply execOn_logs]; reflexivity.
Qed.

(** X17. Every mutation returns, and it issues no query. In debug mode the
    diagnostics receive one object for every call that reached a link, in
    the order of the calls, with the statement and the arguments that the
    link received and with the error that the link returned, as it is;
    without debug mode they receive nothing. *)
Theorem mutations_log_their_calls link table data opt batch updates condition
    where_ args query w :
  logs_its_calls E w (Exec E query args w)
  /\ logs_its_calls E w (doInsert E link table data opt batch w)
  /\ logs_its_calls E w (doBatchInsert E link table data opt batch w)
  /\ logs_its_calls E w (doUpdate E link table updates condition args w)
  /\ logs_its_calls E w (Update E table updates where_ args w)
  /\ logs_its_calls E w (doDelete E link table condition args w)
  /\ logs_its_calls E w (Delete E table where_ args w).
Proof.
  split.
  { unfold Exec, mbind, M_bind, db_Master.
    destruct (Master E (w_driver w)) as [[l|e] s]; simpl.
    - eapply logs_same; [| | |apply doExec_logs]; reflexivity.
    - apply logs_nothing; reflexivity. }
  split; [apply doInsert_logs|].
  split; [apply doBatchInsert_logs|].
  split; [apply doUpdate_logs|].
  split.
  { unfold Update. destruct (formatWhere E where_ args) as [nw na].
    apply doUpdate_logs. }
  split; [rewrite doDelete_run; apply execOn_logs|].
  unfold Delete. destruct (formatWhere E where_ args) as [nw na].
  rewrite doDelete_run. apply execOn_logs.
Qed.

End Log.

(** ** Concrete runs of the other entry points *)

Module MoreRuns.

Import Stub Examples BatchRuns MoreExamples.

Lemma master_resolves (w : World E_ok) : resolves_to E_ok None w 1%nat (w_driver w).
Proof. right. split; reflexivity. Qed.

Lemma master_failure_stops_mutations_witness :
  master_reply E_down (world0 E_down 0%nat) = inr (ErrDriver 7)
  /\ exists w', doDelete E_down None "t" " WHERE id=?" [IInt 1] (world0 E_down 0%nat)
                = Ret (None, Some (ErrDriver 7)) w'
                /\ w_execs w' = [].
Proof.
  split; [reflexivity|].
  destruct (master_failure_stops_mutations E_down (world0 E_down 0%nat) (ErrDriver 7)
              eq_refl) as (_ & _ & Hdelete & _).
  apply Hdelete.
Defined.

Lemma mutation_runs_one_statement_witness :
  resolves_to E_ok None (world0 E_ok 0%nat) 1%nat 0%nat
  /\ runs_one_statement E_ok 1%nat 0%nat
       (deleteStatement (handleTableName E_ok "t") " WHERE id=?") [IInt 1]
       (world0 E_ok 0%nat)
       (doDelete E_ok None "t" " WHERE id=?" [IInt 1] (world0 E_ok 0%nat)).
Proof.
  split; [apply (master_resolves (world0 E_ok 0%nat))|].
  destruct (mutation_runs_one_statement E_ok None (world0 E_ok 0%nat) 1%nat 0%nat
              (master_resolves _)) as (_ & _ & Hdelete).
  apply Hdelete.
Defined.

Lemma doUpdate_cases_witness :
  valid_rangeOrder E_ok
  /\ exists w', doUpdate E_ok None "users" (DataMap ∅) " WHERE id=?" [IInt 1]
                  (world0 E_ok 0%nat)
                = Ret (None, Some (ErrNew "data cannot be empty")) w'
                /\ w_execs w' = [] /\ w_driver w' = 0%nat.
Proof.
  split; [apply sorted_valid|].
  destruct (doUpdate_cases E_ok None "users" (DataMap ∅) " WHERE id=?" [IInt 1]
              (world0 E_ok 0%nat) 1%nat 0%nat (sorted_valid _ _ _) (master_resolves _))
    as (Hrefused & _).
  apply Hrefused; [left|]; reflexivity.
Defined.

Lemma Delete_statement_witness :
  resolves_to E_ok None (world0 E_ok 0%nat) 1%nat 0%nat
  /\ runs_one_statement E_ok 1%nat 0%nat "DELETE FROM t" [] (world0 E_ok 0%nat)
       (Delete E_ok "t" no_condition [] (world0 E_ok 0%nat)).
Proof.
  split; [apply (master_resolves (world0 E_ok 0%nat))|].
  destruct (Delete_statement E_ok "t" no_condition [] (world0 E_ok 0%nat) 1%nat 0%nat
              (master_resolves _)) as (_ & Hnone).
  apply Hnone. reflexivity.
Defined.

Lemma doBatchInsert_chunks_witness :
  exists res err w' calls chunks,
    doBatchInsert E_ok None "t" (DataList [row_a; row_b; row_a]) gINSERT_OPTION_DEFAULT
      [2] (world0 E_ok 0%nat) = Ret (res, err) w'
    /\ w_execs w' = calls
    /\ length calls = length chunks
    /\ concat chunks `prefix_of` [row_a; row_b; row_a]
    /\ full_but_last 2 chunks
    /\ (err = None ->
          concat chunks = [row_a; row_b; row_a]
          /\ exists b, res = Some (ResBatch b) /\ lastResult b = last_result calls).
Proof.
  destruct (doBatchInsert_chunks E_ok None "t" (DataList [row_a; row_b; row_a])
              gINSERT_OPTION_DEFAULT [2] [row_a; row_b; row_a] (world0 E_ok 0%nat)
              1%nat 0%nat eq_refl ltac:(discriminate) (master_resolves _) eq_refl)
    as (res & err & w' & calls & chunks & Hrun & Hex & _ & Hf2 & Hpre & Hfull & Hok).
  exists res, err, w', calls, chunks.
  split; [exact Hrun|]. split; [exact Hex|].
  split; [symmetry; exact (Forall2_length _ _ _ Hf2)|].
  split; [exact Hpre|]. split; [exact Hfull|exact Hok].
Defined.

Lemma insert_of_a_list_is_a_batch_witness :
  kindThroughPtr (DataList [row_a; row_b]) = KSlice
  /\ Save E_ok "t" (DataList [row_a; row_b]) [] (world0 E_ok 0%nat)
     = BatchSave E_ok "t" (DataList [row_a; row_b]) [] (world0 E_ok 0%nat).
Proof.
  split; [reflexivity|].
  destruct (insert_of_a_list_is_a_batch E_ok "t" (DataList [row_a; row_b]) []
              (world0 E_ok 0%nat) (or_introl eq_refl) eq_refl)
    as (_ & _ & _ & _ & Hsave).
  exact Hsave.
Defined.


Lemma slave_failure_stops_reads_witness :
  slave_reply E_down (world0 E_down 0%nat) = inr (ErrDriver 8)
  /\ exists w', w_queries w' = []
       /\ GetCount E_down "SELECT * FROM t" [] (world0 E_down 0%nat)
          = Ret (0, Some (ErrDriver 8)) w'.
Proof.
  split; [reflexivity|].
  destruct (slave_failure_stops_reads E_down structs_ok "SELECT * FROM t" []
              (DataPtr (DataStruct [])) (world0 E_down 0%nat) (ErrDriver 8) eq_refl)
    as (w' & Hq & _ & _ & _ & _ & _ & Hcount & _).
  exists w'. split; [exact Hq|exact Hcount].
Defined.

Lemma query_is_rejected query args :
  query_fails E_ok query args (world0 E_ok 0%nat) ErrNoRows.
Proof. exists 2%nat. reflexivity. Qed.

Lemma driver_error_reaches_every_reader_witness :
  query_fails E_ok "SELECT * FROM t" [] (world0 E_ok 0%nat) ErrNoRows
  /\ exists e' w',
       GetOne E_ok "SELECT * FROM t" [] (world0 E_ok 0%nat) = Ret (None, Some e') w'
       /\ GetStructs E_ok structs_ok (DataPtr (DataSlice [])) "SELECT * FROM t" []
            (world0 E_ok 0%nat) = Ret (Some e') w'.
Proof.
  split; [apply query_is_rejected|].
  destruct (driver_error_reaches_every_reader E_ok structs_ok "SELECT * FROM t" []
              (DataPtr (DataSlice [])) (world0 E_ok 0%nat) ErrNoRows
              (query_is_rejected _ _))
    as (e' & w' & _ & _ & _ & Hone & _ & _ & _ & Hstructs).
  exists e', w'. split; [exact Hone|exact Hstructs].
Defined.

Lemma readers_issue_one_query_witness :
  slave_reply E_two (world_bufs E_two 0%nat) = inl 2%nat
  /\ reads_once E_two 2%nat "SELECT * FROM t" [] (world_bufs E_two 0%nat)
       (GetAll E_two "SELECT * FROM t" [] (world_bufs E_two 0%nat)).
Proof.
  split; [reflexivity|].
  destruct (readers_issue_one_query E_two structs_ok "SELECT * FROM t" []
              (DataPtr (DataStruct [])) (world_bufs E_two 0%nat) 2%nat eq_refl)
    as (_ & _ & Hall & _).
  exact Hall.
Defined.

Lemma scan_error_keeps_decoded_rows_witness :
  yields_cursor E_broken "SELECT * FROM t" [] (world_bufs E_broken 0%nat) 2%nat broken_rows
  /\ exists records w',
       GetAll E_broken "SELECT * FROM t" [] (world_bufs E_broken 0%nat)
       = Ret (records, Some (ErrDriver 3)) w'
       /\ length records = 1%nat
       /\ GetOne E_broken "SELECT * FROM t" [] (world_bufs E_broken 0%nat)
          = Ret (None, Some (ErrDriver 3)) w'.
Proof.
  split; [reflexivity|].
  destruct (scan_error_keeps_decoded_rows E_broken structs_ok "SELECT * FROM t" []
              (DataPtr (DataSlice [])) (world_bufs E_broken 0%nat) 2%nat broken_rows
              two_cols [[Some [byte 49]; Some [byte 97]]] (ErrDriver 3)
              [RowData [Some [byte 50]; None]] eq_refl eq_refl eq_refl)
    as (records & w' & Hall & Hlen & _ & Hone & _).
  - repeat constructor.
  - exists records, w'. split; [exact Hall|]. split; [exact Hlen|exact Hone].
Defined.

Lemma rowsToResult_last_column_wins_witness :
  exists rec v w',
    rowsToResult E_ok twin_rows (world_bufs E_ok 0%nat) = Ret ([rec], None) w'
    /\ (forall name, is_Some (rec !! name) <-> name ∈ twin_cols.*1)
    /\ rec !! "id" = Some (gvar_New (convertValue E_ok v [byte 97] "varchar"))
    /\ w_heap w' !! v = Some [byte 97].
Proof.
  destruct (rowsToResult_last_column_wins E_ok twin_rows (world_bufs E_ok 0%nat)
              twin_cols twin_cells eq_refl eq_refl)
    as (records & h' & Hrun & Hlen & Hrows).
  - repeat constructor.
  - intros i Hi. apply elem_of_dom.
    destruct i as [|[|i]]; [eexists; reflexivity|eexists; reflexivity|].
    simpl in Hi. lia.
  - intros i i' _ _ Heq. exact Heq.
  - destruct (Hrows 0%nat _ eq_refl) as (rec & Hrec & Hdom & Hlast).
    destruct (Hlast 1%nat "id" "varchar" (Some [byte 97]) eq_refl eq_refl)
      as (v & Hv & Hh).
    { intros [|[|i']] Hlt; try lia; discriminate. }
    destruct records as [|rec' [|rec'' records]]; try discriminate.
    injection Hrec as ->.
    exists rec, v, (set_heap E_ok (world_bufs E_ok 0%nat) h').
    split; [exact Hrun|]. split; [exact Hdom|]. split; [exact Hv|exact Hh].
Defined.

Lemma GetScan_checks_its_target_witness :
  isNilInterface (DataStruct []) = false
  /\ GetScan E_none structs_ok (DataStruct []) "SELECT * FROM t" [] (world0 E_none 0%nat)
     = Ret (Some (ErrNew "params should be type of pointer, but got: struct"))
         (world0 E_none 0%nat)
  /\ exists w', GetScan E_none structs_ok (DataPtr (DataSlice [])) "SELECT * FROM t" []
                  (world0 E_none 0%nat) = Ret (Some ErrNoRows) w'.
Proof.
  split; [reflexivity|]. split.
  - destruct (GetScan_checks_its_target E_none structs_ok (DataStruct [])
                "SELECT * FROM t" [] (world0 E_none 0%nat) eq_refl) as (Hkind & _).
    apply Hkind. discriminate.
  - destruct (GetScan_checks_its_target E_none structs_ok (DataPtr (DataSlice []))
                "SELECT * FROM t" [] (world0 E_none 0%nat) eq_refl)
      as (_ & _ & _ & _ & Hzero & _).
    apply Hzero; [reflexivity|right; left; reflexivity|apply Runs.no_rows_yield_zero_rows].
Defined.

Lemma GetCount_reads_the_one_cell_witness :
  yields_cursor E_count (countQuery "SELECT * FROM t") [] (world0 E_count 0%nat)
    2%nat count_rows
  /\ exists w', GetCount E_count "SELECT * FROM t" [] (world0 E_count 0%nat)
                = Ret (0, None) w'.
Proof.
  split; [reflexivity|].
  destruct (GetCount_reads_the_one_cell E_count "SELECT * FROM t" []
              (world0 E_count 0%nat) 2%nat count_rows "n" "bigint" (Some [byte 51])
              (sorted_valid _ _ _) eq_refl eq_refl eq_refl)
    as (value & w' & _ & (v & -> & _) & Hcount).
  exists w'. exact Hcount.
Defined.

Lemma materializer_keeps_other_blocks_witness :
  yields_cursor E_two "SELECT * FROM t" []
    (mkWorld E_two 0%nat [] [] [] 0 {[7%nat := [byte 1]]}) 2%nat two_rows
  /\ exists r w',
       GetAll E_two "SELECT * FROM t" []
         (mkWorld E_two 0%nat [] [] [] 0 {[7%nat := [byte 1]]}) = Ret r w'
       /\ w_heap w' !! 7%nat = Some [byte 1].
Proof.
  split; [reflexivity|].
  destruct (materializer_keeps_other_blocks E_two "SELECT * FROM t" []
              (mkWorld E_two 0%nat [] [] [] 0 {[7%nat := [byte 1]]}) 2%nat two_rows
              two_cols 7%nat [byte 1] eq_refl eq_refl) as (_ & Hall).
  - apply lookup_singleton_eq.
  - intros (i & Hi & Heq). simpl in Hi, Heq. lia.
  - exact Hall.
Defined.

End MoreRuns.
